(** * Othello: board model, evaluator and best-first move search

    A shallow embedding of [src/main.py].  The numpy board of an
    [OthelloState] is a mutable array that lives in a store and is reached
    through a reference, so that copying ([self.board.copy()]) and in-place
    update ([board[x, y] = player]) are distinct, observable effects.  Every
    indexed access is recorded in a trace.  Python exceptions and loops that
    could spin are explicit outcomes of a computation. *)

From stdpp Require Import base option list gmap.
From Stdlib Require Import ZArith Lia.

Local Open Scope Z_scope.

(** ** Outcomes and the computation monad *)

Inductive exn : Type :=
  | IndexError      (* numpy / list index out of range, pop from empty list *)
  | BadReference.   (* an array reference that was never allocated *)

Inductive outcome (A : Type) : Type :=
  | Ok (a : A)
  | Raise (e : exn)
  | OutOfFuel.

Arguments Ok {A} a.
Arguments Raise {A} e.
Arguments OutOfFuel {A}.

Global Instance outcome_ret : MRet outcome := λ A a, Ok a.
Global Instance outcome_bind : MBind outcome := λ A B f m,
  match m with
  | Ok a => f a
  | Raise e => Raise e
  | OutOfFuel => OutOfFuel
  end.

(** An 8x8 [int64] numpy array in C (row-major) order: 64 cells. *)
Abbreviation ndarray := (list Z) (only parsing).
Abbreviation loc := nat (only parsing).

(** One indexed access [array[x, y]] (read or write) on the array at [loc]. *)
Definition access : Type := (loc * Z * Z)%type.

Record world : Type := World {
  store : list ndarray;    (* the arrays allocated so far, by reference *)
  trace : list access      (* indexed accesses, most recent first *)
}.

Definition M (A : Type) : Type := world → outcome (A * world).

Global Instance M_ret : MRet M := λ A a w, Ok (a, w).
Global Instance M_bind : MBind M := λ A B f m w,
  match m w with
  | Ok (a, w') => f a w'
  | Raise e => Raise e
  | OutOfFuel => OutOfFuel
  end.

Definition raise {A} (e : exn) : M A := λ _, Raise e.
Definition out_of_fuel {A} : M A := λ _, OutOfFuel.
Definition lift {A} (o : outcome A) : M A := λ w,
  match o with
  | Ok a => Ok (a, w)
  | Raise e => Raise e
  | OutOfFuel => OutOfFuel
  end.

(** [for x in l: body(x)] without early exit. *)
Fixpoint for_each {A} (l : list A) (body : A → M ()) : M () :=
  match l with
  | [] => mret ()
  | x :: l' => _ ← body x; for_each l' body
  end.

(** [for x in l: s = body(x, s)]: a loop that threads local variables. *)
Fixpoint for_fold {A S} (l : list A) (body : A → S → M S) (s : S) : M S :=
  match l with
  | [] => mret s
  | x :: l' => s' ← body x s; for_fold l' body s'
  end.

(** ** numpy arrays *)

(** 64-bit two's complement wrap-around of numpy [int64] arithmetic. *)
Definition wrap64 (z : Z) : Z := (z + 2 ^ 63) mod 2 ^ 64 - 2 ^ 63.

(** An index along an axis of length 8: negative indices count from the
    end, anything outside [-8, 8) raises [IndexError]. *)
Definition np_index (i : Z) : outcome nat :=
  if decide (0 ≤ i < 8) then Ok (Z.to_nat i)
  else if decide (-8 ≤ i < 0) then Ok (Z.to_nat (i + 8))
  else Raise IndexError.

Definition log_access (b : loc) (x y : Z) : M () := λ w,
  Ok ((), {| store := store w; trace := (b, x, y) :: trace w |}).

Definition load (b : loc) : M ndarray := λ w,
  match store w !! b with
  | Some a => Ok (a, w)
  | None => Raise BadReference
  end.

Definition save (b : loc) (a : ndarray) : M () := λ w,
  if decide (b < length (store w))%nat
  then Ok ((), {| store := <[b := a]> (store w); trace := trace w |})
  else Raise BadReference.

Definition alloc (a : ndarray) : M loc := λ w,
  Ok (length (store w), {| store := store w ++ [a]; trace := trace w |}).

(** [board[x, y]] *)
Definition board_get (b : loc) (x y : Z) : M Z :=
  _ ← log_access b x y;
  i ← lift (np_index x);
  j ← lift (np_index y);
  a ← load b;
  match a !! (8 * i + j)%nat with
  | Some v => mret v
  | None => raise IndexError
  end.

(** [board[x, y] = v] *)
Definition board_set (b : loc) (x y : Z) (v : Z) : M () :=
  _ ← log_access b x y;
  i ← lift (np_index x);
  j ← lift (np_index y);
  a ← load b;
  if decide (8 * i + j < length a)%nat
  then save b (<[(8 * i + j)%nat := v]> a)
  else raise IndexError.

(** [board.copy()] *)
Definition board_copy (b : loc) : M loc :=
  a ← load b; alloc a.

(** [board.tobytes()]: the 64 cell values, in row-major order.  Two arrays
    have the same bytes exactly when they hold the same cells, so the cell
    list itself stands for the byte string (and for its [str]). *)
Definition tobytes (b : loc) : M (list Z) := load b.

(** ** class OthelloState *)

Record OthelloState : Type := { board : loc }.

Definition range8 : list Z := [0; 1; 2; 3; 4; 5; 6; 7].

Definition directions : list (Z * Z) :=
  [(0, 1); (1, 0); (0, -1); (-1, 0); (1, 1); (-1, -1); (1, -1); (-1, 1)].

(** [0 <= x < 8 and 0 <= y < 8] *)
Definition on_board (x y : Z) : bool :=
  bool_decide (0 ≤ x < 8) && bool_decide (0 ≤ y < 8).

(** [OthelloState.__init__] *)
Definition OthelloState_init (board : option loc) : M OthelloState :=
  match board with
  | None =>
      b ← alloc (replicate 64 0);
      _ ← board_set b 3 3 1;
      _ ← board_set b 3 4 (-1);
      _ ← board_set b 4 3 (-1);
      _ ← board_set b 4 4 1;
      mret {| board := b |}
  | Some b => mret {| board := b |}
  end.

(** The [while] loop of [_would_flip].  A scan in a direction other than
    (0,0) leaves the board after at most 8 steps; [OutOfFuel] stands for a
    scan that would not stop. *)
Fixpoint would_flip_loop (fuel : nat) (self : OthelloState)
    (x y dx dy player : Z) (to_flip : list (Z * Z)) : M bool :=
  match fuel with
  | O => out_of_fuel
  | S fuel' =>
      if on_board x y then
        v ← board_get (board self) x y;
        if decide (v = 0) then mret false
        else
          v' ← board_get (board self) x y;
          if decide (v' = player) then mret (bool_decide (0 < length to_flip)%nat)
          else would_flip_loop fuel' self (x + dx) (y + dy) dx dy player
                               (to_flip ++ [(x, y)])
      else mret false
  end.

Definition scan_fuel : nat := 9.

Definition _would_flip (self : OthelloState) (row col dx dy player : Z) : M bool :=
  would_flip_loop scan_fuel self (row + dx) (col + dy) dx dy player [].

(** The [for dx, dy in directions] loop of [is_valid_move], which returns
    at the first direction that would flip. *)
Fixpoint any_would_flip (self : OthelloState) (row col player : Z)
    (ds : list (Z * Z)) : M bool :=
  match ds with
  | [] => mret false
  | (dx, dy) :: ds' =>
      f ← _would_flip self row col dx dy player;
      if (f : bool) then mret true else any_would_flip self row col player ds'
  end.

Definition is_valid_move (self : OthelloState) (row col player : Z) : M bool :=
  v ← board_get (board self) row col;
  if decide ((v : Z) ≠ 0) then mret false
  else any_would_flip self row col player directions.

Definition get_valid_moves (self : OthelloState) (player : Z) : M (list (Z * Z)) :=
  for_fold range8 (λ i valid_moves,
    for_fold range8 (λ j valid_moves,
      v ← is_valid_move self i j player;
      if (v : bool) then mret (valid_moves ++ [(i, j)]) else mret valid_moves)
    valid_moves) [].

(** The [while] loop of [_flip_direction]. *)
Fixpoint flip_direction_loop (fuel : nat) (self : OthelloState)
    (x y dx dy player : Z) (to_flip : list (Z * Z)) : M () :=
  match fuel with
  | O => out_of_fuel
  | S fuel' =>
      if on_board x y then
        v ← board_get (board self) x y;
        if decide (v = 0) then mret ()
        else
          v' ← board_get (board self) x y;
          if decide (v' = player) then
            for_each to_flip (λ '(flip_x, flip_y),
              board_set (board self) flip_x flip_y player)
          else flip_direction_loop fuel' self (x + dx) (y + dy) dx dy player
                                   (to_flip ++ [(x, y)])
      else mret ()
  end.

Definition _flip_direction (self : OthelloState) (row col dx dy player : Z) : M () :=
  flip_direction_loop scan_fuel self (row + dx) (col + dy) dx dy player [].

Definition make_move (self : OthelloState) (row col player : Z)
    : M (option OthelloState) :=
  v ← is_valid_move self row col player;
  if negb (v : bool) then mret None
  else
    b ← board_copy (board self);
    new_state ← OthelloState_init (Some b);
    _ ← board_set (board new_state) row col player;
    _ ← for_each directions (λ '(dx, dy),
          _flip_direction new_state row col dx dy player);
    mret (Some new_state).

(** [i in [0, 7]] *)
Definition in_0_7 (i : Z) : bool := bool_decide (i = 0) || bool_decide (i = 7).

Definition corner_weight : Z := 4.
Definition edge_weight : Z := 2.

Definition mult_at (i j : Z) : Z :=
  if in_0_7 i && in_0_7 j then corner_weight
  else if in_0_7 i || in_0_7 j then edge_weight
  else 1.

(** [value] starts as the Python integer 0 and is an [int64] from the
    first [+=] on; numpy scalar products and sums wrap around. *)
Definition evaluate (self : OthelloState) : M Z :=
  for_fold range8 (λ i value,
    for_fold range8 (λ j value,
      let mult := mult_at i j in
      v ← board_get (board self) i j;
      mret (wrap64 (value + wrap64 (v * mult))))
    value) 0.

(** ** Python lists and [heapq]

    The frontier is a Python list used as a binary heap through
    [heapq.heappush] and [heapq.heappop].  The functions below follow
    CPython's [heapq] module; the order [lt] is the [__lt__] of the items. *)

Definition list_get {A} (l : list A) (i : nat) : outcome A :=
  match l !! i with
  | Some x => Ok x
  | None => Raise IndexError
  end.

Definition list_set {A} (l : list A) (i : nat) (x : A) : outcome (list A) :=
  if decide (i < length l)%nat then Ok (<[i := x]> l) else Raise IndexError.

Section heapq.
Context {A : Type} (lt : A → A → bool).

(** [while pos > startpos] of [_siftdown]: [newitem] moves towards the
    root past every parent it is smaller than. *)
Fixpoint siftdown_loop (fuel : nat) (heap : list A) (startpos pos : nat)
    (newitem : A) : outcome (list A) :=
  match fuel with
  | O => OutOfFuel
  | S fuel' =>
      if decide (startpos < pos)%nat then
        let parentpos := ((pos - 1) / 2)%nat in
        parent ← list_get heap parentpos;
        if lt newitem parent then
          heap ← list_set heap pos parent;
          siftdown_loop fuel' heap startpos parentpos newitem
        else list_set heap pos newitem
      else list_set heap pos newitem
  end.

Definition _siftdown (heap : list A) (startpos pos : nat) : outcome (list A) :=
  newitem ← list_get heap pos;
  siftdown_loop (S pos) heap startpos pos newitem.

(** [while childpos < endpos] of [_siftup]: the smaller child moves up
    until a leaf is reached; the result is the heap and the leaf. *)
Fixpoint siftup_loop (fuel : nat) (heap : list A) (endpos pos childpos : nat)
    : outcome (list A * nat) :=
  match fuel with
  | O => OutOfFuel
  | S fuel' =>
      if decide (childpos < endpos)%nat then
        let rightpos := (childpos + 1)%nat in
        childpos ←
          (if decide (rightpos < endpos)%nat then
             l ← list_get heap childpos;
             r ← list_get heap rightpos;
             mret (if negb (lt l r) then rightpos else childpos)
           else mret childpos);
        c ← list_get heap childpos;
        heap ← list_set heap pos c;
        siftup_loop fuel' heap endpos childpos (2 * childpos + 1)%nat
      else Ok (heap, pos)
  end.

Definition _siftup (heap : list A) (pos : nat) : outcome (list A) :=
  let endpos := length heap in
  let startpos := pos in
  newitem ← list_get heap pos;
  '(heap, pos) ← siftup_loop (S endpos) heap endpos pos (2 * pos + 1)%nat;
  heap ← list_set heap pos newitem;
  _siftdown heap startpos pos.

Definition heappush (heap : list A) (item : A) : outcome (list A) :=
  let heap := heap ++ [item] in
  _siftdown heap 0 (length heap - 1).

(** Returns the popped item and the heap left behind. *)
Definition heappop (heap : list A) : outcome (A * list A) :=
  match last heap with
  | None => Raise IndexError
  | Some lastelt =>
      let heap := take (length heap - 1) heap in
      match heap with
      | [] => Ok (lastelt, heap)
      | returnitem :: _ =>
          heap ← list_set heap 0 lastelt;
          heap ← _siftup heap 0;
          Ok (returnitem, heap)
      end
  end.
End heapq.

(** ** class SearchNode *)

Record SearchNode : Type := {
  f_score : Z;
  g_score : Z;
  state : OthelloState;
  path : list (Z * Z)
}.

(** [SearchNode.__lt__] *)
Definition SearchNode_lt (self other : SearchNode) : bool :=
  bool_decide (f_score self < f_score other).

(** ** class OthelloAI *)

Record OthelloAI : Type := { player : Z }.

(** [self.player if g_score % 2 == 0 else -self.player] *)
Definition side_to_move (self : OthelloAI) (g_score : Z) : Z :=
  if decide (g_score mod 2 = 0) then player self else - player self.

(** Body of [for move in moves] in [a_star_search]. *)
Definition push_successor (self : OthelloAI) (current_state : OthelloState)
    (g_score : Z) (path : list (Z * Z)) (move : Z * Z)
    (frontier : list SearchNode) : M (list SearchNode) :=
  next_state ← make_move current_state move.1 move.2 (side_to_move self g_score);
  match next_state with
  | None => mret frontier
  | Some next_state =>
      let new_path := match path with [] => path ++ [move] | _ => path end in
      e ← evaluate next_state;
      let h_score := if decide (player self = -1) then wrap64 (- e) else e in
      let new_f_score := wrap64 (g_score + 1 + h_score) in
      lift (heappush SearchNode_lt frontier
              {| f_score := new_f_score; g_score := g_score + 1;
                 state := next_state; path := new_path |})
  end.

(** The three ways out of one pass through the body of [while frontier]:
    [return], [continue], and reaching the end after the successors of
    [current_node] were pushed. *)
Inductive step : Type :=
  | Returned (r : option (Z * Z))
  | Skipped (current_node : SearchNode) (frontier : list SearchNode)
  | Expanded (current_node : SearchNode) (frontier : list SearchNode)
             (explored : gset (list Z)).

Definition search_step (self : OthelloAI) (max_depth : Z)
    (frontier : list SearchNode) (explored : gset (list Z)) : M step :=
  '(current_node, frontier) ← lift (heappop SearchNode_lt frontier);
  let current_state := state current_node in
  let g_score := g_score current_node in
  let path := path current_node in
  if decide (max_depth ≤ g_score) then
    match path with
    | move :: _ => mret (Returned (Some move))
    | [] => mret (Returned None)
    end
  else
    state_hash ← tobytes (board current_state);
    if decide (state_hash ∈ explored) then mret (Skipped current_node frontier)
    else
      let explored := explored ∪ {[state_hash]} in
      moves ← get_valid_moves current_state (side_to_move self g_score);
      frontier ← for_fold moves (push_successor self current_state g_score path)
                          frontier;
      mret (Expanded current_node frontier explored).

Fixpoint search_loop (fuel : nat) (self : OthelloAI) (max_depth : Z)
    (frontier : list SearchNode) (explored : gset (list Z)) : M (option (Z * Z)) :=
  match fuel with
  | O => out_of_fuel
  | S fuel' =>
      match frontier with
      | [] => mret None
      | _ :: _ =>
          s ← search_step self max_depth frontier explored;
          match s with
          | Returned r => mret r
          | Skipped _ frontier => search_loop fuel' self max_depth frontier explored
          | Expanded _ frontier explored =>
              search_loop fuel' self max_depth frontier explored
          end
      end
  end.

Definition a_star_search (fuel : nat) (self : OthelloAI)
    (initial_state : OthelloState) (max_depth : Z) : M (option (Z * Z)) :=
  let start_node :=
    {| f_score := 0; g_score := 0; state := initial_state; path := [] |} in
  frontier ← lift (heappush SearchNode_lt [] start_node);
  search_loop fuel self max_depth frontier ∅.

Definition get_move (fuel : nat) (self : OthelloAI) (state : OthelloState)
    : M (option (Z * Z)) :=
  a_star_search fuel self state 4.

Definition empty_world : world := {| store := []; trace := [] |}.



(** * Reasoning about computations *)

(** [wp m w Q]: run from world [w], the computation [m] returns normally
    (no exception, fuel left) with a result and a world that satisfy [Q]. *)
Definition wp {A} (m : M A) (w : world) (Q : A → world → Prop) : Prop :=
  match m w with
  | Ok (a, w') => Q a w'
  | _ => False
  end.

(** The result of a run, without the world it ends in. *)
Definition res {A} (o : outcome (A * world)) : outcome A :=
  match o with
  | Ok (a, _) => Ok a
  | Raise e => Raise e
  | OutOfFuel => OutOfFuel
  end.

(** An access inside the 8x8 grid. *)
Definition in_grid (acc : access) : Prop :=
  0 ≤ acc.1.2 < 8 ∧ 0 ≤ acc.2 < 8.

(** [w'] continues the trace of [w] with accesses inside the grid only. *)
Definition extends (w w' : world) : Prop :=
  ∃ t, trace w' = t ++ trace w ∧ Forall in_grid t.

(** [w'] has the store of [w]: only reads happened, all inside the grid. *)
Definition reads_only (w w' : world) : Prop :=
  store w' = store w ∧ extends w w'.

(** * Functional model of the board operations

    What the methods of [OthelloState] compute, as functions of the cells of
    the array they run on.  The lemmas named [*_spec] relate each method to
    its function. *)

Definition idx (x y : Z) : nat := (8 * Z.to_nat x + Z.to_nat y)%nat.

Definition cell (a : list Z) (x y : Z) : Z := default 0 (a !! idx x y).

(** A board of the data model: 8x8 cells, each Empty (0), Black (1) or
    White (-1). *)
Definition cell_value (v : Z) : Prop := v = -1 ∨ v = 0 ∨ v = 1.
Definition wf_board (a : list Z) : Prop :=
  length a = 64%nat ∧ Forall cell_value a.
Definition is_player (p : Z) : Prop := p = 1 ∨ p = -1.

Global Instance cell_value_dec v : Decision (cell_value v).
Proof. unfold cell_value. apply _. Defined.
Global Instance wf_board_dec a : Decision (wf_board a).
Proof. unfold wf_board. apply _. Defined.
Global Instance is_player_dec p : Decision (is_player p).
Proof. unfold is_player. apply _. Defined.

(** The 64 coordinates in row-major order. *)
Definition all_cells : list (Z * Z) :=
  i ← range8; j ← range8; [(i, j)].

(** The scan shared by [_would_flip] and [_flip_direction]: [Some to_flip]
    when the scan ends on one of [player]'s pieces. *)
Fixpoint ray (fuel : nat) (a : list Z) (x y dx dy player : Z)
    (to_flip : list (Z * Z)) : option (list (Z * Z)) :=
  match fuel with
  | O => None
  | S fuel' =>
      if on_board x y then
        if decide (cell a x y = 0) then None
        else if decide (cell a x y = player) then Some to_flip
        else ray fuel' a (x + dx) (y + dy) dx dy player (to_flip ++ [(x, y)])
      else None
  end.

Definition captured (a : list Z) (row col dx dy player : Z) : list (Z * Z) :=
  default [] (ray scan_fuel a (row + dx) (col + dy) dx dy player []).

Definition would_flip_cells (a : list Z) (row col dx dy player : Z) : bool :=
  bool_decide (0 < length (captured a row col dx dy player))%nat.

Definition valid_cells (a : list Z) (row col player : Z) : bool :=
  bool_decide (cell a row col = 0)
  && existsb (λ d, would_flip_cells a row col d.1 d.2 player) directions.

Definition valid_moves_cells (a : list Z) (player : Z) : list (Z * Z) :=
  filter (λ m, valid_cells a m.1 m.2 player = true) all_cells.

Definition set_cells (player : Z) (l : list (Z * Z)) (a : list Z) : list Z :=
  foldl (λ a m, <[idx m.1 m.2 := player]> a) a l.

Definition flip_cells (row col player : Z) (ds : list (Z * Z)) (a : list Z)
    : list Z :=
  foldl (λ a d, set_cells player (captured a row col d.1 d.2 player) a) a ds.

Definition make_move_cells (a : list Z) (row col player : Z) : list Z :=
  flip_cells row col player directions (<[idx row col := player]> a).

Definition evaluate_cells (a : list Z) : Z :=
  foldl (λ value m, wrap64 (value + wrap64 (cell a m.1 m.2 * mult_at m.1 m.2)))
        0 all_cells.

(** [(x, y)] is on the board and holds a piece that is not [player]'s. *)
Definition opponent_at (a : list Z) (player : Z) (m : Z * Z) : Prop :=
  0 ≤ m.1 < 8 ∧ 0 ≤ m.2 < 8 ∧ cell a m.1 m.2 ≠ 0 ∧ cell a m.1 m.2 ≠ player.

(** Steps a scan from [(x, y)] can still take before it leaves the board. *)
Definition remaining (dx dy x y : Z) : Z :=
  if decide (dx = 1) then 8 - x
  else if decide (dx = -1) then x + 1
  else if decide (dy = 1) then 8 - y
  else y + 1.

(** Enough fuel for a scan that starts at [(x, y)]. *)
Definition enough_fuel (fuel : nat) (dx dy x y : Z) : Prop :=
  (0 < fuel)%nat ∧ (on_board x y = true → remaining dx dy x y < Z.of_nat fuel).

(** ** The evaluator as the specification words it *)

Definition is_corner (i j : Z) : Prop := (i = 0 ∨ i = 7) ∧ (j = 0 ∨ j = 7).
Definition is_edge (i j : Z) : Prop := i = 0 ∨ i = 7 ∨ j = 0 ∨ j = 7.

Definition positional_weight (i j : Z) : Z :=
  if decide (is_corner i j) then 4
  else if decide (is_edge i j) then 2
  else 1.

(** Sum over all 64 cells of signed value times positional weight. *)
Definition weighted_sum (a : list Z) : Z :=
  foldr Z.add 0 (map (λ m, cell a m.1 m.2 * positional_weight m.1 m.2) all_cells).

(** The cells written by the default constructor. *)
Definition initial_cells : list Z :=
  <[idx 4 4 := 1]> (<[idx 4 3 := -1]> (<[idx 3 4 := -1]> (<[idx 3 3 := 1]>
    (replicate 64 0)))).

(** A world that holds one board, the starting position. *)
Definition initial_world : world := {| store := [initial_cells]; trace := [] |}.

(** Number of empty cells of an array. *)
Definition empties (a : list Z) : nat := length (filter (λ v, v = 0) a).

(** * Functional model of one expansion of the search *)

(** [heappush] of several items, one after the other. *)
Fixpoint push_all {A} (lt : A → A → bool) (heap items : list A)
    : outcome (list A) :=
  match items with
  | [] => Ok heap
  | x :: items' => heap' ← heappush lt heap x; push_all lt heap' items'
  end.

(** The priority of the successor reached by [move] from a node of depth
    [g] whose board has the cells [a]. *)
Definition successor_score (self : OthelloAI) (a : list Z) (g : Z)
    (move : Z * Z) : Z :=
  let e := evaluate_cells (make_move_cells a move.1 move.2 (side_to_move self g)) in
  let h_score := if decide (player self = -1) then wrap64 (- e) else e in
  wrap64 (g + 1 + h_score).

(** The nodes pushed while a node of depth [g] and path [path] on cells [a]
    is expanded over [moves], each with the cells of its new board; the
    first board is allocated at reference [n]. *)
Fixpoint successors (self : OthelloAI) (a : list Z) (g : Z)
    (path : list (Z * Z)) (n : nat) (moves : list (Z * Z))
    : list (SearchNode * list Z) :=
  match moves with
  | [] => []
  | move :: moves' =>
      if valid_cells a move.1 move.2 (side_to_move self g) then
        ({| f_score := successor_score self a g move;
            g_score := g + 1;
            state := {| board := n |};
            path := match path with [] => path ++ [move] | _ => path end |},
         make_move_cells a move.1 move.2 (side_to_move self g))
        :: successors self a g path (S n) moves'
      else successors self a g path n moves'
  end.

(** The first item of [items] that no other item is smaller than: the
    earliest one among those of least priority. *)
Definition first_min {A} (lt : A → A → bool) (items : list A) : option A :=
  foldl (λ best x,
           match best with
           | None => Some x
           | Some b => if lt x b then Some x else Some b
           end) None items.

(** * The search loop: invariant and reachable states *)

(** A node of a search that started on a board with [E0] empty cells: its
    board is a board of the data model, every ply of its depth filled one
    cell, and its path holds coordinates on the board. *)
Definition node_ok (E0 : Z) (w : world) (n : SearchNode) : Prop :=
  ∃ a, store w !! board (state n) = Some a
       ∧ wf_board a
       ∧ 0 ≤ g_score n
       ∧ g_score n + Z.of_nat (empties a) = E0
       ∧ Forall (λ m, 0 ≤ m.1 < 8 ∧ 0 ≤ m.2 < 8) (path n).

(** Bound on the passes through the loop that a node and everything pushed
    below it can still cause. *)
Definition weight (E0 : Z) (n : SearchNode) : nat :=
  65 ^ Z.to_nat (E0 - g_score n).

(** The states of the loop of [a_star_search] started on [initial_state] in
    world [w0]: frontier, explored set and world at the loop head, together
    with the layouts of the boards expanded so far, most recent first. *)
Inductive reachable (self : OthelloAI) (max_depth : Z)
    (initial_state : OthelloState) (w0 : world)
    : list SearchNode → gset (list Z) → world → list (list Z) → Prop :=
  | reachable_start frontier :
      heappush SearchNode_lt []
        {| f_score := 0; g_score := 0; state := initial_state; path := [] |}
      = Ok frontier →
      reachable self max_depth initial_state w0 frontier ∅ w0 []
  | reachable_skip frontier explored w log n frontier' w' :
      reachable self max_depth initial_state w0 frontier explored w log →
      frontier ≠ [] →
      search_step self max_depth frontier explored w
      = Ok (Skipped n frontier', w') →
      reachable self max_depth initial_state w0 frontier' explored w' log
  | reachable_expand frontier explored w log n layout frontier' explored' w' :
      reachable self max_depth initial_state w0 frontier explored w log →
      frontier ≠ [] →
      search_step self max_depth frontier explored w
      = Ok (Expanded n frontier' explored', w') →
      store w !! board (state n) = Some layout →
      reachable self max_depth initial_state w0 frontier' explored' w'
                (layout :: log).

(** * The capture rule, declaratively *)

(** Next to [(row, col)] in direction [(dx, dy)] lie [n >= 1] pieces that
    are not [p]'s, followed on the board by one of [p]'s pieces. *)
Definition run_along (a : list Z) (row col dx dy p n : Z) : Prop :=
  1 ≤ n
  ∧ (∀ k, 1 ≤ k ≤ n → opponent_at a p (row + k * dx, col + k * dy))
  ∧ 0 ≤ row + (n + 1) * dx < 8 ∧ 0 ≤ col + (n + 1) * dy < 8
  ∧ cell a (row + (n + 1) * dx) (col + (n + 1) * dy) = p.

(** [(x, y)] lies in a run that a move of [p] at [(row, col)] captures. *)
Definition captured_by (a : list Z) (row col p x y : Z) : Prop :=
  ∃ dx dy n k,
    (dx, dy) ∈ directions ∧ run_along a row col dx dy p n
    ∧ 1 ≤ k ≤ n ∧ x = row + k * dx ∧ y = col + k * dy.

(** * The first move on a node's path *)

(** The path of a node of a search for [self] that started on cells [a0]:
    empty only for the root, otherwise headed by a move that is legal for
    the searching player on [a0]. *)
Definition path_ok (self : OthelloAI) (a0 : list Z) (w : world)
    (n : SearchNode) : Prop :=
  match path n with
  | [] => g_score n = 0 ∧ store w !! board (state n) = Some a0
  | m :: _ => valid_cells a0 m.1 m.2 (player self) = true
  end.

(** A board on which Black's only legal move, (0,0), captures White's last
    piece, and a world that holds it. *)
Definition last_capture_cells : list Z :=
  <[idx 0 2 := 1]> (<[idx 0 1 := -1]> (replicate 64 0)).
Definition last_capture_world : world :=
  {| store := [last_capture_cells]; trace := [] |}.

(** * The heap order of the frontier *)

(** Every item is at least as large as its parent, by [f_score]. *)
Definition heap_ordered (heap : list SearchNode) : Prop :=
  ∀ i x y, (0 < i)%nat → heap !! i = Some x →
           heap !! ((i - 1) / 2)%nat = Some y → f_score y ≤ f_score x.

(** * The passes of the search loop, one by one *)

(** A state at the head of [while frontier]: the frontier, the explored
    set and the world, with the layouts expanded so far, most recent
    first. *)
Definition loop_state : Type :=
  list SearchNode * gset (list Z) * world * list (list Z).

(** The state in which [a_star_search] enters the loop. *)
Definition start_state (initial_state : OthelloState) (w0 : world)
    : loop_state :=
  ([{| f_score := 0; g_score := 0; state := initial_state; path := [] |}],
   ∅, w0, []).

(** The state after [k] more passes through the body of the loop, when
    none of them returns and the frontier does not run empty before. *)
Fixpoint loop_passes (k : nat) (self : OthelloAI) (max_depth : Z)
    (st : loop_state) : option loop_state :=
  match k with
  | O => Some st
  | S k' =>
      let '(frontier, explored, w, log) := st in
      match frontier with
      | [] => None
      | _ :: _ =>
          match search_step self max_depth frontier explored w with
          | Ok (Skipped _ frontier', w') =>
              loop_passes k' self max_depth (frontier', explored, w', log)
          | Ok (Expanded n frontier' explored', w') =>
              layout ← store w !! board (state n);
              loop_passes k' self max_depth
                (frontier', explored', w', layout :: log)
          | _ => None
          end
      end
  end.

(** A board on which two orders of Black's moves (0,2) and (2,2), with
    White's only reply (4,2) in between, lead to the same layout, and a
    world that holds it. *)
Definition transposition_cells : list Z :=
  <[idx 4 1 := 1]> (<[idx 4 0 := -1]> (<[idx 2 1 := -1]> (<[idx 2 0 := 1]>
    (<[idx 0 1 := -1]> (<[idx 0 0 := 1]> (replicate 64 0)))))).
Definition transposition_world : world :=
  {| store := [transposition_cells]; trace := [] |}.

(** The node of the search for Black on that board that reaches the common
    layout by the second of the two orders. *)
Definition transposition_node : SearchNode :=
  {| f_score := 11; g_score := 3; state := {| board := 6 |};
     path := [(0, 2)] |}.
(** * Lemmas: the computation monad *)


Lemma wp_run {A} (m : M A) w Q :
  wp m w Q ↔ ∃ a w', m w = Ok (a, w') ∧ Q a w'.
Proof.
  unfold wp. split.
  - destruct (m w) as [[a w']| |]; [eauto | done | done].
  - intros (a & w' & -> & HQ). done.
Qed.

Lemma run_spec {A} (m : M A) w Q :
  wp m w Q → ∃ a w', m w = Ok (a, w') ∧ Q a w'.
Proof. apply wp_run. Qed.

Lemma wp_ret {A} (a : A) w Q : Q a w → wp (mret a) w Q.
Proof. done. Qed.

Lemma wp_bind {A B} (m : M A) (f : A → M B) w Q :
  wp m w (λ a w', wp (f a) w' Q) → wp (m ≫= f) w Q.
Proof.
  unfold wp, mbind, M_bind. destruct (m w) as [[a w']| |]; done.
Qed.

Lemma wp_bind_inv {A B} (m : M A) (f : A → M B) w Q :
  wp (m ≫= f) w Q → wp m w (λ a w', wp (f a) w' Q).
Proof.
  unfold wp, mbind, M_bind. destruct (m w) as [[a w']| |]; done.
Qed.

Lemma wp_mono {A} (m : M A) w (Q Q' : A → world → Prop) :
  wp m w Q → (∀ a w', Q a w' → Q' a w') → wp m w Q'.
Proof.
  unfold wp. destruct (m w) as [[a w']| |]; [auto | done | done].
Qed.

Lemma wp_and {A} (m : M A) w (Q Q' : A → world → Prop) :
  wp m w Q → wp m w Q' → wp m w (λ a w', Q a w' ∧ Q' a w').
Proof.
  unfold wp. destruct (m w) as [[a w']| |]; [auto | done | done].
Qed.

Lemma wp_lift {A} (o : outcome A) a w Q : o = Ok a → Q a w → wp (lift o) w Q.
Proof. intros -> HQ. done. Qed.



(** Call a function whose specification is [lem], inside a bind. *)
Ltac wp_call lem :=
  first [apply wp_bind | idtac]; eapply wp_mono; [eapply lem | cbv beta].

Lemma extends_refl w : extends w w.
Proof. exists []. by split. Qed.

Lemma extends_trans w1 w2 w3 : extends w1 w2 → extends w2 w3 → extends w1 w3.
Proof.
  intros (t1 & E1 & F1) (t2 & E2 & F2). exists (t2 ++ t1). split.
  - by rewrite E2, E1, app_assoc.
  - by apply Forall_app.
Qed.

Global Hint Resolve extends_refl : core.


Lemma reads_only_refl w : reads_only w w.
Proof. by split. Qed.

Lemma reads_only_trans w1 w2 w3 :
  reads_only w1 w2 → reads_only w2 w3 → reads_only w1 w3.
Proof.
  intros [S1 E1] [S2 E2]. split; [congruence | by eapply extends_trans].
Qed.

Global Hint Resolve reads_only_refl : core.


Lemma on_board_spec x y : on_board x y = true ↔ (0 ≤ x < 8 ∧ 0 ≤ y < 8).
Proof.
  unfold on_board. rewrite andb_true_iff, !bool_decide_eq_true. done.
Qed.

Lemma np_index_on_board i : 0 ≤ i < 8 → np_index i = Ok (Z.to_nat i).
Proof. intros H. unfold np_index. by rewrite decide_True. Qed.

Lemma idx_lt x y : 0 ≤ x < 8 → 0 ≤ y < 8 → (idx x y < 64)%nat.
Proof. unfold idx. lia. Qed.

Lemma idx_inj x y x' y' :
  0 ≤ x < 8 → 0 ≤ y < 8 → 0 ≤ x' < 8 → 0 ≤ y' < 8 →
  idx x y = idx x' y' → x = x' ∧ y = y'.
Proof. unfold idx. lia. Qed.

Lemma lookup_cell (a : ndarray) x y :
  length a = 64%nat → 0 ≤ x < 8 → 0 ≤ y < 8 → a !! idx x y = Some (cell a x y).
Proof.
  intros Hlen Hx Hy. unfold cell.
  destruct (lookup_lt_is_Some_2 a (idx x y)) as [v Hv].
  - rewrite Hlen. by apply idx_lt.
  - by rewrite Hv.
Qed.

Lemma wp_log_access b x y w (Q : () → world → Prop) :
  Q () {| store := store w; trace := (b, x, y) :: trace w |} →
  wp (log_access b x y) w Q.
Proof. done. Qed.

Lemma wp_load b w a (Q : list Z → world → Prop) :
  store w !! b = Some a → Q a w → wp (load b) w Q.
Proof. intros Hb HQ. unfold wp, load. by rewrite Hb. Qed.

Lemma wp_save b a w (Q : () → world → Prop) :
  (b < length (store w))%nat →
  Q () {| store := <[b := a]> (store w); trace := trace w |} →
  wp (save b a) w Q.
Proof. intros Hb HQ. unfold wp, save. by rewrite decide_True. Qed.

Lemma wp_alloc a w (Q : nat → world → Prop) :
  Q (length (store w)) {| store := store w ++ [a]; trace := trace w |} →
  wp (alloc a) w Q.
Proof. done. Qed.

Lemma extends_log b x y w :
  0 ≤ x < 8 → 0 ≤ y < 8 →
  extends w {| store := store w; trace := (b, x, y) :: trace w |}.
Proof.
  intros Hx Hy. exists [(b, x, y)]. split; [done|].
  constructor; [by split | constructor].
Qed.

Lemma board_get_spec b x y w a :
  store w !! b = Some a → length a = 64%nat → 0 ≤ x < 8 → 0 ≤ y < 8 →
  wp (board_get b x y) w (λ v w', v = cell a x y ∧ reads_only w w').
Proof.
  intros Hb Hlen Hx Hy. unfold board_get.
  apply wp_bind, wp_log_access.
  apply wp_bind, (wp_lift _ _ _ _ (np_index_on_board x Hx)).
  apply wp_bind, (wp_lift _ _ _ _ (np_index_on_board y Hy)).
  apply wp_bind. eapply wp_load; [done|].
  fold (idx x y). rewrite (lookup_cell a x y) by done.
  apply wp_ret. split; [done|]. split; [done|]. by apply extends_log.
Qed.

Lemma board_set_spec b x y v w a :
  store w !! b = Some a → length a = 64%nat → 0 ≤ x < 8 → 0 ≤ y < 8 →
  wp (board_set b x y v) w (λ _ w',
    store w' = <[b := <[idx x y := v]> a]> (store w) ∧ extends w w').
Proof.
  intros Hb Hlen Hx Hy. unfold board_set.
  apply wp_bind, wp_log_access.
  apply wp_bind, (wp_lift _ _ _ _ (np_index_on_board x Hx)).
  apply wp_bind, (wp_lift _ _ _ _ (np_index_on_board y Hy)).
  apply wp_bind. eapply wp_load; [done|].
  fold (idx x y). rewrite decide_True by (rewrite Hlen; by apply idx_lt).
  apply wp_save; [by eapply lookup_lt_Some|].
  split; [done|]. by apply extends_log.
Qed.

(** * Lemmas: loops *)

Lemma for_fold_spec {A S} (l : list A) (body : A → S → M S) (f : S → A → S) w s :
  (∀ x s w1, x ∈ l → reads_only w w1 →
     wp (body x s) w1 (λ s' w2, s' = f s x ∧ reads_only w1 w2)) →
  wp (for_fold l body s) w (λ s' w', s' = foldl f s l ∧ reads_only w w').
Proof.
  revert s w. induction l as [|x l IH]; intros s w Hbody; cbn [for_fold foldl].
  - by apply wp_ret.
  - wp_call Hbody; [by left | done |].
    intros s' w1 [-> Hro]. eapply wp_mono.
    + apply IH. intros y s2 w2 Hy Hro2. eapply wp_mono.
      * apply Hbody; [by right | by eapply reads_only_trans].
      * cbv beta. intros ? ? [-> ?]. done.
    + cbv beta. intros ? ? [-> ?]. split; [done | by eapply reads_only_trans].
Qed.

Lemma foldl_pairs {A B S} (f : S → A * B → S) (l1 : list A) (l2 : list B) s :
  foldl (λ s i, foldl (λ s j, f s (i, j)) s l2) s l1
  = foldl f s (i ← l1; j ← l2; [(i, j)]).
Proof.
  revert s. induction l1 as [|i l1 IH]; intros s; [done|].
  cbn [foldl mbind list_bind]. rewrite foldl_app, <- IH. f_equal.
  clear. revert s. induction l2 as [|j l2 IH]; intros s; [done|].
  cbn. by rewrite IH.
Qed.

Lemma foldl_snoc_filter {A} (P : A → Prop) `{!∀ x, Decision (P x)}
    (t : A → bool) (l acc : list A) :
  (∀ x, t x = true ↔ P x) →
  foldl (λ acc x, if t x then acc ++ [x] else acc) acc l = acc ++ filter P l.
Proof.
  intros Ht. revert acc. induction l as [|x l IH]; intros acc; cbn [foldl].
  - by rewrite app_nil_r.
  - rewrite IH. destruct (t x) eqn:E.
    + rewrite filter_cons_True by (by apply Ht). by rewrite <- app_assoc.
    + rewrite filter_cons_False; [done|]. rewrite <- Ht. congruence.
Qed.

(** * Lemmas: scans along a direction *)

Lemma direction_cases dx dy :
  (dx, dy) ∈ directions →
  (dx = -1 ∨ dx = 0 ∨ dx = 1) ∧ (dy = -1 ∨ dy = 0 ∨ dy = 1) ∧ (dx ≠ 0 ∨ dy ≠ 0).
Proof.
  unfold directions. rewrite !elem_of_cons, elem_of_nil.
  intros H. repeat (destruct H as [H|H]; [inversion H; lia|]). done.
Qed.

Lemma remaining_on_board dx dy x y :
  (dx, dy) ∈ directions → on_board x y = true → 1 ≤ remaining dx dy x y ≤ 8.
Proof.
  intros Hd%direction_cases Hb%on_board_spec. unfold remaining.
  repeat case_decide; lia.
Qed.

Lemma remaining_step dx dy x y :
  (dx, dy) ∈ directions →
  remaining dx dy (x + dx) (y + dy) = remaining dx dy x y - 1.
Proof.
  intros Hd%direction_cases. unfold remaining. repeat case_decide; lia.
Qed.


Lemma enough_fuel_start dx dy x y :
  (dx, dy) ∈ directions → enough_fuel scan_fuel dx dy x y.
Proof.
  intros Hd. split; [unfold scan_fuel; lia|].
  intros Hb. pose proof (remaining_on_board dx dy x y Hd Hb).
  unfold scan_fuel. lia.
Qed.

Lemma enough_fuel_step fuel dx dy x y :
  (dx, dy) ∈ directions → on_board x y = true →
  enough_fuel (S fuel) dx dy x y → enough_fuel fuel dx dy (x + dx) (y + dy).
Proof.
  intros Hd Hb [_ Hf]. specialize (Hf Hb).
  pose proof (remaining_on_board dx dy x y Hd Hb). split; [lia|].
  intros _. rewrite remaining_step by done. lia.
Qed.

Section board_specs.
Context (self : OthelloState) (a : list Z).
Context (Hlen : length a = 64%nat).

Lemma would_flip_loop_spec fuel w x y dx dy p tf :
  store w !! board self = Some a →
  (dx, dy) ∈ directions → enough_fuel fuel dx dy x y →
  wp (would_flip_loop fuel self x y dx dy p tf) w (λ r w',
    r = bool_decide (0 < length (default [] (ray fuel a x y dx dy p tf)))%nat
    ∧ reads_only w w').
Proof.
  intros Hb Hd. revert w x y tf Hb.
  induction fuel as [|fuel IH]; intros w x y tf Hb Hf; [destruct Hf; lia|].
  cbn [would_flip_loop ray]. destruct (on_board x y) eqn:Hon.
  - apply on_board_spec in Hon as Hxy. destruct Hxy as [Hx Hy].
    wp_call board_get_spec; [done..|]. intros v w1 [-> Hro1].
    destruct (decide (cell a x y = 0)); [by apply wp_ret|].
    wp_call board_get_spec; [by rewrite (proj1 Hro1) | done..|].
    intros v w2 [-> Hro2].
    assert (reads_only w w2) as Hro by (by eapply reads_only_trans).
    destruct (decide (cell a x y = p)); [by apply wp_ret|].
    eapply wp_mono.
    + apply IH; [by rewrite (proj1 Hro) | by apply enough_fuel_step].
    + cbv beta. intros r w3 [-> Hro3]. split; [done|].
      by eapply reads_only_trans.
  - by apply wp_ret.
Qed.

Lemma _would_flip_spec w row col dx dy p :
  store w !! board self = Some a → (dx, dy) ∈ directions →
  wp (_would_flip self row col dx dy p) w (λ r w',
    r = would_flip_cells a row col dx dy p ∧ reads_only w w').
Proof.
  intros Hb Hd. unfold _would_flip, would_flip_cells, captured.
  apply would_flip_loop_spec; [done..|]. by apply enough_fuel_start.
Qed.

Lemma any_would_flip_spec w row col p ds :
  store w !! board self = Some a → ds ⊆ directions →
  wp (any_would_flip self row col p ds) w (λ r w',
    r = existsb (λ d, would_flip_cells a row col d.1 d.2 p) ds
    ∧ reads_only w w').
Proof.
  revert w. induction ds as [|[dx dy] ds IH]; intros w Hb Hsub;
    cbn [any_would_flip existsb fst snd].
  - by apply wp_ret.
  - wp_call _would_flip_spec; [done | apply Hsub; by left |].
    intros r w1 [-> Hro1]. destruct (would_flip_cells a row col dx dy p).
    + by apply wp_ret.
    + eapply wp_mono.
      * apply IH; [by rewrite (proj1 Hro1)|]. intros d Hin. apply Hsub. by right.
      * cbv beta. intros r w2 [-> Hro2]. split; [done|].
        by eapply reads_only_trans.
Qed.

Lemma is_valid_move_spec w row col p :
  store w !! board self = Some a → 0 ≤ row < 8 → 0 ≤ col < 8 →
  wp (is_valid_move self row col p) w (λ r w',
    r = valid_cells a row col p ∧ reads_only w w').
Proof.
  intros Hb Hr Hc. unfold is_valid_move, valid_cells.
  wp_call board_get_spec; [done..|]. intros v w1 [-> Hro1].
  destruct (decide (cell a row col ≠ 0)) as [Hne|He].
  - apply wp_ret. by rewrite bool_decide_eq_false_2.
  - rewrite bool_decide_eq_true_2 by (by destruct (decide (cell a row col = 0))).
    eapply wp_mono.
    + apply any_would_flip_spec; [by rewrite (proj1 Hro1) | done].
    + cbv beta. intros r w2 [-> Hro2]. split; [done|].
      by eapply reads_only_trans.
Qed.

Lemma get_valid_moves_spec w p :
  store w !! board self = Some a →
  wp (get_valid_moves self p) w (λ r w',
    r = valid_moves_cells a p ∧ reads_only w w').
Proof.
  intros Hb. unfold get_valid_moves, valid_moves_cells, all_cells.
  eapply wp_mono.
  - apply (for_fold_spec range8 _
      (λ acc i, foldl (λ acc j, if valid_cells a i j p then acc ++ [(i, j)]
                                else acc) acc range8)).
    intros i acc w1 Hi Hro1. cbv beta.
    apply (for_fold_spec range8 _
      (λ acc j, if valid_cells a i j p then acc ++ [(i, j)] else acc)).
    intros j acc' w2 Hj Hro2. cbv beta.
    assert (0 ≤ i < 8 ∧ 0 ≤ j < 8) as [Hi' Hj'].
    { revert Hi Hj. unfold range8. rewrite !elem_of_cons, !elem_of_nil. lia. }
    wp_call is_valid_move_spec;
      [by rewrite (proj1 Hro2), (proj1 Hro1) | done..|].
    intros r w3 [-> Hro3]. destruct (valid_cells a i j p); by apply wp_ret.
  - cbv beta. intros r w' [-> Hro]. split; [|done].
    rewrite (foldl_pairs (λ acc m, if valid_cells a m.1 m.2 p
                                   then acc ++ [m] else acc)).
    by rewrite (foldl_snoc_filter (λ m, valid_cells a m.1 m.2 p = true)).
Qed.

Lemma evaluate_spec w :
  store w !! board self = Some a →
  wp (evaluate self) w (λ r w', r = evaluate_cells a ∧ reads_only w w').
Proof.
  intros Hb. unfold evaluate, evaluate_cells, all_cells.
  eapply wp_mono.
  - apply (for_fold_spec range8 _
      (λ value i, foldl (λ value j,
         wrap64 (value + wrap64 (cell a i j * mult_at i j))) value range8)).
    intros i acc w1 Hi Hro1. cbv beta.
    apply (for_fold_spec range8 _
      (λ value j, wrap64 (value + wrap64 (cell a i j * mult_at i j)))).
    intros j acc' w2 Hj Hro2. cbv beta.
    assert (0 ≤ i < 8 ∧ 0 ≤ j < 8) as [Hi' Hj'].
    { revert Hi Hj. unfold range8. rewrite !elem_of_cons, !elem_of_nil. lia. }
    wp_call board_get_spec;
      [by rewrite (proj1 Hro2), (proj1 Hro1) | done..|].
    intros r w3 [-> Hro3]. by apply wp_ret.
  - cbv beta. intros r w' [-> Hro]. split; [|done].
    by rewrite (foldl_pairs (λ value m,
      wrap64 (value + wrap64 (cell a m.1 m.2 * mult_at m.1 m.2)))).
Qed.

End board_specs.

(** * Lemmas: captures and in-place flips *)

Lemma ray_opponent fuel a x y dx dy p tf l :
  ray fuel a x y dx dy p tf = Some l →
  Forall (opponent_at a p) tf → Forall (opponent_at a p) l.
Proof.
  revert x y tf. induction fuel as [|fuel IH]; intros x y tf; cbn [ray]; [done|].
  destruct (on_board x y) eqn:Hon; [|done].
  apply on_board_spec in Hon as [Hx Hy].
  destruct (decide (cell a x y = 0)); [done|].
  destruct (decide (cell a x y = p)); [congruence|].
  intros Hray Htf. eapply IH; [done|].
  apply Forall_app. split; [done|]. constructor; [|constructor]. done.
Qed.

Lemma captured_opponent a row col dx dy p :
  Forall (opponent_at a p) (captured a row col dx dy p).
Proof.
  unfold captured.
  destruct (ray scan_fuel a (row + dx) (col + dy) dx dy p []) as [l|] eqn:E;
    [|constructor].
  eapply ray_opponent; [done | constructor].
Qed.

Lemma length_set_cells p l a : length (set_cells p l a) = length a.
Proof.
  revert a. induction l as [|m l IH]; intros a; [done|].
  cbn. unfold set_cells in IH. by rewrite IH, length_insert.
Qed.

Lemma insert_app_last {A} (l : list A) (x y : A) :
  <[length l := y]> (l ++ [x]) = l ++ [y].
Proof. by rewrite <- (Nat.add_0_r (length l)), insert_app_r. Qed.

Lemma for_each_set_spec b p l a w :
  store w !! b = Some a → length a = 64%nat →
  Forall (λ m, 0 ≤ m.1 < 8 ∧ 0 ≤ m.2 < 8) l →
  wp (for_each l (λ '(flip_x, flip_y), board_set b flip_x flip_y p)) w
     (λ _ w', store w' = <[b := set_cells p l a]> (store w) ∧ extends w w').
Proof.
  revert a w. induction l as [|[x y] l IH]; intros a w Hb Hlen Hl;
    cbn [for_each].
  - apply wp_ret. split; [|done]. by rewrite list_insert_id.
  - inversion Hl as [|? ? [Hx Hy] Hl']; subst.
    wp_call board_set_spec; [done..|]. intros _ w1 [Hst1 Hex1].
    eapply wp_mono.
    + apply (IH (<[idx x y := p]> a)); [|by rewrite length_insert | done].
      rewrite Hst1. apply list_lookup_insert_eq. by eapply lookup_lt_Some.
    + cbv beta. intros _ w2 [Hst2 Hex2]. split; [|by eapply extends_trans].
      rewrite Hst2, Hst1. by rewrite list_insert_insert_eq.
Qed.

Lemma opponent_on_board a p l :
  Forall (opponent_at a p) l → Forall (λ m, 0 ≤ m.1 < 8 ∧ 0 ≤ m.2 < 8) l.
Proof. intros H. eapply Forall_impl; [done|]. intros m (? & ? & _). done. Qed.

Lemma flip_direction_loop_spec self fuel a w x y dx dy p tf :
  store w !! board self = Some a → length a = 64%nat →
  (dx, dy) ∈ directions → enough_fuel fuel dx dy x y →
  Forall (opponent_at a p) tf →
  wp (flip_direction_loop fuel self x y dx dy p tf) w (λ _ w',
    store w' = <[board self :=
                   set_cells p (default [] (ray fuel a x y dx dy p tf)) a]>
                 (store w)
    ∧ extends w w').
Proof.
  intros Hb Hlen Hd. revert w x y tf Hb.
  induction fuel as [|fuel IH]; intros w x y tf Hb Hf Htf; [destruct Hf; lia|].
  cbn [flip_direction_loop ray]. destruct (on_board x y) eqn:Hon.
  - apply on_board_spec in Hon as Hxy. destruct Hxy as [Hx Hy].
    wp_call board_get_spec; [done..|]. intros v w1 [-> Hro1].
    destruct (decide (cell a x y = 0)).
    { apply wp_ret. cbn. rewrite list_insert_id by done.
      split; [apply Hro1 | apply Hro1]. }
    wp_call board_get_spec; [by rewrite (proj1 Hro1) | done..|].
    intros v w2 [-> Hro2].
    assert (reads_only w w2) as [Hst Hex] by (by eapply reads_only_trans).
    destruct (decide (cell a x y = p)).
    + eapply wp_mono.
      * apply (for_each_set_spec _ _ _ a);
          [by rewrite Hst | done | by eapply opponent_on_board].
      * cbv beta. intros _ w3 [Hst3 Hex3]. cbn [default].
        split; [by rewrite Hst3, Hst | by eapply extends_trans].
    + eapply wp_mono.
      * apply IH; [by rewrite Hst | by apply enough_fuel_step |].
        apply Forall_app. split; [done|]. constructor; [done | constructor].
      * cbv beta. intros _ w3 [Hst3 Hex3].
        split; [by rewrite Hst3, Hst | by eapply extends_trans].
  - apply wp_ret. cbn. by rewrite list_insert_id.
Qed.

Lemma _flip_direction_spec self a w row col dx dy p :
  store w !! board self = Some a → length a = 64%nat →
  (dx, dy) ∈ directions →
  wp (_flip_direction self row col dx dy p) w (λ _ w',
    store w' = <[board self := set_cells p (captured a row col dx dy p) a]>
                 (store w)
    ∧ extends w w').
Proof.
  intros Hb Hlen Hd. unfold _flip_direction, captured.
  apply flip_direction_loop_spec; [done..| by apply enough_fuel_start | done].
Qed.

Lemma flip_directions_spec self row col p ds a w :
  store w !! board self = Some a → length a = 64%nat → ds ⊆ directions →
  wp (for_each ds (λ '(dx, dy), _flip_direction self row col dx dy p)) w
     (λ _ w', store w' = <[board self := flip_cells row col p ds a]> (store w)
              ∧ extends w w').
Proof.
  revert a w. induction ds as [|[dx dy] ds IH]; intros a w Hb Hlen Hsub;
    cbn [for_each].
  - apply wp_ret. split; [|done]. by rewrite list_insert_id.
  - wp_call _flip_direction_spec; [done | done | apply Hsub; by left |].
    intros _ w1 [Hst1 Hex1]. eapply wp_mono.
    + apply (IH (set_cells p (captured a row col dx dy p) a)).
      * rewrite Hst1. apply list_lookup_insert_eq. by eapply lookup_lt_Some.
      * by rewrite length_set_cells.
      * intros d Hin. apply Hsub. by right.
    + cbv beta. intros _ w2 [Hst2 Hex2]. split; [|by eapply extends_trans].
      rewrite Hst2, Hst1. by rewrite list_insert_insert_eq.
Qed.

(** [make_move]: an illegal move returns [None] and leaves the store as it
    is; a legal one allocates one new array, which holds the cells of
    [make_move_cells], and returns a state on it. *)
Lemma make_move_spec self a w row col p :
  store w !! board self = Some a → length a = 64%nat →
  0 ≤ row < 8 → 0 ≤ col < 8 →
  wp (make_move self row col p) w (λ r w',
    extends w w' ∧
    if valid_cells a row col p
    then r = Some {| board := length (store w) |}
         ∧ store w' = store w ++ [make_move_cells a row col p]
    else r = None ∧ store w' = store w).
Proof.
  intros Hb Hlen Hr Hc. unfold make_move.
  wp_call is_valid_move_spec; [done..|]. intros v w1 [-> [Hst1 Hex1]].
  destruct (valid_cells a row col p); cbn [negb].
  2:{ apply wp_ret. done. }
  unfold board_copy. apply wp_bind, wp_bind.
  eapply wp_load; [by rewrite Hst1|]. apply wp_alloc.
  cbn [OthelloState_init]. apply wp_bind, wp_ret. cbn [board].
  rewrite Hst1.
  wp_call board_set_spec; [|done..|].
  { cbn [store]. by rewrite lookup_app_r, Nat.sub_diag by lia. }
  cbn [store]. intros _ w2 [Hst2 Hex2]. rewrite insert_app_last in Hst2.
  wp_call flip_directions_spec; [| by rewrite length_insert | done |].
  { cbn [board]. rewrite Hst2. by rewrite lookup_app_r, Nat.sub_diag by lia. }
  cbn [board]. intros _ w3 [Hst3 Hex3]. apply wp_ret.
  split.
  - eapply extends_trans; [|done]. eapply extends_trans; [|done].
    destruct Hex1 as (t & Ht & HF). exists t. done.
  - split; [done|]. rewrite Hst3, Hst2. by rewrite insert_app_last.
Qed.

(** * Lemmas: cells after updates *)

Lemma cell_insert (a : list Z) i v x y :
  (i < length a)%nat →
  cell (<[i := v]> a) x y = if decide (i = idx x y) then v else cell a x y.
Proof.
  intros Hi. unfold cell. case_decide as E.
  - subst i. by rewrite list_lookup_insert_eq.
  - by rewrite list_lookup_insert_ne.
Qed.

Lemma cell_value_cell a x y : Forall cell_value a → cell_value (cell a x y).
Proof.
  intros Ha. unfold cell. destruct (a !! idx x y) as [v|] eqn:E; cbn.
  - eapply Forall_lookup_1; done.
  - right. by left.
Qed.

Lemma set_cells_cons p m l a :
  set_cells p (m :: l) a = set_cells p l (<[idx m.1 m.2 := p]> a).
Proof. done. Qed.

Lemma set_cells_keep p l a x y :
  length a = 64%nat → Forall (λ m, 0 ≤ m.1 < 8 ∧ 0 ≤ m.2 < 8) l →
  cell a x y = p → cell (set_cells p l a) x y = p.
Proof.
  revert a. induction l as [|m l IH]; intros a Hlen Hl Hc; [done|].
  inversion Hl as [|? ? [Hx Hy] Hl']; subst. rewrite set_cells_cons.
  apply IH; [by rewrite length_insert | done |].
  rewrite cell_insert by (rewrite Hlen; by apply idx_lt). by case_decide.
Qed.

Lemma set_cells_in p l a m :
  length a = 64%nat → Forall (λ m, 0 ≤ m.1 < 8 ∧ 0 ≤ m.2 < 8) l →
  m ∈ l → cell (set_cells p l a) m.1 m.2 = p.
Proof.
  revert a. induction l as [|m' l IH]; intros a Hlen Hl Hin.
  - by apply elem_of_nil in Hin.
  - inversion Hl as [|? ? [Hx Hy] Hl']; subst. rewrite set_cells_cons.
    apply elem_of_cons in Hin as [->|Hin].
    + apply set_cells_keep; [by rewrite length_insert | done |].
      rewrite cell_insert by (rewrite Hlen; by apply idx_lt).
      by rewrite decide_True.
    + apply IH; [by rewrite length_insert | done..].
Qed.

Lemma flip_cells_cons row col p d ds a :
  flip_cells row col p (d :: ds) a
  = flip_cells row col p ds (set_cells p (captured a row col d.1 d.2 p) a).
Proof. done. Qed.

Lemma length_flip_cells row col p ds a :
  length (flip_cells row col p ds a) = length a.
Proof.
  revert a. induction ds as [|d ds IH]; intros a; [done|].
  by rewrite flip_cells_cons, IH, length_set_cells.
Qed.

Lemma flip_cells_keep row col p ds a x y :
  length a = 64%nat → cell a x y = p →
  cell (flip_cells row col p ds a) x y = p.
Proof.
  revert a. induction ds as [|d ds IH]; intros a Hlen Hc; [done|].
  rewrite flip_cells_cons.
  apply IH; [by rewrite length_set_cells|].
  apply set_cells_keep; [done | | done].
  eapply opponent_on_board, captured_opponent.
Qed.

Lemma length_make_move_cells a row col p :
  length (make_move_cells a row col p) = length a.
Proof. unfold make_move_cells. by rewrite length_flip_cells, length_insert. Qed.

(** The target cell of a move holds the player's piece afterwards. *)
Lemma make_move_cells_target a row col p :
  length a = 64%nat → 0 ≤ row < 8 → 0 ≤ col < 8 →
  cell (make_move_cells a row col p) row col = p.
Proof.
  intros Hlen Hr Hc. unfold make_move_cells.
  apply flip_cells_keep; [by rewrite length_insert|].
  rewrite cell_insert by (rewrite Hlen; by apply idx_lt). by rewrite decide_True.
Qed.

(** A scan never looks back at the cell it started next to. *)
Lemma ray_insert_target fuel a row col v x y dx dy p tf k :
  length a = 64%nat → 0 ≤ row < 8 → 0 ≤ col < 8 →
  (dx, dy) ∈ directions → 1 ≤ k → x = row + k * dx → y = col + k * dy →
  ray fuel (<[idx row col := v]> a) x y dx dy p tf = ray fuel a x y dx dy p tf.
Proof.
  intros Hlen Hr Hc Hd. revert x y tf k.
  induction fuel as [|fuel IH]; intros x y tf k Hk Hx Hy; [done|].
  cbn [ray]. destruct (on_board x y) eqn:Hon; [|done].
  apply on_board_spec in Hon as [Hx' Hy'].
  assert (cell (<[idx row col := v]> a) x y = cell a x y) as ->.
  { rewrite cell_insert by (rewrite Hlen; by apply idx_lt).
    case_decide as E; [|done]. apply idx_inj in E as [E1 E2]; [|done..].
    apply direction_cases in Hd. nia. }
  destruct (decide (cell a x y = 0)); [done|].
  destruct (decide (cell a x y = p)); [done|].
  apply (IH _ _ _ (k + 1)); lia.
Qed.

Lemma captured_insert_target a row col v dx dy p :
  length a = 64%nat → 0 ≤ row < 8 → 0 ≤ col < 8 → (dx, dy) ∈ directions →
  captured (<[idx row col := v]> a) row col dx dy p = captured a row col dx dy p.
Proof.
  intros Hlen Hr Hc Hd. unfold captured.
  by rewrite (ray_insert_target _ _ _ _ _ _ _ _ _ _ _ 1) by (done || lia).
Qed.

(** What a scan returns starts with what it was given, followed by the
    position it started from if anything was added. *)
Lemma ray_prefix fuel a x y dx dy p tf l :
  ray fuel a x y dx dy p tf = Some l → l = tf ∨ ∃ l', l = tf ++ (x, y) :: l'.
Proof.
  revert x y tf. induction fuel as [|fuel IH]; intros x y tf; cbn [ray]; [done|].
  destruct (on_board x y); [|done].
  destruct (decide (cell a x y = 0)); [done|].
  destruct (decide (cell a x y = p)); [left; congruence|].
  intros [->|[l' ->]]%IH; right.
  - exists []. done.
  - eexists. by rewrite <- app_assoc.
Qed.

Lemma would_flip_cells_adjacent a row col dx dy p :
  would_flip_cells a row col dx dy p = true →
  (row + dx, col + dy) ∈ captured a row col dx dy p.
Proof.
  unfold would_flip_cells, captured. rewrite bool_decide_eq_true.
  destruct (ray _ _ _ _ _ _ _ _) as [l|] eqn:E; cbn; [|lia].
  apply ray_prefix in E as [->|[l' ->]]; cbn; [lia|]. intros _. by left.
Qed.

(** Once some direction would flip on [a], the piece next to the target in
    a direction that flips is the player's own after all directions were
    processed. *)
Lemma flip_cells_flips a row col p ds a1 :
  length a1 = 64%nat → ds ⊆ directions →
  (∀ d, d ∈ ds → captured a1 row col d.1 d.2 p = captured a row col d.1 d.2 p) →
  existsb (λ d, would_flip_cells a row col d.1 d.2 p) ds = true →
  ∃ d, d ∈ ds ∧ opponent_at a p (row + d.1, col + d.2)
       ∧ cell (flip_cells row col p ds a1) (row + d.1) (col + d.2) = p.
Proof.
  revert a1. induction ds as [|d ds IH]; intros a1 Hlen Hsub Hcap; [done|].
  cbn [existsb]. rewrite flip_cells_cons.
  destruct (would_flip_cells a row col d.1 d.2 p) eqn:Hw; cbn [orb].
  - intros _. exists d. apply would_flip_cells_adjacent in Hw.
    pose proof (captured_opponent a row col d.1 d.2 p) as Hopp.
    split; [by left|]. split.
    + eapply Forall_forall in Hopp; done.
    + apply flip_cells_keep; [by rewrite length_set_cells|].
      rewrite Hcap by (by left).
      apply (set_cells_in p _ a1 (row + d.1, col + d.2)); [done | | done].
      by eapply opponent_on_board.
  - intros Hex. rewrite Hcap by (by left).
    assert (captured a row col d.1 d.2 p = []) as ->.
    { revert Hw. unfold would_flip_cells. rewrite bool_decide_eq_false.
      destruct (captured a row col d.1 d.2 p); cbn; [done | lia]. }
    destruct (IH a1) as (d' & Hin & Hd'); [done | | | done |].
    + intros d' Hin. apply Hsub. by right.
    + intros d' Hin. apply Hcap. by right.
    + exists d'. split; [by right | done].
Qed.

Lemma make_move_cells_flips a row col p :
  length a = 64%nat → 0 ≤ row < 8 → 0 ≤ col < 8 →
  valid_cells a row col p = true →
  cell a row col = 0
  ∧ ∃ d, d ∈ directions ∧ opponent_at a p (row + d.1, col + d.2)
         ∧ cell (make_move_cells a row col p) (row + d.1) (col + d.2) = p.
Proof.
  intros Hlen Hr Hc. unfold valid_cells.
  rewrite andb_true_iff, bool_decide_eq_true. intros [H0 Hex].
  split; [done|]. unfold make_move_cells.
  apply flip_cells_flips; [by rewrite length_insert | done | | done].
  intros [dx dy] Hd. by apply captured_insert_target.
Qed.

(** * Lemmas: a move fills one empty cell *)

Lemma empties_cons v a :
  empties (v :: a) = ((if decide (v = 0%Z) then 1 else 0) + empties a)%nat.
Proof.
  unfold empties. rewrite filter_cons. by destruct (decide (v = 0)).
Qed.

Lemma empties_insert a i v old :
  a !! i = Some old →
  (empties (<[i := v]> a) + (if decide (old = 0%Z) then 1 else 0)
   = empties a + (if decide (v = 0%Z) then 1 else 0))%nat.
Proof.
  revert i. induction a as [|x a IH]; intros [|i] Hi; try done; cbn in Hi.
  - injection Hi as ->. change (<[0%nat := v]> (old :: a)) with (v :: a).
    rewrite !empties_cons. repeat case_decide; lia.
  - change (<[S i := v]> (x :: a)) with (x :: <[i := v]> a).
    rewrite !empties_cons. specialize (IH i Hi). repeat case_decide; lia.
Qed.

Lemma empties_set_cells p l a :
  p ≠ 0 → length a = 64%nat →
  Forall (λ m, 0 ≤ m.1 < 8 ∧ 0 ≤ m.2 < 8 ∧ cell a m.1 m.2 ≠ 0) l →
  empties (set_cells p l a) = empties a.
Proof.
  intros Hp. revert a. induction l as [|m l IH]; intros a Hlen Hl; [done|].
  inversion Hl as [|? ? (Hx & Hy & Hc) Hl']; subst. rewrite set_cells_cons.
  rewrite IH.
  - pose proof (empties_insert a (idx m.1 m.2) p (cell a m.1 m.2)
                  (lookup_cell a _ _ Hlen Hx Hy)) as E.
    rewrite !decide_False in E by done. lia.
  - by rewrite length_insert.
  - eapply Forall_impl; [exact Hl'|]. intros m' (Hx' & Hy' & Hc').
    split; [done|]. split; [done|].
    rewrite cell_insert by (rewrite Hlen; by apply idx_lt). by case_decide.
Qed.

Lemma opponent_nonzero a p l :
  Forall (opponent_at a p) l →
  Forall (λ m, 0 ≤ m.1 < 8 ∧ 0 ≤ m.2 < 8 ∧ cell a m.1 m.2 ≠ 0) l.
Proof. intros H. eapply Forall_impl; [done|]. intros m (? & ? & ? & _). done. Qed.

Lemma empties_flip_cells row col p ds a :
  p ≠ 0 → length a = 64%nat → empties (flip_cells row col p ds a) = empties a.
Proof.
  intros Hp. revert a. induction ds as [|d ds IH]; intros a Hlen; [done|].
  rewrite flip_cells_cons, IH by (by rewrite length_set_cells).
  apply empties_set_cells; [done..|].
  eapply opponent_nonzero, captured_opponent.
Qed.

Lemma empties_make_move_cells a row col p :
  p ≠ 0 → length a = 64%nat → 0 ≤ row < 8 → 0 ≤ col < 8 →
  cell a row col = 0 →
  S (empties (make_move_cells a row col p)) = empties a.
Proof.
  intros Hp Hlen Hr Hc H0. unfold make_move_cells.
  rewrite empties_flip_cells by (done || by rewrite length_insert).
  pose proof (empties_insert a (idx row col) p (cell a row col)
                (lookup_cell a _ _ Hlen Hr Hc)) as E.
  rewrite H0, decide_True, decide_False in E by done. lia.
Qed.

Lemma Forall_set_cells (P : Z → Prop) p l a :
  P p → Forall P a → Forall P (set_cells p l a).
Proof.
  intros Hp. revert a. induction l as [|m l IH]; intros a Ha; [done|].
  rewrite set_cells_cons. apply IH.
  destruct (decide (idx m.1 m.2 < length a)%nat).
  - by apply Forall_insert.
  - by rewrite list_insert_ge by lia.
Qed.

Lemma Forall_flip_cells (P : Z → Prop) row col p ds a :
  P p → Forall P a → Forall P (flip_cells row col p ds a).
Proof.
  intros Hp. revert a. induction ds as [|d ds IH]; intros a Ha; [done|].
  rewrite flip_cells_cons. by apply IH, Forall_set_cells.
Qed.

Lemma wf_make_move_cells a row col p :
  is_player p → wf_board a → wf_board (make_move_cells a row col p).
Proof.
  intros Hp [Hlen Ha]. split; [by rewrite length_make_move_cells|].
  assert (cell_value p) as Hcv by (unfold cell_value; destruct Hp; lia).
  unfold make_move_cells. apply Forall_flip_cells; [done|].
  destruct (decide (idx row col < length a)%nat).
  - by apply Forall_insert.
  - by rewrite list_insert_ge by lia.
Qed.

Lemma valid_cells_empty a row col p :
  valid_cells a row col p = true → cell a row col = 0.
Proof.
  unfold valid_cells. rewrite andb_true_iff, bool_decide_eq_true. by intros [? _].
Qed.

Lemma empties_pos a x y :
  length a = 64%nat → 0 ≤ x < 8 → 0 ≤ y < 8 → cell a x y = 0 →
  (0 < empties a)%nat.
Proof.
  intros Hlen Hx Hy H0. pose proof (lookup_cell a x y Hlen Hx Hy) as Hl.
  rewrite H0 in Hl. apply list_elem_of_lookup_2 in Hl.
  assert (0 ∈ filter (λ v, v = 0) a) as Hf by (by apply list_elem_of_filter).
  unfold empties.
  destruct (filter _ a); [by apply elem_of_nil in Hf | cbn; lia].
Qed.

(** * Lemmas: the evaluator *)

Lemma wrap64_small z : - 2 ^ 63 ≤ z < 2 ^ 63 → wrap64 z = z.
Proof.
  intros Hz. unfold wrap64.
  change (2 ^ 64) with (2 * 2 ^ 63) in *. rewrite Z.mod_small; lia.
Qed.

Lemma mult_at_weight i j : mult_at i j = positional_weight i j.
Proof.
  unfold mult_at, positional_weight, in_0_7, is_corner, is_edge,
    corner_weight, edge_weight.
  repeat case_bool_decide; repeat case_decide; cbn; lia.
Qed.

Lemma positional_weight_bounds i j : 1 ≤ positional_weight i j ≤ 4.
Proof. unfold positional_weight. repeat case_decide; lia. Qed.

Lemma foldl_evaluate_sum a l value :
  Forall cell_value a →
  Z.abs value + 4 * Z.of_nat (length l) ≤ 2 ^ 62 →
  foldl (λ value m, wrap64 (value + wrap64 (cell a m.1 m.2 * mult_at m.1 m.2)))
        value l
  = value + foldr Z.add 0
              (map (λ m, cell a m.1 m.2 * positional_weight m.1 m.2) l).
Proof.
  intros Ha. revert value. induction l as [|m l IH]; intros value Hv.
  - cbn. lia.
  - cbn [foldl map foldr]. cbn [length] in Hv.
    pose proof (cell_value_cell a m.1 m.2 Ha) as Hc.
    pose proof (positional_weight_bounds m.1 m.2) as Hw.
    rewrite mult_at_weight.
    set (t := cell a m.1 m.2 * positional_weight m.1 m.2) in *.
    assert (-4 ≤ t ≤ 4) as Ht by (unfold cell_value in Hc; nia).
    assert (2 ^ 63 = 2 * 2 ^ 62) as E63 by done.
    assert (0 < 2 ^ 62) as E62 by done.
    rewrite (wrap64_small t) by lia.
    rewrite (wrap64_small (value + t)) by lia.
    rewrite IH by lia. lia.
Qed.

Lemma evaluate_cells_sum a :
  Forall cell_value a → evaluate_cells a = weighted_sum a.
Proof.
  intros Ha. unfold evaluate_cells, weighted_sum.
  rewrite foldl_evaluate_sum; [lia | done |].
  change (length all_cells) with 64%nat.
  assert (2 ^ 62 = 4611686018427387904) as -> by done. lia.
Qed.

Lemma cell_opp a x y : cell (Z.opp <$> a) x y = - cell a x y.
Proof.
  unfold cell. rewrite list_lookup_fmap. by destruct (a !! idx x y).
Qed.

Lemma weighted_sum_opp a : weighted_sum (Z.opp <$> a) = - weighted_sum a.
Proof.
  unfold weighted_sum. induction all_cells as [|m l IH]; [done|].
  cbn [map foldr]. rewrite IH, cell_opp. lia.
Qed.

Lemma wf_board_opp a : wf_board a → wf_board (Z.opp <$> a).
Proof.
  intros [Hlen Ha]. split; [by rewrite length_fmap|].
  apply Forall_fmap. eapply Forall_impl; [done|].
  intros v. unfold cell_value. cbn. lia.
Qed.

Lemma weighted_sum_bounds a : Forall cell_value a → -256 ≤ weighted_sum a ≤ 256.
Proof.
  intros Ha. unfold weighted_sum.
  assert (∀ l : list (Z * Z),
    Z.abs (foldr Z.add 0
             (map (λ m, cell a m.1 m.2 * positional_weight m.1 m.2) l))
    ≤ 4 * Z.of_nat (length l)) as H.
  { induction l as [|m l IH]; [done|]. cbn [map foldr length].
    pose proof (cell_value_cell a m.1 m.2 Ha) as Hc.
    pose proof (positional_weight_bounds m.1 m.2) as Hw.
    unfold cell_value in Hc. nia. }
  specialize (H all_cells). change (length all_cells) with 64%nat in H. lia.
Qed.

(** * Lemmas: the heap

    [heappush] and [heappop] never raise on the heaps the search builds,
    they keep the items of the heap, and [heappop] returns the item at the
    root. *)

Lemma insert_Permutation {A} (l : list A) i x y :
  l !! i = Some y → <[i := x]> l ≡ₚ x :: delete i l.
Proof.
  revert i. induction l as [|z l IH]; intros [|i] Hi; try done.
  cbn in *. rewrite (IH i Hi). apply perm_swap.
Qed.

Lemma swap_Permutation {A} (l : list A) i j x y :
  l !! i = Some x → l !! j = Some y → <[i := y]> (<[j := x]> l) ≡ₚ l.
Proof.
  revert i j. induction l as [|z l IH]; intros [|i] [|j] Hi Hj; try done;
    cbn in *.
  - by simplify_eq.
  - simplify_eq. rewrite (insert_Permutation l j x y Hj).
    rewrite (delete_Permutation l j y Hj) at 2. apply perm_swap.
  - simplify_eq. rewrite (insert_Permutation l i y x Hi).
    rewrite (delete_Permutation l i x Hi) at 2. apply perm_swap.
  - by rewrite (IH i j).
Qed.

(** Moving the hole of a sift from [i] to [j]. *)
Lemma hole_move {A} (l : list A) i j x c :
  (i < length l)%nat → l !! j = Some c →
  <[j := x]> (<[i := c]> l) ≡ₚ <[i := x]> l.
Proof.
  intros Hi Hj. destruct (decide (i = j)) as [->|Hne].
  - by rewrite list_insert_insert_eq.
  - rewrite <- (list_insert_insert_eq l i c x).
    rewrite list_insert_insert_ne by done.
    apply swap_Permutation.
    + by rewrite list_lookup_insert_eq.
    + by rewrite list_lookup_insert_ne.
Qed.

Section heapq_lemmas.
Context {A : Type} (lt : A → A → bool).

Lemma list_get_Some (l : list A) i x : l !! i = Some x → list_get l i = Ok x.
Proof. intros H. unfold list_get. by rewrite H. Qed.

Lemma list_set_lt (l : list A) i x :
  (i < length l)%nat → list_set l i x = Ok (<[i := x]> l).
Proof. intros H. unfold list_set. by rewrite decide_True. Qed.

Lemma siftdown_loop_ok fuel (heap : list A) startpos pos newitem :
  (pos < length heap)%nat → (pos < fuel)%nat →
  ∃ heap', siftdown_loop lt fuel heap startpos pos newitem = Ok heap'
           ∧ heap' ≡ₚ <[pos := newitem]> heap.
Proof.
  revert heap pos. induction fuel as [|fuel IH]; intros heap pos Hpos Hfuel;
    [lia|].
  cbn [siftdown_loop]. case_decide as Hlt.
  - assert ((pos - 1) / 2 < pos)%nat as Hpar.
    { apply Nat.Div0.div_lt_upper_bound. lia. }
    destruct (lookup_lt_is_Some_2 heap ((pos - 1) / 2)%nat) as [parent Hparent];
      [lia|].
    rewrite (list_get_Some _ _ _ Hparent). cbn [mbind outcome_bind].
    destruct (lt newitem parent).
    + rewrite list_set_lt by done. cbn [mbind outcome_bind].
      destruct (IH (<[pos := parent]> heap) ((pos - 1) / 2)%nat)
        as (heap' & -> & Hperm); [rewrite length_insert; lia | lia |].
      exists heap'. split; [done|]. rewrite Hperm. by apply hole_move.
    + rewrite list_set_lt by done. by eexists.
  - rewrite list_set_lt by done. by eexists.
Qed.

Lemma _siftdown_ok (heap : list A) startpos pos :
  (pos < length heap)%nat →
  ∃ heap', _siftdown lt heap startpos pos = Ok heap' ∧ heap' ≡ₚ heap.
Proof.
  intros Hpos. unfold _siftdown.
  destruct (lookup_lt_is_Some_2 heap pos Hpos) as [newitem Hnew].
  rewrite (list_get_Some _ _ _ Hnew). cbn [mbind outcome_bind].
  destruct (siftdown_loop_ok (S pos) heap startpos pos newitem)
    as (heap' & -> & Hperm); [done | lia |].
  exists heap'. split; [done|]. by rewrite Hperm, list_insert_id.
Qed.

Lemma siftup_loop_ok fuel (heap : list A) pos childpos :
  (pos < length heap)%nat → (pos < childpos)%nat →
  (0 < fuel)%nat → (length heap < fuel + childpos)%nat →
  ∃ heap' pos',
    siftup_loop lt fuel heap (length heap) pos childpos = Ok (heap', pos')
    ∧ length heap' = length heap ∧ (pos' < length heap)%nat
    ∧ ∀ x, <[pos' := x]> heap' ≡ₚ <[pos := x]> heap.
Proof.
  revert heap pos childpos.
  induction fuel as [|fuel IH];
    intros heap pos childpos Hpos Hchild Hfuel0 Hfuel; [lia|].
  cbn [siftup_loop]. case_decide as Hlt; [|by eexists _, _].
  assert (∃ c, (pos < c < length heap)%nat ∧ (childpos ≤ c)%nat ∧
    (if decide (childpos + 1 < length heap)%nat then
       l ← list_get heap childpos;
       r ← list_get heap (childpos + 1)%nat;
       mret (if negb (lt l r) then (childpos + 1)%nat else childpos)
     else mret childpos) = Ok c) as (c & Hc & Hle & ->).
  { case_decide as Hr.
    - destruct (lookup_lt_is_Some_2 heap childpos) as [l Hl]; [lia|].
      destruct (lookup_lt_is_Some_2 heap (childpos + 1)%nat) as [r Hr'];
        [lia|].
      rewrite (list_get_Some _ _ _ Hl), (list_get_Some _ _ _ Hr').
      cbn [mbind outcome_bind]. destruct (lt l r); cbn [negb];
        eexists; (split; [|split; [|done]]); lia.
    - exists childpos. split; [lia|]. done. }
  cbn [mbind outcome_bind].
  destruct (lookup_lt_is_Some_2 heap c) as [x Hx]; [lia|].
  rewrite (list_get_Some _ _ _ Hx). cbn [mbind outcome_bind].
  rewrite list_set_lt by done. cbn [mbind outcome_bind].
  destruct (IH (<[pos := x]> heap) c (2 * c + 1)%nat)
    as (heap' & pos' & Hrun & Hlen & Hpos' & Hperm);
    [rewrite length_insert; lia | lia | lia | rewrite length_insert; lia |].
  rewrite length_insert in Hrun, Hlen, Hpos'.
  exists heap', pos'. split; [done|]. split; [done|]. split; [done|].
  intros y. rewrite Hperm. by apply hole_move.
Qed.

Lemma _siftup_ok (heap : list A) pos :
  (pos < length heap)%nat →
  ∃ heap', _siftup lt heap pos = Ok heap' ∧ heap' ≡ₚ heap.
Proof.
  intros Hpos. unfold _siftup.
  destruct (lookup_lt_is_Some_2 heap pos Hpos) as [newitem Hnew].
  rewrite (list_get_Some _ _ _ Hnew). cbn [mbind outcome_bind].
  destruct (siftup_loop_ok (S (length heap)) heap pos (2 * pos + 1)%nat)
    as (heap1 & pos1 & -> & Hlen & Hpos1 & Hperm); [done | lia | lia | lia |].
  cbn [mbind outcome_bind]. rewrite list_set_lt by lia.
  cbn [mbind outcome_bind].
  destruct (_siftdown_ok (<[pos1 := newitem]> heap1) pos pos1)
    as (heap' & -> & Hperm'); [rewrite length_insert; lia|].
  exists heap'. split; [done|].
  by rewrite Hperm', Hperm, list_insert_id.
Qed.

Lemma heappush_ok (heap : list A) item :
  ∃ heap', heappush lt heap item = Ok heap' ∧ heap' ≡ₚ item :: heap.
Proof.
  unfold heappush.
  destruct (_siftdown_ok (heap ++ [item]) 0 (length (heap ++ [item]) - 1))
    as (heap' & -> & Hperm); [rewrite length_app; cbn; lia|].
  exists heap'. split; [done|]. rewrite Hperm.
  by rewrite Permutation_app_comm.
Qed.

Lemma heappop_ok (heap : list A) :
  heap ≠ [] →
  ∃ x heap', heappop lt heap = Ok (x, heap') ∧ heap ≡ₚ x :: heap'
             ∧ heap !! 0%nat = Some x.
Proof.
  intros Hne. unfold heappop.
  destruct (proj2 (last_is_Some heap) Hne) as [lastelt Hlast].
  rewrite Hlast. apply last_Some in Hlast as [heap1 ->].
  rewrite length_app. cbn [length].
  rewrite take_app_length' by lia.
  destruct heap1 as [|r t]; [by eexists _, _|].
  rewrite list_set_lt by (cbn; lia). cbn [mbind outcome_bind].
  destruct (_siftup_ok (<[0%nat := lastelt]> (r :: t)) 0)
    as (heap' & -> & Hperm); [cbn; lia|].
  cbn [mbind outcome_bind]. exists r, heap'. split; [done|].
  split; [|done]. rewrite Hperm. cbn.
  rewrite <- Permutation_cons_append. done.
Qed.

End heapq_lemmas.

(** ** The root of the heap *)

Section heap_root.
Context {A : Type} (lt : A → A → bool).

(** An item smaller than everything above it climbs to the root. *)
Lemma siftdown_root_new fuel (heap : list A) pos newitem heap' :
  (∀ i x, (i < pos)%nat → heap !! i = Some x → lt newitem x = true) →
  siftdown_loop lt fuel heap 0 pos newitem = Ok heap' →
  (pos < length heap)%nat → heap' !! 0%nat = Some newitem.
Proof.
  revert heap pos. induction fuel as [|fuel IH]; intros heap pos Hall Hrun Hpos;
    [done|].
  cbn [siftdown_loop] in Hrun. case_decide as Hlt.
  - assert ((pos - 1) / 2 < pos)%nat as Hpar.
    { apply Nat.Div0.div_lt_upper_bound. lia. }
    destruct (lookup_lt_is_Some_2 heap ((pos - 1) / 2)%nat) as [parent Hparent];
      [lia|].
    rewrite (list_get_Some _ _ _ Hparent) in Hrun. cbn [mbind outcome_bind] in Hrun.
    rewrite (Hall _ _ Hpar Hparent) in Hrun.
    rewrite list_set_lt in Hrun by done. cbn [mbind outcome_bind] in Hrun.
    eapply IH; [| done | rewrite length_insert; lia].
    intros i x Hi Hx. rewrite list_lookup_insert_ne in Hx by lia.
    eapply Hall; [|done]. lia.
  - assert (pos = 0%nat) as -> by lia.
    rewrite list_set_lt in Hrun by done. injection Hrun as <-.
    by rewrite list_lookup_insert_eq.
Qed.

(** An item that is not smaller than the root leaves the root alone. *)
Lemma siftdown_root_old fuel (heap : list A) pos newitem heap' r :
  heap !! 0%nat = Some r → lt newitem r = false → (0 < pos)%nat →
  siftdown_loop lt fuel heap 0 pos newitem = Ok heap' →
  (pos < length heap)%nat → heap' !! 0%nat = Some r.
Proof.
  revert heap pos. induction fuel as [|fuel IH];
    intros heap pos Hroot Hnlt Hpos0 Hrun Hpos; [done|].
  cbn [siftdown_loop] in Hrun. rewrite decide_True in Hrun by done.
  assert ((pos - 1) / 2 < pos)%nat as Hpar.
  { apply Nat.Div0.div_lt_upper_bound. lia. }
  destruct (lookup_lt_is_Some_2 heap ((pos - 1) / 2)%nat) as [parent Hparent];
    [lia|].
  rewrite (list_get_Some _ _ _ Hparent) in Hrun. cbn [mbind outcome_bind] in Hrun.
  destruct (lt newitem parent) eqn:Hlt.
  - rewrite list_set_lt in Hrun by done. cbn [mbind outcome_bind] in Hrun.
    assert (0 < (pos - 1) / 2)%nat as Hpar0.
    { destruct (decide ((pos - 1) / 2 = 0)%nat) as [E|]; [|lia].
      rewrite E in Hparent. congruence. }
    eapply IH; [| done | done | done | rewrite length_insert; lia].
    by rewrite list_lookup_insert_ne by lia.
  - rewrite list_set_lt in Hrun by done. injection Hrun as <-.
    by rewrite list_lookup_insert_ne by lia.
Qed.

Lemma heappush_root_new (heap : list A) item heap' :
  (∀ x, x ∈ heap → lt item x = true) →
  heappush lt heap item = Ok heap' → heap' !! 0%nat = Some item.
Proof.
  intros Hall. unfold heappush, _siftdown.
  rewrite length_app, Nat.add_sub. cbn [length].
  rewrite (list_get_Some _ _ item) by (by rewrite lookup_app_r, Nat.sub_diag).
  cbn [mbind outcome_bind]. intros Hrun.
  eapply siftdown_root_new; [| done | rewrite length_app; cbn; lia].
  intros i x Hi Hx. rewrite lookup_app_l in Hx by done.
  apply Hall. by eapply list_elem_of_lookup_2.
Qed.

Lemma heappush_root_old (heap : list A) item heap' r :
  heap !! 0%nat = Some r → lt item r = false →
  heappush lt heap item = Ok heap' → heap' !! 0%nat = Some r.
Proof.
  intros Hroot Hnlt. unfold heappush, _siftdown.
  rewrite length_app, Nat.add_sub. cbn [length].
  rewrite (list_get_Some _ _ item) by (by rewrite lookup_app_r, Nat.sub_diag).
  cbn [mbind outcome_bind]. intros Hrun.
  pose proof (lookup_lt_Some _ _ _ Hroot) as Hlen.
  eapply siftdown_root_old; [| done | | done | rewrite length_app; cbn; lia].
  - by rewrite lookup_app_l.
  - lia.
Qed.

End heap_root.

(** * Lemmas: one pass through the search loop *)

Lemma push_all_ok {A} (lt : A → A → bool) (items heap : list A) :
  ∃ heap', push_all lt heap items = Ok heap' ∧ heap' ≡ₚ heap ++ items.
Proof.
  revert heap. induction items as [|x items IH]; intros heap; cbn [push_all].
  - exists heap. by rewrite app_nil_r.
  - destruct (heappush_ok lt heap x) as (heap1 & -> & Hperm1).
    cbn [mbind outcome_bind].
    destruct (IH heap1) as (heap' & -> & Hperm). exists heap'.
    split; [done|]. rewrite Hperm, Hperm1.
    by rewrite (Permutation_middle heap items x).
Qed.

Lemma push_successors_spec self cur a g path moves frontier w :
  store w !! board cur = Some a → length a = 64%nat →
  Forall (λ m, 0 ≤ m.1 < 8 ∧ 0 ≤ m.2 < 8) moves →
  wp (for_fold moves (push_successor self cur g path) frontier) w
     (λ frontier' w',
        let succs := successors self a g path (length (store w)) moves in
        push_all SearchNode_lt frontier (fst <$> succs) = Ok frontier'
        ∧ store w' = store w ++ (snd <$> succs)
        ∧ extends w w').
Proof.
  intros Hb Hlen Hmoves. revert frontier w Hb.
  induction Hmoves as [|move moves [Hx Hy] _ IH]; intros frontier w Hb;
    cbn [for_fold successors].
  { apply wp_ret. cbn. by rewrite app_nil_r. }
  apply wp_bind. unfold push_successor at 1.
  wp_call make_move_spec; [done..|]. intros r w1 [Hex1 Hr].
  destruct (valid_cells a move.1 move.2 (side_to_move self g)).
  - destruct Hr as [-> Hst1].
    wp_call evaluate_spec;
      [| cbn [board]; rewrite Hst1;
         by rewrite lookup_app_r, Nat.sub_diag by lia |];
      [by rewrite length_make_move_cells|].
    intros e w2 [-> [Hst2 Hex2]].
    destruct (heappush_ok SearchNode_lt frontier
      {| f_score := successor_score self a g move; g_score := g + 1;
         state := {| board := length (store w) |};
         path := match path with [] => path ++ [move] | _ => path end |})
      as (frontier1 & Hpush & _).
    eapply wp_lift; [exact Hpush|].
    eapply wp_mono.
    + apply IH. rewrite Hst2, Hst1. by apply lookup_app_l_Some.
    + cbv beta zeta. intros frontier' w' (Hall & Hst' & Hex').
      rewrite Hst2, Hst1, length_app in Hall, Hst'. cbn [length] in Hall.
      rewrite Nat.add_1_r in Hall, Hst'.
      cbn [fmap list_fmap fst snd push_all]. rewrite Hpush. cbn [mbind outcome_bind].
      split; [done|]. split; [by rewrite Hst', <- app_assoc|].
      eapply extends_trans; [|done]. eapply extends_trans; [done|].
      apply Hex2.
  - destruct Hr as [-> Hst1]. apply wp_ret.
    eapply wp_mono.
    + apply IH. by rewrite Hst1.
    + cbv beta zeta. intros frontier' w' (Hall & Hst' & Hex').
      rewrite Hst1 in Hall, Hst'. split; [done|]. split; [done|].
      by eapply extends_trans.
Qed.

Lemma all_cells_on_board : Forall (λ m, 0 ≤ m.1 < 8 ∧ 0 ≤ m.2 < 8) all_cells.
Proof. apply (bool_decide_unpack _). vm_compute. exact I. Qed.

Lemma valid_moves_on_board a p :
  Forall (λ m, 0 ≤ m.1 < 8 ∧ 0 ≤ m.2 < 8) (valid_moves_cells a p).
Proof.
  apply Forall_forall. intros m [_ Hin]%list_elem_of_filter.
  by eapply Forall_forall in Hin; [|apply all_cells_on_board].
Qed.

Lemma valid_moves_valid a p :
  Forall (λ m, valid_cells a m.1 m.2 p = true) (valid_moves_cells a p).
Proof. apply Forall_forall. by intros m [? _]%list_elem_of_filter. Qed.

Lemma length_valid_moves a p : (length (valid_moves_cells a p) ≤ 64)%nat.
Proof.
  unfold valid_moves_cells. etrans; [apply length_filter|]. done.
Qed.

(** One pass through the loop body, starting from a frontier whose root
    [n] has a board with cells [a]. *)
Lemma search_step_spec self max_depth frontier explored w n rest a :
  heappop SearchNode_lt frontier = Ok (n, rest) →
  store w !! board (state n) = Some a → length a = 64%nat →
  wp (search_step self max_depth frontier explored) w (λ s w',
    if decide (max_depth ≤ g_score n) then
      s = Returned (head (path n)) ∧ w' = w
    else if decide (a ∈ explored) then s = Skipped n rest ∧ w' = w
    else
      let succs :=
        successors self a (g_score n) (path n) (length (store w))
          (valid_moves_cells a (side_to_move self (g_score n))) in
      ∃ frontier',
        s = Expanded n frontier' (explored ∪ {[a]})
        ∧ push_all SearchNode_lt rest (fst <$> succs) = Ok frontier'
        ∧ store w' = store w ++ (snd <$> succs)
        ∧ extends w w').
Proof.
  intros Hpop Hb Hlen. unfold search_step.
  apply wp_bind. eapply wp_lift; [exact Hpop|]. cbv beta iota zeta.
  destruct (decide (max_depth ≤ g_score n)).
  { destruct (path n); by apply wp_ret. }
  unfold tobytes. apply wp_bind. eapply wp_load; [done|].
  destruct (decide (a ∈ explored)); [by apply wp_ret|].
  wp_call get_valid_moves_spec; [done..|]. intros moves w1 [-> [Hst1 Hex1]].
  wp_call push_successors_spec;
    [by rewrite Hst1 | done | apply valid_moves_on_board |].
  cbv zeta. intros frontier' w' (Hpush & Hst' & Hex'). apply wp_ret.
  rewrite Hst1 in Hpush, Hst'. exists frontier'.
  split; [done|]. split; [done|]. split; [done|]. by eapply extends_trans.
Qed.

(** * Lemmas: which node is at the root *)

Lemma SearchNode_lt_spec x y :
  SearchNode_lt x y = true ↔ f_score x < f_score y.
Proof. unfold SearchNode_lt. apply bool_decide_eq_true. Qed.

Lemma SearchNode_lt_false x y :
  SearchNode_lt x y = false ↔ f_score y ≤ f_score x.
Proof. unfold SearchNode_lt. rewrite bool_decide_eq_false. lia. Qed.

(** Pushing onto a heap whose root is least keeps the root unless the new
    item is strictly smaller; the root stays least. *)
Lemma heappush_root (heap : list SearchNode) item heap' :
  (∀ r x, heap !! 0%nat = Some r → x ∈ heap → f_score r ≤ f_score x) →
  heappush SearchNode_lt heap item = Ok heap' →
  heap' !! 0%nat
  = Some (match heap !! 0%nat with
          | None => item
          | Some r => if SearchNode_lt item r then item else r
          end)
  ∧ (∀ r x, heap' !! 0%nat = Some r → x ∈ heap' → f_score r ≤ f_score x).
Proof.
  intros Hmin Hpush.
  destruct (heappush_ok SearchNode_lt heap item) as (heap2 & Hpush2 & Hperm).
  rewrite Hpush in Hpush2. injection Hpush2 as <-.
  assert (∀ x, x ∈ heap' ↔ x = item ∨ x ∈ heap) as Hin.
  { intros x. by rewrite Hperm, elem_of_cons. }
  destruct (heap !! 0%nat) as [r|] eqn:Hroot.
  - destruct (SearchNode_lt item r) eqn:Hlt.
    + apply SearchNode_lt_spec in Hlt.
      assert (heap' !! 0%nat = Some item) as Hroot'.
      { eapply heappush_root_new; [|done]. intros x Hx.
        apply SearchNode_lt_spec. specialize (Hmin r x eq_refl Hx). lia. }
      split; [done|]. intros r' x Hr' [->|Hx]%Hin; simplify_eq; [lia|].
      specialize (Hmin r x eq_refl Hx). lia.
    + assert (heap' !! 0%nat = Some r) as Hroot'.
      { by eapply heappush_root_old. }
      apply SearchNode_lt_false in Hlt.
      split; [done|]. intros r' x Hr' [->|Hx]%Hin; simplify_eq; [lia|].
      by apply Hmin.
  - assert (heap = []) as -> by (by destruct heap).
    assert (heap' !! 0%nat = Some item) as Hroot'.
    { eapply heappush_root_new; [|done]. by intros x Hx%elem_of_nil. }
    split; [done|]. intros r' x Hr' [->|Hx%elem_of_nil]%Hin; simplify_eq; lia.
Qed.

Lemma push_all_root items (heap heap' : list SearchNode) :
  (∀ r x, heap !! 0%nat = Some r → x ∈ heap → f_score r ≤ f_score x) →
  push_all SearchNode_lt heap items = Ok heap' →
  heap' !! 0%nat
  = foldl (λ best x,
             match best with
             | None => Some x
             | Some b => if SearchNode_lt x b then Some x else Some b
             end) (heap !! 0%nat) items.
Proof.
  revert heap. induction items as [|x items IH]; intros heap Hmin;
    cbn [push_all foldl].
  - by intros [= ->].
  - destruct (heappush SearchNode_lt heap x) as [heap1| |] eqn:Hpush; [|done..].
    cbn [mbind outcome_bind]. intros Hall.
    destruct (heappush_root heap x heap1 Hmin Hpush) as [Hroot Hmin1].
    rewrite (IH heap1 Hmin1 Hall), Hroot.
    destruct (heap !! 0%nat) as [r|]; [destruct (SearchNode_lt x r)|]; done.
Qed.

Lemma push_all_first_min items heap' :
  push_all SearchNode_lt [] items = Ok heap' →
  heap' !! 0%nat = first_min SearchNode_lt items.
Proof.
  intros Hall. by apply (push_all_root items []); [intros r x [=]|].
Qed.

Lemma first_min_snoc {A} (lt : A → A → bool) items x :
  first_min lt (items ++ [x])
  = match first_min lt items with
    | None => Some x
    | Some b => if lt x b then Some x else Some b
    end.
Proof. unfold first_min. by rewrite foldl_app. Qed.

(** [first_min] declaratively: some item at an index [i] that is least,
    and strictly smaller than every item before [i]. *)
Lemma first_min_spec (items : list SearchNode) :
  match first_min SearchNode_lt items with
  | None => items = []
  | Some b =>
      ∃ i, items !! i = Some b
           ∧ (∀ j x, items !! j = Some x → f_score b ≤ f_score x)
           ∧ (∀ j x, (j < i)%nat → items !! j = Some x → f_score b < f_score x)
  end.
Proof.
  induction items as [|x items IH] using rev_ind; [done|].
  rewrite first_min_snoc.
  destruct (first_min SearchNode_lt items) as [b|].
  - destruct IH as (i & Hi & Hmin & Hfirst).
    pose proof (lookup_lt_Some _ _ _ Hi) as Hlt.
    destruct (SearchNode_lt x b) eqn:E.
    + apply SearchNode_lt_spec in E. exists (length items).
      split; [by rewrite lookup_app_r, Nat.sub_diag|].
      split.
      * intros j y Hj. apply lookup_app_Some in Hj as [Hj|[_ Hj]].
        -- specialize (Hmin j y Hj). lia.
        -- destruct (j - length items)%nat; simplify_eq/=. lia.
      * intros j y Hjl Hj. rewrite lookup_app_l in Hj by done.
        specialize (Hmin j y Hj). lia.
    + apply SearchNode_lt_false in E. exists i.
      split; [by rewrite lookup_app_l|]. split.
      * intros j y Hj. apply lookup_app_Some in Hj as [Hj|[_ Hj]].
        -- by eapply Hmin.
        -- destruct (j - length items)%nat; simplify_eq/=. lia.
      * intros j y Hjl Hj. rewrite lookup_app_l in Hj by lia.
        by eapply Hfirst.
  - subst items. exists 0%nat. split; [done|]. split.
    + intros [|j] y Hj; simplify_eq/=. lia.
    + intros j y Hjl. lia.
Qed.

(** The successors of a node over moves that are all valid: one node per
    move, in the order of the moves. *)
Lemma successors_lookup self a g path n moves i m :
  Forall (λ m, valid_cells a m.1 m.2 (side_to_move self g) = true) moves →
  moves !! i = Some m →
  successors self a g path n moves !! i
  = Some ({| f_score := successor_score self a g m;
             g_score := g + 1;
             state := {| board := (n + i)%nat |};
             path := match path with [] => path ++ [m] | _ => path end |},
          make_move_cells a m.1 m.2 (side_to_move self g)).
Proof.
  intros Hvalid. revert n i.
  induction Hvalid as [|m' moves Hm' _ IH]; intros n i Hi; [done|].
  cbn [successors]. rewrite Hm'. destruct i as [|i].
  - change ((m' :: moves) !! 0%nat) with (Some m') in Hi.
    injection Hi as ->. by rewrite Nat.add_0_r.
  - change ((m' :: moves) !! S i) with (moves !! i) in Hi.
    replace (n + S i)%nat with (S n + i)%nat by lia. exact (IH (S n) i Hi).
Qed.

Lemma length_successors self a g path n moves :
  Forall (λ m, valid_cells a m.1 m.2 (side_to_move self g) = true) moves →
  length (successors self a g path n moves) = length moves.
Proof.
  intros Hvalid. revert n.
  induction Hvalid as [|m' moves Hm' _ IH]; intros n; [done|].
  cbn [successors]. rewrite Hm'. cbn [length]. by rewrite IH.
Qed.

(** * Lemmas: the search at depth one *)

Lemma heappush_empty (x : SearchNode) : heappush SearchNode_lt [] x = Ok [x].
Proof. done. Qed.

Lemma heappop_singleton (x : SearchNode) :
  heappop SearchNode_lt [x] = Ok (x, []).
Proof. done. Qed.

Lemma search_step_return self max_depth frontier explored w n rest :
  heappop SearchNode_lt frontier = Ok (n, rest) →
  max_depth ≤ g_score n →
  search_step self max_depth frontier explored w = Ok (Returned (head (path n)), w).
Proof.
  intros Hpop Hg. unfold search_step.
  unfold mbind at 1, M_bind. unfold lift at 1. rewrite Hpop.
  rewrite decide_True by done. by destruct (path n).
Qed.

Lemma side_to_move_root self : side_to_move self 0 = player self.
Proof. done. Qed.

(** * Lemmas: the invariant of the search loop *)

Lemma side_to_move_player self g :
  is_player (player self) → is_player (side_to_move self g).
Proof.
  unfold side_to_move, is_player. intros Hp. case_decide; lia.
Qed.

Lemma node_ok_mono E0 w w' n :
  (∀ b a, store w !! b = Some a → store w' !! b = Some a) →
  node_ok E0 w n → node_ok E0 w' n.
Proof. intros Hsub (a & Hb & H). exists a. split; [by apply Hsub | done]. Qed.

Lemma weight_pos E0 n : (0 < weight E0 n)%nat.
Proof.
  unfold weight. pose proof (Nat.pow_nonzero 65 (Z.to_nat (E0 - g_score n))).
  lia.
Qed.

Lemma sum_list_with_const {A} (f : A → nat) (l : list A) c :
  Forall (λ x, f x = c) l → sum_list_with f l = (length l * c)%nat.
Proof.
  induction 1 as [|x l Hx _ IH]; [done|]. cbn. rewrite Hx, IH. lia.
Qed.

(** What the entries of [successors] look like. *)
Lemma successors_elem self a g pth n moves k c cells :
  successors self a g pth n moves !! k = Some (c, cells) →
  board (state c) = (n + k)%nat
  ∧ g_score c = g + 1
  ∧ ∃ m, m ∈ moves
         ∧ valid_cells a m.1 m.2 (side_to_move self g) = true
         ∧ cells = make_move_cells a m.1 m.2 (side_to_move self g)
         ∧ f_score c = successor_score self a g m
         ∧ path c = match pth with [] => [m] | _ => pth end.
Proof.
  revert n k. induction moves as [|m moves IH]; intros n k; [done|].
  cbn [successors].
  destruct (valid_cells a m.1 m.2 (side_to_move self g)) eqn:Hv.
  - destruct k as [|k]; cbn [lookup list_lookup].
    + intros [= <- <-]. cbn [state board g_score f_score path]. split; [lia|]. split; [done|].
      exists m. split; [by left|]. split; [done|]. split; [done|].
      split; [done|]. by destruct pth.
    + intros Hk. destruct (IH (S n) k Hk) as (Hb & Hg & m' & Hin & H).
      split; [lia|]. split; [done|]. exists m'. split; [by right | done].
  - intros Hk. destruct (IH n k Hk) as (Hb & Hg & m' & Hin & H).
    split; [done|]. split; [done|]. exists m'. split; [by right | done].
Qed.

Lemma length_successors_le self a g path n moves :
  (length (successors self a g path n moves) ≤ length moves)%nat.
Proof.
  revert n. induction moves as [|m moves IH]; intros n; [done|].
  cbn [successors]. destruct (valid_cells _ _ _ _); cbn [length].
  - specialize (IH (S n)). lia.
  - specialize (IH n). lia.
Qed.

(** Expanding a node of the invariant: the new frontier satisfies the
    invariant in the new world, and weighs less than the node and the rest
    of the old frontier together. *)
Lemma expansion_ok self E0 w w' n a rest frontier' moves :
  is_player (player self) →
  store w !! board (state n) = Some a → node_ok E0 w n →
  Forall (node_ok E0 w) rest →
  Forall (λ m, 0 ≤ m.1 < 8 ∧ 0 ≤ m.2 < 8) moves → (length moves ≤ 64)%nat →
  push_all SearchNode_lt rest
    (fst <$> successors self a (g_score n) (path n) (length (store w)) moves)
  = Ok frontier' →
  store w' = store w
             ++ (snd <$> successors self a (g_score n) (path n)
                             (length (store w)) moves) →
  Forall (node_ok E0 w') frontier'
  ∧ (sum_list_with (weight E0) frontier'
     < sum_list_with (weight E0) rest + weight E0 n)%nat.
Proof.
  intros Hp Hb (a' & Hb' & Hwf & Hg0 & HE & Hpath) Hrest Hmoves Hlenm Hpush Hst.
  rewrite Hb in Hb'. injection Hb' as <-. destruct Hwf as [Hlen Hcv].
  set (succs := successors self a (g_score n) (path n) (length (store w)) moves)
    in *.
  destruct (push_all_ok SearchNode_lt (fst <$> succs) rest)
    as (fr2 & Hpush2 & Hperm).
  rewrite Hpush in Hpush2. injection Hpush2 as <-.
  assert (∀ b a0, store w !! b = Some a0 → store w' !! b = Some a0) as Hsub.
  { intros b a0 Hb0. rewrite Hst. by apply lookup_app_l_Some. }
  assert (∀ k c cells, succs !! k = Some (c, cells) →
    node_ok E0 w' c ∧ (0 < empties a)%nat
    ∧ weight E0 c = (65 ^ (empties a - 1))%nat) as Hchild.
  { intros k c cells Hk.
    destruct (successors_elem _ _ _ _ _ _ _ _ _ Hk)
      as (Hbc & Hgc & m & Hin & Hv & -> & _ & Hpc).
    eapply Forall_forall in Hmoves as [Hx Hy]; [|exact Hin].
    pose proof (valid_cells_empty _ _ _ _ Hv) as H0.
    pose proof (side_to_move_player self (g_score n) Hp) as Hside.
    assert (side_to_move self (g_score n) ≠ 0) as Hne by (destruct Hside; lia).
    pose proof (empties_make_move_cells a m.1 m.2 _ Hne Hlen Hx Hy H0) as He.
    split; [|split; [lia|]].
    - exists (make_move_cells a m.1 m.2 (side_to_move self (g_score n))).
      split.
      { rewrite Hbc, Hst, lookup_app_r by lia.
        replace (length (store w) + k - length (store w))%nat with k by lia.
        by rewrite list_lookup_fmap, Hk. }
      split; [by apply wf_make_move_cells|]. split; [lia|]. split; [lia|].
      rewrite Hpc. destruct (path n); [|done]. constructor; [done | constructor].
    - unfold weight. f_equal. lia. }
  split.
  - rewrite Hperm. apply Forall_app. split.
    + eapply Forall_impl; [exact Hrest|]. intros x. by apply node_ok_mono.
    + apply Forall_forall. intros c [k Hk]%list_elem_of_lookup_1.
      rewrite list_lookup_fmap in Hk.
      destruct (succs !! k) as [[c' cells]|] eqn:Hk'; [|done].
      injection Hk as <-. by destruct (Hchild k c' cells Hk').
  - rewrite Hperm, sum_list_with_app.
    pose proof (weight_pos E0 n) as Hwpos.
    pose proof (length_successors_le self a (g_score n) (path n)
                  (length (store w)) moves) as Hle. fold succs in Hle.
    clearbody succs.
    destruct succs as [|[c0 cells0] succs']; [cbn; lia|].
    destruct (Hchild 0%nat c0 cells0) as (_ & Hpos & _); [done|].
    rewrite (sum_list_with_const (weight E0) (fst <$> (c0, cells0) :: succs')
               (65 ^ (empties a - 1))%nat).
    2:{ apply Forall_forall. intros c [k Hk]%list_elem_of_lookup_1.
        rewrite list_lookup_fmap in Hk.
        destruct (((c0, cells0) :: succs') !! k) as [[c' cells]|] eqn:Hk';
          [|done].
        injection Hk as <-. by destruct (Hchild k c' cells Hk') as (_ & _ & ?). }
    rewrite length_fmap.
    assert (weight E0 n = (65 * 65 ^ (empties a - 1))%nat) as ->.
    { unfold weight. rewrite <- Nat.pow_succ_r'. f_equal. lia. }
    pose proof (Nat.pow_nonzero 65 (empties a - 1)).
    nia.
Qed.

(** One pass through the loop from a frontier of the invariant: the three
    ways out and what holds after each. *)
Lemma search_step_cases self max_depth E0 frontier explored w :
  is_player (player self) → frontier ≠ [] →
  Forall (node_ok E0 w) frontier →
  ∃ n rest a,
    heappop SearchNode_lt frontier = Ok (n, rest)
    ∧ frontier ≡ₚ n :: rest
    ∧ store w !! board (state n) = Some a
    ∧ node_ok E0 w n
    ∧ wp (search_step self max_depth frontier explored) w (λ st w',
        (max_depth ≤ g_score n ∧ st = Returned (head (path n)) ∧ w' = w)
        ∨ (g_score n < max_depth ∧ a ∈ explored
           ∧ st = Skipped n rest ∧ w' = w)
        ∨ (g_score n < max_depth ∧ (a ∉ explored)
           ∧ ∃ frontier',
               st = Expanded n frontier' (explored ∪ {[a]})
               ∧ Forall (node_ok E0 w') frontier'
               ∧ (sum_list_with (weight E0) frontier'
                  < sum_list_with (weight E0) frontier)%nat
               ∧ (∀ b a0, store w !! b = Some a0 → store w' !! b = Some a0)
               ∧ extends w w')).
Proof.
  intros Hp Hne Hinv.
  destruct (heappop_ok SearchNode_lt frontier Hne) as (n & rest & Hpop & Hperm & _).
  rewrite Hperm in Hinv. apply Forall_cons in Hinv as [Hn Hrest].
  pose proof Hn as (a & Hb & Hwf & _).
  exists n, rest, a. split; [done|]. split; [done|]. split; [done|].
  split; [done|].
  eapply wp_mono.
  { eapply search_step_spec; [exact Hpop | exact Hb | apply Hwf]. }
  cbv beta. intros st w' Hst.
  destruct (decide (max_depth ≤ g_score n)); [by left|].
  right. destruct (decide (a ∈ explored)).
  { left. destruct Hst as [-> ->]. split; [lia | done]. }
  right. cbv zeta in Hst. destruct Hst as (fr' & -> & Hpush & Hst' & Hex).
  split; [lia|]. split; [done|]. exists fr'. split; [done|].
  destruct (expansion_ok self E0 w w' n a rest fr'
              (valid_moves_cells a (side_to_move self (g_score n))))
    as [Hinv' Hlt]; try done.
  { apply valid_moves_on_board. }
  { apply length_valid_moves. }
  split; [done|]. split.
  { rewrite Hperm. cbn. lia. }
  split; [|done]. intros b a0 Hb0. rewrite Hst'. by apply lookup_app_l_Some.
Qed.

(** The loop returns once the fuel exceeds the weight of the frontier; it
    returns a coordinate on the board or [None]. *)
Lemma search_loop_returns self max_depth E0 fuel frontier explored w :
  is_player (player self) →
  Forall (node_ok E0 w) frontier →
  (sum_list_with (weight E0) frontier < fuel)%nat →
  wp (search_loop fuel self max_depth frontier explored) w (λ r w',
    (r = None ∨ ∃ x y, r = Some (x, y) ∧ 0 ≤ x < 8 ∧ 0 ≤ y < 8)
    ∧ extends w w').
Proof.
  intros Hp. revert frontier explored w.
  induction fuel as [|fuel IH]; intros frontier explored w Hinv Hfuel; [lia|].
  cbn [search_loop]. destruct frontier as [|n0 fr0] eqn:Efr.
  { apply wp_ret. split; [by left | done]. }
  rewrite <- Efr in *. assert (frontier ≠ []) as Hne by (by rewrite Efr).
  destruct (search_step_cases self max_depth E0 frontier explored w Hp Hne Hinv)
    as (n & rest & a & Hpop & Hperm & Hb & Hn & Hstep).
  apply wp_bind. eapply wp_mono; [exact Hstep|]. cbv beta.
  intros st w' [(Hg & -> & ->) | [(Hg & Hin & -> & ->) | (Hg & Hnin & Hex)]].
  - apply wp_ret. split; [|done].
    destruct Hn as (_ & _ & _ & _ & _ & Hpath).
    destruct (path n) as [|[x y] p]; [by left|]. right. exists x, y.
    apply Forall_cons in Hpath as [[Hx Hy] _]. done.
  - apply IH.
    + rewrite Hperm in Hinv. by apply Forall_cons in Hinv as [_ ?].
    + rewrite Hperm in Hfuel. cbn in Hfuel. pose proof (weight_pos E0 n). lia.
  - destruct Hex as (fr' & -> & Hinv' & Hlt & Hsub & Hext).
    eapply wp_mono; [apply IH; [done | lia]|]. cbv beta.
    intros r w'' [Hr Hext']. split; [done | by eapply extends_trans].
Qed.

(** More fuel does not change what the loop returns. *)
Lemma search_loop_fuel_mono self max_depth fuel frontier explored w x :
  search_loop fuel self max_depth frontier explored w = Ok x →
  search_loop (S fuel) self max_depth frontier explored w = Ok x.
Proof.
  revert frontier explored w.
  induction fuel as [|fuel IH]; intros frontier explored w; [done|].
  intros Hrun. cbn [search_loop] in Hrun.
  change (search_loop (S (S fuel)) self max_depth frontier explored w)
    with (match frontier with
          | [] => mret None
          | _ :: _ =>
              s ← search_step self max_depth frontier explored;
              match s with
              | Returned r => mret r
              | Skipped _ frontier =>
                  search_loop (S fuel) self max_depth frontier explored
              | Expanded _ frontier explored =>
                  search_loop (S fuel) self max_depth frontier explored
              end
          end w).
  destruct frontier as [|n0 fr0]; [done|].
  unfold mbind, M_bind in Hrun |- *.
  destruct (search_step self max_depth (n0 :: fr0) explored w)
    as [[[r|n fr|n fr ex] w']| |]; [done | by apply IH | by apply IH | done..].
Qed.

Lemma search_loop_fuel_le self max_depth fuel fuel' frontier explored w x :
  (fuel ≤ fuel')%nat →
  search_loop fuel self max_depth frontier explored w = Ok x →
  search_loop fuel' self max_depth frontier explored w = Ok x.
Proof.
  induction 1 as [|fuel' _ IH]; [done|].
  intros Hrun. by apply search_loop_fuel_mono, IH.
Qed.

Lemma node_ok_start w s a :
  store w !! board s = Some a → wf_board a →
  node_ok (Z.of_nat (empties a)) w
    {| f_score := 0; g_score := 0; state := s; path := [] |}.
Proof.
  intros Hb Hwf. exists a. cbn. split; [done|]. split; [done|].
  split; [lia|]. split; [lia | constructor].
Qed.

(** [a_star_search] returns, for every depth bound, once it is given
    enough fuel. *)
Lemma a_star_search_returns w self s a max_depth :
  store w !! board s = Some a → wf_board a → is_player (player self) →
  ∃ fuel r w',
    (∀ fuel', (fuel ≤ fuel')%nat →
       a_star_search fuel' self s max_depth w = Ok (r, w'))
    ∧ (r = None ∨ ∃ x y, r = Some (x, y) ∧ 0 ≤ x < 8 ∧ 0 ≤ y < 8)
    ∧ extends w w'.
Proof.
  intros Hb Hwf Hp.
  set (start := {| f_score := 0; g_score := 0; state := s; path := [] |}).
  set (E0 := Z.of_nat (empties a)).
  set (fuel := S (sum_list_with (weight E0) [start])).
  assert (Forall (node_ok E0 w) [start]) as Hinv.
  { apply Forall_singleton. by apply node_ok_start. }
  destruct (run_spec _ _ _
    (search_loop_returns self max_depth E0 fuel [start] ∅ w Hp Hinv
       (Nat.lt_succ_diag_r _)))
    as (r & w' & Hrun & Hr & Hext).
  exists fuel, r, w'. split; [|done].
  intros fuel' Hle. unfold a_star_search.
  unfold mbind, M_bind, lift. rewrite heappush_empty.
  by eapply search_loop_fuel_le.
Qed.

(** The invariant of the reachable states of a search that starts on a
    board of the data model with cells [a0]. *)
Lemma reachable_inv self max_depth s w0 a0 frontier explored w log :
  store w0 !! board s = Some a0 → wf_board a0 → is_player (player self) →
  reachable self max_depth s w0 frontier explored w log →
  Forall (node_ok (Z.of_nat (empties a0)) w) frontier
  ∧ NoDup log
  ∧ (∀ h, h ∈ explored ↔ h ∈ log)
  ∧ (∀ h, h ∈ log → Z.of_nat (empties a0) - Z.of_nat (empties h) < max_depth)
  ∧ (∀ b a, store w0 !! b = Some a → store w !! b = Some a).
Proof.
  intros Hb Hwf Hp Hreach.
  induction Hreach as
    [frontier Hpush
    |frontier explored w log n frontier' w' Hreach IH Hne Hstep
    |frontier explored w log n layout frontier' explored' w' Hreach IH Hne
       Hstep Hlayout].
  - rewrite heappush_empty in Hpush. injection Hpush as <-.
    split; [apply Forall_singleton; by apply node_ok_start|].
    split; [constructor|]. split.
    { intros h. split; [by intros ?%elem_of_empty | by intros ?%elem_of_nil]. }
    split; [by intros h ?%elem_of_nil | done].
  - destruct IH as (Hinv & Hnd & Hex & Hdepth & Hsub).
    destruct (search_step_cases self max_depth _ frontier explored w Hp Hne Hinv)
      as (n' & rest & a & Hpop & Hperm & Hb' & Hn & Hwp).
    apply run_spec in Hwp as (st & w2 & Hrun & Hcases).
    rewrite Hstep in Hrun. injection Hrun as <- <-.
    destruct Hcases as [(_ & [=] & _) | [(Hg & Hin & [= -> ->] & ->) |
                        (_ & _ & fr' & [=] & _)]].
    split; [|done]. rewrite Hperm in Hinv. by apply Forall_cons in Hinv as [_ ?].
  - destruct IH as (Hinv & Hnd & Hex & Hdepth & Hsub).
    destruct (search_step_cases self max_depth _ frontier explored w Hp Hne Hinv)
      as (n' & rest & a & Hpop & Hperm & Hb' & Hn & Hwp).
    apply run_spec in Hwp as (st & w2 & Hrun & Hcases).
    rewrite Hstep in Hrun. injection Hrun as <- <-.
    destruct Hcases as [(_ & [=] & _) | [(_ & _ & [=] & _) |
                        (Hg & Hnin & fr' & [= -> -> ->] & Hinv' & _ & Hsub' & _)]].
    rewrite Hb' in Hlayout. injection Hlayout as <-.
    destruct Hn as (a' & Ha' & _ & _ & HE & _).
    rewrite Hb' in Ha'. injection Ha' as <-.
    split; [done|]. split; [constructor; [by rewrite <- Hex | done]|].
    split; [intros h; rewrite elem_of_cons, <- Hex, elem_of_union,
              elem_of_singleton; tauto|].
    split; [|by auto].
    intros h [->|Hh]%elem_of_cons; [lia | by apply Hdepth].
Qed.

(** * The reachable states and the run of the loop *)

(** Every reachable state is a state of the run of [a_star_search]: after
    some number of passes the run goes on as the loop from that state. *)
Lemma reachable_run self max_depth s w0 frontier explored w log :
  reachable self max_depth s w0 frontier explored w log →
  ∃ k, ∀ fuel,
    a_star_search (k + fuel) self s max_depth w0
    = search_loop fuel self max_depth frontier explored w.
Proof.
  induction 1 as
    [frontier Hpush
    |frontier explored w log n frontier' w' Hreach [k IH] Hne Hstep
    |frontier explored w log n layout frontier' explored' w' Hreach [k IH] Hne
       Hstep Hlayout].
  - exists 0%nat. intros fuel. unfold a_star_search, mbind, M_bind, lift.
    by rewrite Hpush.
  - exists (S k). intros fuel.
    replace (S k + fuel)%nat with (k + S fuel)%nat by lia. rewrite IH.
    destruct frontier as [|x frontier]; [done|].
    cbn [search_loop]. unfold mbind, M_bind. by rewrite Hstep.
  - exists (S k). intros fuel.
    replace (S k + fuel)%nat with (k + S fuel)%nat by lia. rewrite IH.
    destruct frontier as [|x frontier]; [done|].
    cbn [search_loop]. unfold mbind, M_bind. by rewrite Hstep.
Qed.

(** The run of the loop never leaves the reachable states: when it returns,
    it does so from a reachable state, because the frontier is empty there
    or because the pass through the body returns. *)
Lemma search_loop_ends_reachable self max_depth s w0 fuel frontier explored w
    log r w' :
  reachable self max_depth s w0 frontier explored w log →
  search_loop fuel self max_depth frontier explored w = Ok (r, w') →
  ∃ frontier1 explored1 w1 log1,
    reachable self max_depth s w0 frontier1 explored1 w1 (log1 ++ log)
    ∧ (frontier1 = [] ∧ r = None ∧ w' = w1
       ∨ frontier1 ≠ []
         ∧ search_step self max_depth frontier1 explored1 w1
           = Ok (Returned r, w')).
Proof.
  revert frontier explored w log.
  induction fuel as [|fuel IH]; intros frontier explored w log Hreach Hrun;
    [done|].
  destruct frontier as [|x frontier].
  { injection Hrun as <- <-. exists [], explored, w, []. split; [done|].
    by left. }
  cbn [search_loop] in Hrun. unfold mbind, M_bind in Hrun.
  destruct (search_step self max_depth (x :: frontier) explored w)
    as [[[r1|n fr1|n fr1 ex1] w1]| |] eqn:Hstep; [| | |done..].
  - injection Hrun as <- <-. exists (x :: frontier), explored, w, [].
    split; [done|]. by right.
  - apply (IH fr1 explored w1 log); [|done].
    by eapply reachable_skip.
  - destruct (store w !! board (state n)) as [layout|] eqn:Hlayout.
    + destruct (IH fr1 ex1 w1 (layout :: log)) as (f2 & e2 & w2 & l2 & H2 & Hend);
        [by eapply reachable_expand | done |].
      exists f2, e2, w2, (l2 ++ [layout]). by rewrite <- app_assoc.
    + exfalso. revert Hstep. unfold search_step, mbind, M_bind, lift.
      destruct (heappop SearchNode_lt (x :: frontier)) as [[n0 fr0]| |];
        [|done..].
      destruct (decide (max_depth ≤ g_score n0)).
      { by destruct (path n0). }
      unfold tobytes, load.
      destruct (store w !! board (state n0)) as [a|] eqn:Ha; [|done].
      destruct (decide (a ∈ explored)); [done|].
      destruct (get_valid_moves _ _ _) as [[mv w2]| |]; [|done..].
      destruct (for_fold _ _ _ _) as [[fr2 w3]| |]; [|done..].
      intros [= -> _ _ _]. congruence.
Qed.

(** The states that [loop_passes] computes from a reachable state are
    reachable. *)
Lemma loop_passes_reachable self max_depth s w0 k frontier explored w log
    frontier' explored' w' log' :
  reachable self max_depth s w0 frontier explored w log →
  loop_passes k self max_depth (frontier, explored, w, log)
  = Some (frontier', explored', w', log') →
  reachable self max_depth s w0 frontier' explored' w' log'.
Proof.
  revert frontier explored w log.
  induction k as [|k IH]; intros frontier explored w log Hreach Hrun.
  { by injection Hrun as <- <- <- <-. }
  cbn [loop_passes] in Hrun.
  destruct frontier as [|x frontier]; [done|].
  destruct (search_step self max_depth (x :: frontier) explored w)
    as [[[r1|n fr1|n fr1 ex1] w1]| |] eqn:Hstep; [done| | |done..].
  - eapply IH; [|exact Hrun]. by eapply reachable_skip.
  - destruct (store w !! board (state n)) as [layout|] eqn:Hlayout; [|done].
    cbn [mbind option_bind] in Hrun.
    eapply IH; [|exact Hrun]. by eapply reachable_expand.
Qed.

Lemma wf_transposition_cells : wf_board transposition_cells.
Proof. apply (bool_decide_unpack _). vm_compute. exact I. Qed.

(** * The board model: claims *)

Lemma OthelloState_init_spec w :
  wp (OthelloState_init None) w (λ s w',
    board s = length (store w) ∧ store w' = store w ++ [initial_cells]
    ∧ extends w w').
Proof.
  cbn [OthelloState_init]. apply wp_bind, wp_alloc.
  wp_call board_set_spec;
    [cbn [store]; by rewrite lookup_app_r, Nat.sub_diag by lia | done | lia..|].
  intros _ w1 [Hst1 Hex1]. cbn [store] in Hst1. rewrite insert_app_last in Hst1.
  wp_call board_set_spec;
    [rewrite Hst1; by rewrite lookup_app_r, Nat.sub_diag by lia | done | lia..|].
  intros _ w2 [Hst2 Hex2]. rewrite Hst1, insert_app_last in Hst2.
  wp_call board_set_spec;
    [rewrite Hst2; by rewrite lookup_app_r, Nat.sub_diag by lia | done | lia..|].
  intros _ w3 [Hst3 Hex3]. rewrite Hst2, insert_app_last in Hst3.
  wp_call board_set_spec;
    [rewrite Hst3; by rewrite lookup_app_r, Nat.sub_diag by lia | done | lia..|].
  intros _ w4 [Hst4 Hex4]. rewrite Hst3, insert_app_last in Hst4.
  apply wp_ret. split; [done|]. split; [done|].
  eapply extends_trans; [|done]. eapply extends_trans; [|done].
  eapply extends_trans; [|done]. eapply extends_trans; [|done].
  exists []. done.
Qed.

Lemma wf_initial_cells : wf_board initial_cells.
Proof. apply (bool_decide_unpack _). vm_compute. exact I. Defined.

(** C4: [make_move] never mutates its receiver.  For a legal move on a
    board of the data model, the call returns a state on a new array, and
    afterwards the receiver's array holds the cells it held before (as does
    every other array that existed); the placement shows in the new array
    only. *)
Theorem make_move_keeps_receiver w self a row col p :
  store w !! board self = Some a → wf_board a → is_player p →
  0 ≤ row < 8 → 0 ≤ col < 8 →
  res (is_valid_move self row col p w) = Ok true →
  ∃ new w' a',
    make_move self row col p w = Ok (Some new, w')
    ∧ store w' !! board self = Some a
    ∧ (∀ x y, cell (default [] (store w' !! board self)) x y = cell a x y)
    ∧ (∀ b a0, store w !! b = Some a0 → store w' !! b = Some a0)
    ∧ board new ≠ board self
    ∧ store w' !! board new = Some a'
    ∧ cell a' row col = p ∧ cell a row col = 0.
Proof.
  intros Hb [Hlen Hwf] Hp Hr Hc Hlegal.
  destruct (run_spec _ _ _ (is_valid_move_spec self a Hlen w row col p Hb Hr Hc))
    as (v & w1 & Hrun & -> & _).
  rewrite Hrun in Hlegal. cbn in Hlegal. injection Hlegal as Hvalid.
  destruct (run_spec _ _ _ (make_move_spec self a w row col p Hb Hlen Hr Hc))
    as (r & w' & Hmm & Hex & Hr').
  rewrite Hvalid in Hr'. destruct Hr' as [-> Hst].
  pose proof (lookup_lt_Some _ _ _ Hb) as Hlt.
  assert (∀ b a0, store w !! b = Some a0 → store w' !! b = Some a0) as Hframe.
  { intros b a0 Hb0. rewrite Hst. by apply lookup_app_l_Some. }
  eexists _, w', _. split; [done|]. split; [by apply Hframe|].
  split; [by rewrite (Hframe _ _ Hb)|]. split; [done|].
  split; [cbn; lia|]. split.
  { cbn. rewrite Hst. by rewrite lookup_app_r, Nat.sub_diag by lia. }
  split; [by apply make_move_cells_target|].
  by apply make_move_cells_flips in Hvalid as [? _].
Qed.

Lemma make_move_keeps_receiver_witness :
  ∃ new w' a',
    make_move {| board := 0 |} 2 4 1 initial_world = Ok (Some new, w')
    ∧ store w' !! 0%nat = Some initial_cells
    ∧ (∀ x y, cell (default [] (store w' !! 0%nat)) x y = cell initial_cells x y)
    ∧ (∀ b a0, store initial_world !! b = Some a0 → store w' !! b = Some a0)
    ∧ board new ≠ 0%nat
    ∧ store w' !! board new = Some a'
    ∧ cell a' 2 4 = 1 ∧ cell initial_cells 2 4 = 0.
Proof.
  apply (make_move_keeps_receiver initial_world {| board := 0 |}
           initial_cells 2 4 1).
  - reflexivity.
  - exact wf_initial_cells.
  - left. reflexivity.
  - lia.
  - lia.
  - vm_compute. reflexivity.
Defined.

(** C10: on an 8x8 board, with [row] and [col] in [0,7], every indexed
    access that [is_valid_move] and [make_move] perform (the scans of
    [_would_flip] and [_flip_direction] included) has both indices in
    [0,7]; both calls return normally, without [IndexError]. *)
Theorem board_accesses_in_grid w self a row col p :
  store w !! board self = Some a → wf_board a → is_player p →
  0 ≤ row < 8 → 0 ≤ col < 8 →
  (∃ v w1, is_valid_move self row col p w = Ok (v, w1)
           ∧ ∃ t, trace w1 = t ++ trace w ∧ Forall in_grid t)
  ∧ (∃ r w2, make_move self row col p w = Ok (r, w2)
             ∧ ∃ t, trace w2 = t ++ trace w ∧ Forall in_grid t).
Proof.
  intros Hb [Hlen Hwf] Hp Hr Hc. split.
  - destruct (run_spec _ _ _ (is_valid_move_spec self a Hlen w row col p Hb Hr Hc))
      as (v & w1 & Hrun & _ & _ & Hex). by exists v, w1.
  - destruct (run_spec _ _ _ (make_move_spec self a w row col p Hb Hlen Hr Hc))
      as (r & w2 & Hrun & Hex & _). by exists r, w2.
Qed.

Lemma board_accesses_in_grid_witness :
  (∃ v w1, is_valid_move {| board := 0 |} 2 4 1 initial_world = Ok (v, w1)
           ∧ ∃ t, trace w1 = t ++ trace initial_world ∧ Forall in_grid t)
  ∧ (∃ r w2, make_move {| board := 0 |} 2 4 1 initial_world = Ok (r, w2)
             ∧ ∃ t, trace w2 = t ++ trace initial_world ∧ Forall in_grid t).
Proof.
  apply (board_accesses_in_grid initial_world {| board := 0 |}
           initial_cells 2 4 1).
  - reflexivity.
  - exact wf_initial_cells.
  - left. reflexivity.
  - lia.
  - lia.
Defined.

(** C1: on a board of the data model, for a player and a coordinate on the
    board, [is_valid_move] returns true exactly when [make_move] returns a
    state on a new board (not [None]) that differs from the old one in the
    target cell and in a flipped cell along one of the eight directions. *)
Theorem is_valid_move_iff_make_move w self a row col p :
  store w !! board self = Some a → wf_board a → is_player p →
  0 ≤ row < 8 → 0 ≤ col < 8 →
  res (is_valid_move self row col p w) = Ok true
  ↔ ∃ new w' a',
      make_move self row col p w = Ok (Some new, w')
      ∧ board new ≠ board self
      ∧ store w' !! board new = Some a'
      ∧ cell a' row col ≠ cell a row col
      ∧ ∃ dx dy k,
          (dx, dy) ∈ directions ∧ 1 ≤ k
          ∧ 0 ≤ row + k * dx < 8 ∧ 0 ≤ col + k * dy < 8
          ∧ cell a (row + k * dx) (col + k * dy) = - p
          ∧ cell a' (row + k * dx) (col + k * dy) = p.
Proof.
  intros Hb [Hlen Hwf] Hp Hr Hc.
  destruct (run_spec _ _ _ (is_valid_move_spec self a Hlen w row col p Hb Hr Hc))
    as (v & w1 & Hrun & -> & _).
  destruct (run_spec _ _ _ (make_move_spec self a w row col p Hb Hlen Hr Hc))
    as (r & w' & Hmm & Hex & Hr').
  rewrite Hrun. cbn [res]. split.
  - intros [= Hvalid]. rewrite Hvalid in Hr'. destruct Hr' as [-> Hst].
    pose proof (lookup_lt_Some _ _ _ Hb) as Hlt.
    destruct (make_move_cells_flips a row col p Hlen Hr Hc Hvalid)
      as (H0 & [dx dy] & Hd & (Hx & Hy & Hne0 & Hnep) & Hflip).
    cbn [fst snd] in *.
    eexists _, w', _. split; [done|]. split; [cbn; lia|]. split.
    { cbn. rewrite Hst. by rewrite lookup_app_r, Nat.sub_diag by lia. }
    split.
    { rewrite make_move_cells_target, H0 by done. destruct Hp; lia. }
    exists dx, dy, 1. rewrite !Z.mul_1_l.
    split; [done|]. split; [lia|]. split; [done|]. split; [done|].
    split; [|done].
    pose proof (cell_value_cell a (row + dx) (col + dy) Hwf) as Hcv.
    destruct Hp, Hcv as [|[|]]; lia.
  - intros (new & w'' & a' & Hmm' & _). rewrite Hmm in Hmm'.
    injection Hmm' as -> _. destruct (valid_cells a row col p); [done|].
    by destruct Hr'.
Qed.

Lemma is_valid_move_iff_make_move_witness :
  res (is_valid_move {| board := 0 |} 2 4 1 initial_world) = Ok true
  ↔ ∃ new w' a',
      make_move {| board := 0 |} 2 4 1 initial_world = Ok (Some new, w')
      ∧ board new ≠ 0%nat
      ∧ store w' !! board new = Some a'
      ∧ cell a' 2 4 ≠ cell initial_cells 2 4
      ∧ ∃ dx dy k,
          (dx, dy) ∈ directions ∧ 1 ≤ k
          ∧ 0 ≤ 2 + k * dx < 8 ∧ 0 ≤ 4 + k * dy < 8
          ∧ cell initial_cells (2 + k * dx) (4 + k * dy) = - 1
          ∧ cell a' (2 + k * dx) (4 + k * dy) = 1.
Proof.
  apply (is_valid_move_iff_make_move initial_world {| board := 0 |}
           initial_cells 2 4 1).
  - reflexivity.
  - exact wf_initial_cells.
  - left. reflexivity.
  - lia.
  - lia.
Defined.

(** C5: the default constructor allocates the starting position: exactly
    the four centre cells are non-empty, (3,3) and (4,4) Black, (3,4) and
    (4,3) White, two pieces each; on it [get_valid_moves] returns exactly
    four moves for Black and exactly four for White. *)
Theorem initial_position w :
  ∃ s w' a,
    OthelloState_init None w = Ok (s, w')
    ∧ store w' !! board s = Some a
    ∧ filter (λ m, cell a m.1 m.2 ≠ 0) all_cells = [(3, 3); (3, 4); (4, 3); (4, 4)]
    ∧ cell a 3 3 = 1 ∧ cell a 3 4 = -1 ∧ cell a 4 3 = -1 ∧ cell a 4 4 = 1
    ∧ length (filter (λ v, v = 1) a) = 2%nat
    ∧ length (filter (λ v, v = -1) a) = 2%nat
    ∧ res (get_valid_moves s 1 w') = Ok [(2, 4); (3, 5); (4, 2); (5, 3)]
    ∧ res (get_valid_moves s (-1) w') = Ok [(2, 3); (3, 2); (4, 5); (5, 4)].
Proof.
  destruct (run_spec _ _ _ (OthelloState_init_spec w))
    as (s & w' & Hrun & Hs & Hst & _).
  assert (store w' !! board s = Some initial_cells) as Hb.
  { rewrite Hs, Hst. by rewrite lookup_app_r, Nat.sub_diag by lia. }
  exists s, w', initial_cells. split; [done|]. split; [done|].
  split; [by vm_compute|]. do 4 (split; [by vm_compute|]).
  split; [by vm_compute|]. split; [by vm_compute|].
  assert (length initial_cells = 64%nat) as Hlen by done.
  split.
  - destruct (run_spec _ _ _ (get_valid_moves_spec s _ Hlen w' 1 Hb))
      as (r & w1 & -> & -> & _). by vm_compute.
  - destruct (run_spec _ _ _ (get_valid_moves_spec s _ Hlen w' (-1) Hb))
      as (r & w1 & -> & -> & _). by vm_compute.
Qed.

(** C6: on a board of the data model, [evaluate] returns the sum over the
    64 cells of the cell's signed value times its positional weight: 4 on
    the four corners, 2 on the other edge cells, 1 elsewhere. *)
Theorem evaluate_weighted_sum w self a :
  store w !! board self = Some a → wf_board a →
  res (evaluate self w) = Ok (weighted_sum a).
Proof.
  intros Hb [Hlen Ha].
  destruct (run_spec _ _ _ (evaluate_spec self a Hlen w Hb))
    as (v & w' & -> & -> & _).
  cbn [res]. by rewrite evaluate_cells_sum.
Qed.

Lemma evaluate_weighted_sum_witness :
  res (evaluate {| board := 0 |} initial_world) = Ok (weighted_sum initial_cells).
Proof.
  apply (evaluate_weighted_sum initial_world {| board := 0 |} initial_cells).
  - reflexivity.
  - exact wf_initial_cells.
Defined.

(** C7: [evaluate] on the board with every cell negated (Black and White
    swapped) is the negation of [evaluate] on the board. *)
Theorem evaluate_antisymmetric w w' self self' a :
  store w !! board self = Some a →
  store w' !! board self' = Some (Z.opp <$> a) →
  wf_board a →
  ∃ v, res (evaluate self w) = Ok v ∧ res (evaluate self' w') = Ok (- v).
Proof.
  intros Hb Hb' Hwf. exists (weighted_sum a).
  split; [by apply evaluate_weighted_sum|].
  rewrite <- weighted_sum_opp.
  apply evaluate_weighted_sum; [done | by apply wf_board_opp].
Qed.

Lemma evaluate_antisymmetric_witness :
  ∃ v, res (evaluate {| board := 0 |} initial_world) = Ok v
       ∧ res (evaluate {| board := 1 |}
                {| store := [initial_cells; Z.opp <$> initial_cells];
                   trace := [] |}) = Ok (- v).
Proof.
  apply (evaluate_antisymmetric initial_world _ {| board := 0 |}
           {| board := 1 |} initial_cells).
  - reflexivity.
  - reflexivity.
  - exact wf_initial_cells.
Defined.

(** * The move search: claims *)

(** C2: with max depth 1, [a_star_search] returns the candidate move whose
    child node has the lowest priority score among the children of the
    single expansion; among candidates of equal lowest score, the earliest
    in the row-major enumeration of [get_valid_moves] is returned.  With no
    candidate it returns [None].  ([successor_score self a 0 m] is the
    [f_score] of the child pushed for [m], see [push_successors_spec].) *)
Theorem depth_one_returns_first_best w self s a fuel :
  store w !! board s = Some a → wf_board a → is_player (player self) →
  ∃ moves,
    res (get_valid_moves s (player self) w) = Ok moves
    ∧ match res (a_star_search (S (S fuel)) self s 1 w) with
      | Ok None => moves = []
      | Ok (Some m) =>
          ∃ i, moves !! i = Some m
               ∧ (∀ j m', moves !! j = Some m' →
                    successor_score self a 0 m ≤ successor_score self a 0 m')
               ∧ (∀ j m', (j < i)%nat → moves !! j = Some m' →
                    successor_score self a 0 m < successor_score self a 0 m')
      | _ => False
      end.
Proof.
  intros Hb [Hlen Hwf] Hp. exists (valid_moves_cells a (player self)).
  split.
  { destruct (run_spec _ _ _ (get_valid_moves_spec s a Hlen w (player self) Hb))
      as (r & w1 & -> & -> & _). done. }
  set (moves := valid_moves_cells a (player self)).
  set (Q := λ (r : option (Z * Z)) (_ : world),
    match r with
    | None => moves = []
    | Some m =>
        ∃ i, moves !! i = Some m
             ∧ (∀ j m', moves !! j = Some m' →
                  successor_score self a 0 m ≤ successor_score self a 0 m')
             ∧ (∀ j m', (j < i)%nat → moves !! j = Some m' →
                  successor_score self a 0 m < successor_score self a 0 m')
    end).
  assert (wp (a_star_search (S (S fuel)) self s 1) w Q) as Hwp.
  2:{ apply run_spec in Hwp as (r & w' & -> & HQ). cbn [res].
      by destruct r. }
  unfold a_star_search. apply wp_bind.
  eapply wp_lift; [apply heappush_empty|].
  cbn [search_loop]. apply wp_bind.
  eapply wp_mono.
  { eapply search_step_spec; [apply heappop_singleton | exact Hb | exact Hlen]. }
  cbv beta. intros st w1 Hst. cbn [g_score path state] in Hst.
  rewrite decide_False in Hst by lia.
  rewrite decide_False in Hst by set_solver.
  cbv zeta in Hst. destruct Hst as (fr' & -> & Hpush & Hst1 & Hex1).
  rewrite side_to_move_root in Hpush. fold moves in Hpush.
  set (succs := successors self a 0 [] (length (store w)) moves) in *.
  assert (Forall (λ m, valid_cells a m.1 m.2 (side_to_move self 0) = true) moves)
    as Hvalid by apply valid_moves_valid.
  pose proof (length_successors self a 0 [] (length (store w)) moves Hvalid)
    as Hlensucc. fold succs in Hlensucc.
  destruct (push_all_ok SearchNode_lt (fst <$> succs) [])
    as (fr2 & Hpush2 & Hperm).
  rewrite Hpush in Hpush2. injection Hpush2 as <-. cbn [app] in Hperm.
  destruct fr' as [|n0 fr0].
  - apply wp_ret. unfold Q.
    apply Permutation_nil_l in Hperm. apply (f_equal length) in Hperm.
    rewrite length_fmap, Hlensucc in Hperm. by destruct moves.
  - apply wp_bind.
    destruct (heappop_ok SearchNode_lt (n0 :: fr0)) as (n & rest & Hpop & _ & Hroot);
      [done|].
    rewrite (push_all_first_min _ _ Hpush) in Hroot.
    pose proof (first_min_spec (fst <$> succs)) as Hfm. rewrite Hroot in Hfm.
    destruct Hfm as (i & Hi & Hmin & Hfirst).
    assert (∀ j m', moves !! j = Some m' →
      ∃ c, (fst <$> succs) !! j = Some c
           ∧ f_score c = successor_score self a 0 m'
           ∧ g_score c = 1 ∧ path c = [m']) as Hchild.
    { intros j m' Hj. eexists. split.
      - rewrite list_lookup_fmap. unfold succs.
        by erewrite successors_lookup.
      - done. }
    destruct (lookup_lt_is_Some_2 moves i) as [m Hm].
    { rewrite <- Hlensucc, <- (length_fmap fst succs). by eapply lookup_lt_Some. }
    destruct (Hchild i m Hm) as (c & Hc & Hfc & Hgc & Hpc).
    rewrite Hi in Hc. injection Hc as <-.
    unfold wp. rewrite (search_step_return _ _ _ _ _ n rest Hpop) by lia.
    rewrite Hpc. cbn [head]. unfold Q. exists i. split; [done|].
    rewrite <- Hfc. split.
    + intros j m' Hj. destruct (Hchild j m' Hj) as (c & Hc & <- & _).
      by eapply Hmin.
    + intros j m' Hji Hj. destruct (Hchild j m' Hj) as (c & Hc & <- & _).
      by eapply Hfirst.
Qed.

Lemma depth_one_returns_first_best_witness :
  ∃ moves,
    res (get_valid_moves {| board := 0 |} 1 initial_world) = Ok moves
    ∧ match res (a_star_search 2 {| player := 1 |} {| board := 0 |} 1
                   initial_world) with
      | Ok None => moves = []
      | Ok (Some m) =>
          ∃ i, moves !! i = Some m
               ∧ (∀ j m', moves !! j = Some m' →
                    successor_score {| player := 1 |} initial_cells 0 m
                    ≤ successor_score {| player := 1 |} initial_cells 0 m')
               ∧ (∀ j m', (j < i)%nat → moves !! j = Some m' →
                    successor_score {| player := 1 |} initial_cells 0 m
                    < successor_score {| player := 1 |} initial_cells 0 m')
      | _ => False
      end.
Proof.
  apply (depth_one_returns_first_best initial_world {| player := 1 |}
           {| board := 0 |} initial_cells 0).
  - reflexivity.
  - exact wf_initial_cells.
  - left. reflexivity.
Defined.

(** C9: on a well-formed board, [a_star_search] (and so [get_move], which
    runs it with depth bound 4) terminates: there is an amount of fuel from
    which on every run returns the same result, which is a move with both
    coordinates in [0,7] or [None]; no exception is raised. *)
Theorem get_move_terminates w self s a :
  store w !! board s = Some a → wf_board a → is_player (player self) →
  (∀ max_depth, ∃ fuel r w',
     (∀ fuel', (fuel ≤ fuel')%nat →
        a_star_search fuel' self s max_depth w = Ok (r, w'))
     ∧ (r = None ∨ ∃ x y, r = Some (x, y) ∧ 0 ≤ x < 8 ∧ 0 ≤ y < 8))
  ∧ ∃ fuel r w',
      (∀ fuel', (fuel ≤ fuel')%nat → get_move fuel' self s w = Ok (r, w'))
      ∧ (r = None ∨ ∃ x y, r = Some (x, y) ∧ 0 ≤ x < 8 ∧ 0 ≤ y < 8).
Proof.
  intros Hb Hwf Hp. split.
  - intros max_depth.
    destruct (a_star_search_returns w self s a max_depth Hb Hwf Hp)
      as (fuel & r & w' & Hrun & Hr & _). by exists fuel, r, w'.
  - destruct (a_star_search_returns w self s a 4 Hb Hwf Hp)
      as (fuel & r & w' & Hrun & Hr & _). by exists fuel, r, w'.
Qed.

Lemma get_move_terminates_witness :
  (∀ max_depth, ∃ fuel r w',
     (∀ fuel', (fuel ≤ fuel')%nat →
        a_star_search fuel' {| player := 1 |} {| board := 0 |} max_depth
          initial_world = Ok (r, w'))
     ∧ (r = None ∨ ∃ x y, r = Some (x, y) ∧ 0 ≤ x < 8 ∧ 0 ≤ y < 8))
  ∧ ∃ fuel r w',
      (∀ fuel', (fuel ≤ fuel')%nat →
         get_move fuel' {| player := 1 |} {| board := 0 |} initial_world
         = Ok (r, w'))
      ∧ (r = None ∨ ∃ x y, r = Some (x, y) ∧ 0 ≤ x < 8 ∧ 0 ≤ y < 8).
Proof.
  apply (get_move_terminates initial_world {| player := 1 |} {| board := 0 |}
           initial_cells).
  - reflexivity.
  - exact wf_initial_cells.
  - left. reflexivity.
Defined.

(** C8: within one run of [a_star_search] no board layout is expanded more
    than once.  Every state of the loop is a state of the run: after some
    number of passes the run goes on as the loop from it.  There the
    explored set holds exactly the layouts (the 64 cell values, nothing
    else) of the boards expanded so far, each of them once, and a node
    popped from the frontier whose layout is one of them is skipped:
    nothing is pushed, the explored set and the world stay as they are,
    whatever the depth and the path of the node. *)
Theorem no_layout_expanded_twice self max_depth s w0 a0 frontier explored w log :
  store w0 !! board s = Some a0 → wf_board a0 → is_player (player self) →
  reachable self max_depth s w0 frontier explored w log →
  (∃ k, ∀ fuel,
     a_star_search (k + fuel) self s max_depth w0
     = search_loop fuel self max_depth frontier explored w)
  ∧ NoDup log
  ∧ (∀ h, h ∈ explored ↔ h ∈ log)
  ∧ ∀ n rest h,
      heappop SearchNode_lt frontier = Ok (n, rest) →
      store w !! board (state n) = Some h →
      h ∈ log →
      search_step self max_depth frontier explored w = Ok (Skipped n rest, w).
Proof.
  intros Hb Hwf Hp Hreach.
  destruct (reachable_inv _ _ _ _ _ _ _ _ _ Hb Hwf Hp Hreach)
    as (Hinv & Hnd & Hex & Hdepth & _).
  split; [by eapply reachable_run|].
  split; [done|]. split; [done|]. intros n rest h Hpop Hh Hlog.
  assert (frontier ≠ []) as Hne by (by intros ->).
  destruct (search_step_cases self max_depth _ frontier explored w Hp Hne Hinv)
    as (n' & rest' & a & Hpop' & _ & Hb' & Hn & Hwp).
  rewrite Hpop in Hpop'. injection Hpop' as <- <-.
  rewrite Hh in Hb'. injection Hb' as <-.
  destruct Hn as (a' & Ha' & _ & _ & HE & _).
  rewrite Hh in Ha'. injection Ha' as <-.
  specialize (Hdepth h Hlog). apply Hex in Hlog.
  apply run_spec in Hwp as (st & w2 & -> & Hcases).
  destruct Hcases as [(Hg & _) | [(_ & _ & -> & ->) | (_ & Hnin & _)]];
    [lia | done | done].
Qed.

(** On [transposition_cells] the search for Black at depth 4 expands six
    layouts; the seventh node popped reaches the layout expanded last by
    the other order of moves, and is skipped. *)
Lemma no_layout_expanded_twice_witness :
  ∃ explored w log h,
    loop_passes 6 {| player := 1 |} 4
      (start_state {| board := 0 |} transposition_world)
    = Some ([transposition_node], explored, w, log)
    ∧ length log = 6%nat
    ∧ heappop SearchNode_lt [transposition_node] = Ok (transposition_node, [])
    ∧ store w !! board (state transposition_node) = Some h
    ∧ log !! 0%nat = Some h
    ∧ (∃ k, ∀ fuel,
         a_star_search (k + fuel) {| player := 1 |} {| board := 0 |} 4
           transposition_world
         = search_loop fuel {| player := 1 |} 4 [transposition_node]
             explored w)
    ∧ NoDup log
    ∧ (∀ h', h' ∈ explored ↔ h' ∈ log)
    ∧ search_step {| player := 1 |} 4 [transposition_node] explored w
      = Ok (Skipped transposition_node [], w).
Proof.
  assert ((λ st : loop_state, st.1.1.1)
          <$> loop_passes 6 {| player := 1 |} 4
                (start_state {| board := 0 |} transposition_world)
          = Some [transposition_node]) as Hfr by (vm_compute; reflexivity).
  assert ((λ st : loop_state, length st.2)
          <$> loop_passes 6 {| player := 1 |} 4
                (start_state {| board := 0 |} transposition_world)
          = Some 6%nat) as Hlen by (vm_compute; reflexivity).
  assert ((λ st : loop_state,
             bool_decide (store st.1.2 !! 6%nat = st.2 !! 0%nat
                          ∧ is_Some (st.2 !! 0%nat)))
          <$> loop_passes 6 {| player := 1 |} 4
                (start_state {| board := 0 |} transposition_world)
          = Some true) as Hh by (vm_compute; reflexivity).
  destruct (loop_passes 6 {| player := 1 |} 4
              (start_state {| board := 0 |} transposition_world))
    as [[[[frontier explored] w] log]|] eqn:Hrun; [|done].
  cbn [fmap option_fmap option_map fst snd] in Hfr, Hlen, Hh.
  injection Hfr as ->. injection Hlen as Hlen. injection Hh as Hh.
  apply bool_decide_eq_true in Hh as [Hh [h Hh0]]. rewrite Hh0 in Hh.
  exists explored, w, log, h.
  split; [done|]. split; [done|]. split; [by vm_compute|].
  split; [done|]. split; [done|].
  destruct (no_layout_expanded_twice {| player := 1 |} 4 {| board := 0 |}
           transposition_world transposition_cells [transposition_node]
           explored w log)
    as (Hlink & Hnd & Hex & Hskip).
  - reflexivity.
  - exact wf_transposition_cells.
  - left. reflexivity.
  - eapply loop_passes_reachable; [|exact Hrun].
    apply reachable_start. reflexivity.
  - split; [exact Hlink|]. split; [exact Hnd|]. split; [exact Hex|].
    apply (Hskip _ _ h); [by vm_compute | exact Hh |].
    by eapply list_elem_of_lookup_2.
Defined.

Lemma empties_le_length a : (empties a ≤ length a)%nat.
Proof. apply length_filter. Qed.

(** C3: for a node of the search (any node in the frontier of a reachable
    state) of depth [g] and a legal move for the side to move, the loop body
    pushes the child [SearchNode(g + 1 + h, g + 1, S, ...)], where [S] is
    the state returned by [make_move] and [h] is [evaluate(S)] when the
    searching player is Black (+1) and [-evaluate(S)] when White (-1). *)
Theorem successor_priority self max_depth s w0 a0 frontier explored w log
    n w1 move fr :
  store w0 !! board s = Some a0 → wf_board a0 → is_player (player self) →
  reachable self max_depth s w0 frontier explored w log →
  n ∈ frontier →
  (∀ b a, store w !! b = Some a → store w1 !! b = Some a) →
  0 ≤ move.1 < 8 → 0 ≤ move.2 < 8 →
  res (is_valid_move (state n) move.1 move.2
         (side_to_move self (g_score n)) w1) = Ok true →
  ∃ S w2 e w3 fr',
    make_move (state n) move.1 move.2 (side_to_move self (g_score n)) w1
    = Ok (Some S, w2)
    ∧ evaluate S w2 = Ok (e, w3)
    ∧ push_successor self (state n) (g_score n) (path n) move fr w1
      = Ok (fr', w3)
    ∧ heappush SearchNode_lt fr
        {| f_score := g_score n + 1
                      + (if decide (player self = 1) then e else - e);
           g_score := g_score n + 1;
           state := S;
           path := match path n with [] => [move] | _ => path n end |}
      = Ok fr'.
Proof.
  intros Hb0 Hwf0 Hp Hreach Hin Hsub Hx Hy Hlegal.
  destruct (reachable_inv _ _ _ _ _ _ _ _ _ Hb0 Hwf0 Hp Hreach) as (Hinv & _).
  eapply Forall_forall in Hinv; [|exact Hin].
  destruct Hinv as (a & Hb & Hwf & Hg0 & HE & _).
  apply Hsub in Hb. destruct Hwf as [Hlen Hcv].
  set (p := side_to_move self (g_score n)) in *.
  destruct (run_spec _ _ _ (is_valid_move_spec (state n) a Hlen w1 _ _ p Hb Hx Hy))
    as (v & wv & Hrun & -> & _).
  rewrite Hrun in Hlegal. injection Hlegal as Hvalid.
  destruct (run_spec _ _ _ (make_move_spec (state n) a w1 _ _ p Hb Hlen Hx Hy))
    as (r & w2 & Hmm & _ & Hr).
  rewrite Hvalid in Hr. destruct Hr as [-> Hst2].
  set (S := {| board := length (store w1) |}) in *.
  set (cells := make_move_cells a move.1 move.2 p) in *.
  assert (wf_board cells) as [Hlenc Hcvc].
  { apply wf_make_move_cells; [by apply side_to_move_player | done]. }
  assert (store w2 !! board S = Some cells) as Hbc.
  { unfold S. cbn [board]. rewrite Hst2.
    by rewrite lookup_app_r, Nat.sub_diag by lia. }
  destruct (run_spec _ _ _ (evaluate_spec S cells Hlenc w2 Hbc))
    as (e & w3 & Hev & -> & _).
  rewrite evaluate_cells_sum in * by done.
  pose proof (weighted_sum_bounds cells Hcvc) as Hbound.
  pose proof (empties_le_length a) as Hle. rewrite Hlen in Hle.
  pose proof (empties_le_length a0) as Hle0.
  rewrite (proj1 Hwf0) in Hle0.
  set (e := weighted_sum cells) in *. clearbody e cells.
  set (child := {| f_score := g_score n + 1
                              + (if decide (player self = 1) then e else - e);
                   g_score := g_score n + 1; state := S;
                   path := match path n with [] => [move] | _ => path n end |}).
  destruct (heappush_ok SearchNode_lt fr child) as (fr' & Hpush & _).
  exists S, w2, e, w3, fr'. split; [done|]. split; [done|]. split; [|done].
  unfold push_successor, mbind, M_bind. fold p. rewrite Hmm, Hev.
  assert (2 ^ 63 = 9223372036854775808) as E63 by done.
  assert ((if decide (player self = -1) then wrap64 (- e) else e)
          = (if decide (player self = 1) then e else - e)) as ->.
  { destruct Hp as [Hp|Hp]; rewrite Hp.
    - rewrite decide_False by lia. by rewrite decide_True.
    - rewrite decide_True by done. rewrite decide_False by lia.
      apply wrap64_small. lia. }
  rewrite wrap64_small by (case_decide; lia).
  assert (match path n with [] => path n ++ [move] | _ => path n end
          = match path n with [] => [move] | _ => path n end) as ->
    by (by destruct (path n)).
  fold child. unfold lift. by rewrite Hpush.
Qed.

Lemma successor_priority_witness :
  ∃ S w2 e w3 fr',
    make_move {| board := 0 |} 2 4 1 initial_world = Ok (Some S, w2)
    ∧ evaluate S w2 = Ok (e, w3)
    ∧ push_successor {| player := 1 |} {| board := 0 |} 0 [] (2, 4) []
        initial_world = Ok (fr', w3)
    ∧ heappush SearchNode_lt []
        {| f_score := 0 + 1 + (if decide (1 = 1) then e else - e);
           g_score := 0 + 1;
           state := S;
           path := [(2, 4)] |}
      = Ok fr'.
Proof.
  apply (successor_priority {| player := 1 |} 4 {| board := 0 |} initial_world
           initial_cells
           [{| f_score := 0; g_score := 0; state := {| board := 0 |};
               path := [] |}]
           ∅ initial_world []
           {| f_score := 0; g_score := 0; state := {| board := 0 |}; path := [] |}
           initial_world (2, 4) []).
  - reflexivity.
  - exact wf_initial_cells.
  - left. reflexivity.
  - apply reachable_start. reflexivity.
  - left.
  - intros b a Hb. exact Hb.
  - simpl. lia.
  - simpl. lia.
  - vm_compute. reflexivity.
Defined.

(** * Further properties of the board model *)

Lemma all_cells_NoDup : NoDup all_cells.
Proof. apply (bool_decide_unpack _). vm_compute. exact I. Qed.

Lemma elem_of_all_cells x y : (x, y) ∈ all_cells ↔ 0 ≤ x < 8 ∧ 0 ≤ y < 8.
Proof.
  split.
  - intros Hin. pose proof all_cells_on_board as H.
    by eapply Forall_forall in H; [|exact Hin].
  - intros [Hx Hy].
    assert (x ∈ range8 ∧ y ∈ range8) as [Hx' Hy'].
    { unfold range8. rewrite !elem_of_cons. lia. }
    unfold all_cells. apply list_elem_of_bind. exists x. split; [|done].
    apply list_elem_of_bind. exists y. split; [by left | done].
Qed.

(** X1: [get_valid_moves] returns exactly the coordinates of the board on
    which [is_valid_move] holds, each once, in row-major order (a sublist
    of the row-major enumeration of the 64 cells); it leaves every array as
    it is. *)
Theorem get_valid_moves_exact w self a p :
  store w !! board self = Some a → length a = 64%nat →
  ∃ moves w',
    get_valid_moves self p w = Ok (moves, w')
    ∧ store w' = store w
    ∧ NoDup moves
    ∧ moves `sublist_of` all_cells
    ∧ ∀ x y, (x, y) ∈ moves
             ↔ 0 ≤ x < 8 ∧ 0 ≤ y < 8
               ∧ res (is_valid_move self x y p w) = Ok true.
Proof.
  intros Hb Hlen.
  destruct (run_spec _ _ _ (get_valid_moves_spec self a Hlen w p Hb))
    as (moves & w' & Hrun & -> & Hst & _).
  exists (valid_moves_cells a p), w'. split; [done|]. split; [done|].
  split; [apply NoDup_filter, all_cells_NoDup|].
  split; [apply sublist_filter|].
  intros x y. unfold valid_moves_cells.
  rewrite list_elem_of_filter, elem_of_all_cells. cbn [fst snd]. split.
  - intros (Hv & Hx & Hy). split; [done|]. split; [done|].
    destruct (run_spec _ _ _ (is_valid_move_spec self a Hlen w x y p Hb Hx Hy))
      as (v & w1 & -> & -> & _). cbn [res]. by rewrite Hv.
  - intros (Hx & Hy & Hv). split; [|done].
    destruct (run_spec _ _ _ (is_valid_move_spec self a Hlen w x y p Hb Hx Hy))
      as (v & w1 & Hrun1 & -> & _). rewrite Hrun1 in Hv. by injection Hv.
Qed.

Lemma get_valid_moves_exact_witness :
  ∃ moves w',
    get_valid_moves {| board := 0 |} 1 initial_world = Ok (moves, w')
    ∧ store w' = store initial_world
    ∧ NoDup moves
    ∧ moves `sublist_of` all_cells
    ∧ ∀ x y, (x, y) ∈ moves
             ↔ 0 ≤ x < 8 ∧ 0 ≤ y < 8
               ∧ res (is_valid_move {| board := 0 |} x y 1 initial_world)
                 = Ok true.
Proof.
  apply (get_valid_moves_exact initial_world {| board := 0 |} initial_cells 1).
  - reflexivity.
  - reflexivity.
Defined.

(** X2: a row or a column outside [-8, 8) makes [is_valid_move] and
    [make_move] raise [IndexError], for every world, board and player. *)
Theorem out_of_range_raises w self row col p :
  ¬ (-8 ≤ row < 8) ∨ ¬ (-8 ≤ col < 8) →
  is_valid_move self row col p w = Raise IndexError
  ∧ make_move self row col p w = Raise IndexError.
Proof.
  intros Hout.
  assert (is_valid_move self row col p w = Raise IndexError) as Hv.
  { unfold is_valid_move, board_get, mbind, M_bind, log_access, lift, np_index.
    destruct Hout as [Hr|Hc].
    - rewrite !decide_False by lia. done.
    - repeat case_decide; try done; lia. }
  split; [done|]. unfold make_move, mbind, M_bind. fold (@mbind M _).
  unfold M_bind. by rewrite Hv.
Qed.

Lemma out_of_range_raises_witness :
  is_valid_move {| board := 0 |} 8 0 1 initial_world = Raise IndexError
  ∧ make_move {| board := 0 |} 8 0 1 initial_world = Raise IndexError.
Proof.
  apply (out_of_range_raises initial_world {| board := 0 |} 8 0 1).
  left. lia.
Defined.

(** X3: [make_move] on an occupied cell, or on an empty cell from which no
    direction would flip, returns [None]; no array is allocated or
    changed. *)
Theorem make_move_illegal w self a row col p :
  store w !! board self = Some a → length a = 64%nat →
  0 ≤ row < 8 → 0 ≤ col < 8 →
  (cell a row col ≠ 0 → res (is_valid_move self row col p w) = Ok false)
  ∧ (res (is_valid_move self row col p w) = Ok false →
     ∃ w', make_move self row col p w = Ok (None, w') ∧ store w' = store w).
Proof.
  intros Hb Hlen Hr Hc.
  destruct (run_spec _ _ _ (is_valid_move_spec self a Hlen w row col p Hb Hr Hc))
    as (v & w1 & Hrun & -> & _).
  destruct (run_spec _ _ _ (make_move_spec self a w row col p Hb Hlen Hr Hc))
    as (r & w' & Hmm & _ & Hres).
  rewrite Hrun. cbn [res]. split.
  - intros Hocc. unfold valid_cells. by rewrite bool_decide_eq_false_2.
  - intros [= Hv]. rewrite Hv in Hres. destruct Hres as [-> Hst].
    by exists w'.
Qed.

Lemma make_move_illegal_witness :
  (cell initial_cells 3 3 ≠ 0 →
   res (is_valid_move {| board := 0 |} 3 3 1 initial_world) = Ok false)
  ∧ (res (is_valid_move {| board := 0 |} 3 3 1 initial_world) = Ok false →
     ∃ w', make_move {| board := 0 |} 3 3 1 initial_world = Ok (None, w')
           ∧ store w' = store initial_world).
Proof.
  apply (make_move_illegal initial_world {| board := 0 |} initial_cells 3 3 1).
  - reflexivity.
  - reflexivity.
  - lia.
  - lia.
Defined.

Lemma set_cells_cell p l a x y :
  cell (set_cells p l a) x y = cell a x y ∨ cell (set_cells p l a) x y = p.
Proof.
  revert a. induction l as [|m l IH]; intros a; [by left|].
  rewrite set_cells_cons. destruct (IH (<[idx m.1 m.2 := p]> a)) as [-> | ->];
    [|by right].
  destruct (decide (idx m.1 m.2 < length a)%nat).
  - rewrite cell_insert by done. case_decide; [by right | by left].
  - rewrite list_insert_ge by lia. by left.
Qed.

Lemma flip_cells_cell row col p ds a x y :
  cell (flip_cells row col p ds a) x y = cell a x y
  ∨ cell (flip_cells row col p ds a) x y = p.
Proof.
  revert a. induction ds as [|d ds IH]; intros a; [by left|].
  rewrite flip_cells_cons.
  destruct (IH (set_cells p (captured a row col d.1 d.2 p) a)) as [-> | ->];
    [|by right].
  apply set_cells_cell.
Qed.

(** X4: a legal move on a board of the data model yields a board of the
    data model with exactly one empty cell fewer; every cell either keeps
    its value or becomes the mover's, and the mover's pieces stay. *)
Theorem make_move_invariants w self a row col p :
  store w !! board self = Some a → wf_board a → is_player p →
  0 ≤ row < 8 → 0 ≤ col < 8 →
  res (is_valid_move self row col p w) = Ok true →
  ∃ new w' a',
    make_move self row col p w = Ok (Some new, w')
    ∧ store w' !! board new = Some a'
    ∧ wf_board a'
    ∧ S (empties a') = empties a
    ∧ (∀ x y, cell a' x y = cell a x y ∨ cell a' x y = p)
    ∧ (∀ x y, cell a x y = p → cell a' x y = p).
Proof.
  intros Hb Hwf Hp Hr Hc Hlegal. pose proof Hwf as [Hlen Hcv].
  destruct (run_spec _ _ _ (is_valid_move_spec self a Hlen w row col p Hb Hr Hc))
    as (v & w1 & Hrun & -> & _).
  rewrite Hrun in Hlegal. injection Hlegal as Hvalid.
  destruct (run_spec _ _ _ (make_move_spec self a w row col p Hb Hlen Hr Hc))
    as (r & w' & Hmm & _ & Hres).
  rewrite Hvalid in Hres. destruct Hres as [-> Hst].
  eexists _, w', _. split; [done|]. split.
  { cbn [board]. rewrite Hst. by rewrite lookup_app_r, Nat.sub_diag by lia. }
  split; [by apply wf_make_move_cells|]. split.
  { apply empties_make_move_cells; [destruct Hp; lia | done..|].
    by apply valid_cells_empty in Hvalid. }
  split.
  - intros x y. unfold make_move_cells.
    destruct (flip_cells_cell row col p directions (<[idx row col := p]> a) x y)
      as [-> | ->]; [|by right].
    rewrite cell_insert by (rewrite Hlen; by apply idx_lt).
    case_decide; [by right | by left].
  - intros x y Hxy. unfold make_move_cells.
    apply flip_cells_keep; [by rewrite length_insert|].
    rewrite cell_insert by (rewrite Hlen; by apply idx_lt). by case_decide.
Qed.

Lemma make_move_invariants_witness :
  ∃ new w' a',
    make_move {| board := 0 |} 2 4 1 initial_world = Ok (Some new, w')
    ∧ store w' !! board new = Some a'
    ∧ wf_board a'
    ∧ S (empties a') = empties initial_cells
    ∧ (∀ x y, cell a' x y = cell initial_cells x y ∨ cell a' x y = 1)
    ∧ (∀ x y, cell initial_cells x y = 1 → cell a' x y = 1).
Proof.
  apply (make_move_invariants initial_world {| board := 0 |} initial_cells 2 4 1).
  - reflexivity.
  - exact wf_initial_cells.
  - left. reflexivity.
  - lia.
  - lia.
  - vm_compute. reflexivity.
Defined.

(** * The scan, declaratively *)

Lemma ray_Some_1 fuel a x y dx dy p tf l :
  ray fuel a x y dx dy p tf = Some l →
  ∃ n : nat,
    l = tf ++ ((λ i : nat, (x + Z.of_nat i * dx, y + Z.of_nat i * dy)) <$> seq 0 n)
    ∧ (∀ i : nat, (i < n)%nat → opponent_at a p (x + Z.of_nat i * dx, y + Z.of_nat i * dy))
    ∧ 0 ≤ x + Z.of_nat n * dx < 8 ∧ 0 ≤ y + Z.of_nat n * dy < 8
    ∧ cell a (x + Z.of_nat n * dx) (y + Z.of_nat n * dy) = p.
Proof.
  revert x y tf. induction fuel as [|fuel IH]; intros x y tf; cbn [ray]; [done|].
  destruct (on_board x y) eqn:Hon; [|done].
  apply on_board_spec in Hon as [Hx Hy].
  destruct (decide (cell a x y = 0)) as [|Hne0]; [done|].
  destruct (decide (cell a x y = p)) as [Hp|Hnp].
  - intros [= <-]. exists 0%nat. cbn [seq fmap list_fmap].
    change (Z.of_nat 0) with 0. rewrite app_nil_r, !Z.mul_0_l, !Z.add_0_r.
    split; [done|]. split; [lia | done].
  - intros (n & -> & Hopp & Hbx & Hby & Hc)%IH. exists (S n).
    split.
    { rewrite <- app_assoc. f_equal. cbn [seq fmap list_fmap app].
      change (Z.of_nat 0) with 0. rewrite !Z.mul_0_l, !Z.add_0_r. f_equal.
      rewrite <- fmap_S_seq, <- list_fmap_compose. apply list_fmap_ext.
      intros _ i _. cbn. f_equal; lia. }
    split.
    { intros [|i] Hi.
      - change (Z.of_nat 0) with 0. rewrite !Z.mul_0_l, !Z.add_0_r. done.
      - replace (x + Z.of_nat (S i) * dx) with (x + dx + Z.of_nat i * dx) by lia.
        replace (y + Z.of_nat (S i) * dy) with (y + dy + Z.of_nat i * dy) by lia.
        apply Hopp. lia. }
    replace (x + Z.of_nat (S n) * dx) with (x + dx + Z.of_nat n * dx) by lia.
    replace (y + Z.of_nat (S n) * dy) with (y + dy + Z.of_nat n * dy) by lia. done.
Qed.

Lemma ray_Some_2 fuel a x y dx dy p tf (n : nat) :
  p ≠ 0 → (n < fuel)%nat →
  (∀ i : nat, (i < n)%nat → opponent_at a p (x + Z.of_nat i * dx, y + Z.of_nat i * dy)) →
  0 ≤ x + Z.of_nat n * dx < 8 → 0 ≤ y + Z.of_nat n * dy < 8 →
  cell a (x + Z.of_nat n * dx) (y + Z.of_nat n * dy) = p →
  ray fuel a x y dx dy p tf
  = Some (tf ++ ((λ i : nat, (x + Z.of_nat i * dx, y + Z.of_nat i * dy)) <$> seq 0 n)).
Proof.
  intros Hp0. revert x y tf n.
  induction fuel as [|fuel IH]; intros x y tf n Hfuel Hopp Hbx Hby Hc; [lia|].
  cbn [ray]. destruct n as [|n].
  - change (Z.of_nat 0) with 0 in *. rewrite !Z.mul_0_l, !Z.add_0_r in *.
    rewrite (proj2 (on_board_spec x y)) by done.
    rewrite decide_False by congruence. rewrite decide_True by done.
    cbn. by rewrite app_nil_r.
  - destruct (Hopp 0%nat) as (Hx & Hy & Hne0 & Hnp); [lia|].
    cbn [fst snd] in *. change (Z.of_nat 0) with 0 in *.
    rewrite !Z.mul_0_l, !Z.add_0_r in *.
    rewrite (proj2 (on_board_spec x y)) by done.
    rewrite !decide_False by done.
    rewrite (IH (x + dx) (y + dy) _ n); [| lia | | lia | lia |].
    + rewrite <- app_assoc. f_equal. f_equal. cbn [seq fmap list_fmap app].
      change (Z.of_nat 0) with 0. rewrite !Z.mul_0_l, !Z.add_0_r. f_equal.
      rewrite <- fmap_S_seq, <- list_fmap_compose. apply list_fmap_ext.
      intros _ i _. cbn. f_equal; lia.
    + intros i Hi.
      replace (x + dx + Z.of_nat i * dx) with (x + Z.of_nat (S i) * dx) by lia.
      replace (y + dy + Z.of_nat i * dy) with (y + Z.of_nat (S i) * dy) by lia.
      apply Hopp. lia.
    + replace (x + dx + Z.of_nat n * dx) with (x + Z.of_nat (S n) * dx) by lia.
      replace (y + dy + Z.of_nat n * dy) with (y + Z.of_nat (S n) * dy) by lia. done.
Qed.

Lemma run_along_short a row col dx dy p n :
  (dx, dy) ∈ directions → run_along a row col dx dy p n → n ≤ 7.
Proof.
  intros Hd%direction_cases (Hn & Hopp & Hx & Hy & _).
  destruct (Hopp 1) as (Hx1 & Hy1 & _); [lia|]. cbn [fst snd] in *. nia.
Qed.

Lemma captured_run a row col dx dy p n :
  (dx, dy) ∈ directions → p ≠ 0 → run_along a row col dx dy p n →
  captured a row col dx dy p
  = (λ i : nat, (row + dx + Z.of_nat i * dx, col + dy + Z.of_nat i * dy))
      <$> seq 0 (Z.to_nat n).
Proof.
  intros Hd Hp0 Hrun. pose proof (run_along_short _ _ _ _ _ _ _ Hd Hrun) as Hshort.
  destruct Hrun as (Hn & Hopp & Hx & Hy & Hc). unfold captured.
  rewrite (ray_Some_2 scan_fuel a (row + dx) (col + dy) dx dy p [] (Z.to_nat n)).
  - done.
  - done.
  - unfold scan_fuel. lia.
  - intros i Hi.
    replace (row + dx + Z.of_nat i * dx) with (row + (Z.of_nat i + 1) * dx) by lia.
    replace (col + dy + Z.of_nat i * dy) with (col + (Z.of_nat i + 1) * dy) by lia.
    apply Hopp. lia.
  - replace (row + dx + Z.of_nat (Z.to_nat n) * dx) with (row + (n + 1) * dx)
      by lia. done.
  - replace (col + dy + Z.of_nat (Z.to_nat n) * dy) with (col + (n + 1) * dy)
      by lia. done.
  - replace (row + dx + Z.of_nat (Z.to_nat n) * dx) with (row + (n + 1) * dx)
      by lia.
    replace (col + dy + Z.of_nat (Z.to_nat n) * dy) with (col + (n + 1) * dy)
      by lia. done.
Qed.

Lemma captured_elem a row col dx dy p x y :
  (x, y) ∈ captured a row col dx dy p →
  ∃ n k, run_along a row col dx dy p n ∧ 1 ≤ k ≤ n
         ∧ x = row + k * dx ∧ y = col + k * dy.
Proof.
  unfold captured.
  destruct (ray scan_fuel a (row + dx) (col + dy) dx dy p []) as [l|] eqn:E;
    cbn [default]; [|by intros ?%elem_of_nil].
  apply ray_Some_1 in E as (n & -> & Hopp & Hx & Hy & Hc). cbn [app].
  intros (i & [= -> ->] & Hi%elem_of_seq)%list_elem_of_fmap.
  exists (Z.of_nat n), (Z.of_nat i + 1). split.
  - split; [lia|]. split.
    + intros k Hk. specialize (Hopp (Z.to_nat (k - 1))).
      rewrite Z2Nat.id in Hopp by lia.
      replace (row + k * dx) with (row + dx + (k - 1) * dx) by lia.
      replace (col + k * dy) with (col + dy + (k - 1) * dy) by lia.
      apply Hopp. lia.
    + replace (row + (Z.of_nat n + 1) * dx) with (row + dx + Z.of_nat n * dx)
        by lia.
      replace (col + (Z.of_nat n + 1) * dy) with (col + dy + Z.of_nat n * dy)
        by lia. done.
  - split; [lia|]. split; lia.
Qed.

Lemma would_flip_cells_iff a row col dx dy p :
  (dx, dy) ∈ directions → p ≠ 0 →
  would_flip_cells a row col dx dy p = true
  ↔ ∃ n, run_along a row col dx dy p n.
Proof.
  intros Hd Hp0. split.
  - intros Hw%would_flip_cells_adjacent.
    apply captured_elem in Hw as (n & k & Hrun & _). by exists n.
  - intros [n Hrun]. unfold would_flip_cells.
    rewrite (captured_run _ _ _ _ _ _ n Hd Hp0 Hrun), length_fmap, length_seq.
    apply bool_decide_eq_true. destruct Hrun as [Hn _]. lia.
Qed.

(** X5: the legality rule.  On an 8x8 board [is_valid_move] returns true
    exactly when the cell is empty and in one of the eight directions
    there is a run of one or more pieces that are not the mover's,
    directly followed, on the board, by one of the mover's pieces. *)
Theorem is_valid_move_rule w self a row col p :
  store w !! board self = Some a → length a = 64%nat →
  0 ≤ row < 8 → 0 ≤ col < 8 → p ≠ 0 →
  res (is_valid_move self row col p w) = Ok true
  ↔ cell a row col = 0
    ∧ ∃ dx dy n, (dx, dy) ∈ directions ∧ run_along a row col dx dy p n.
Proof.
  intros Hb Hlen Hr Hc Hp0.
  destruct (run_spec _ _ _ (is_valid_move_spec self a Hlen w row col p Hb Hr Hc))
    as (v & w1 & -> & -> & _).
  cbn [res]. unfold valid_cells. split.
  - intros Hv.
    assert (bool_decide (cell a row col = 0)
            && existsb (λ d, would_flip_cells a row col d.1 d.2 p) directions
            = true) as Hv' by congruence.
    clear Hv. apply andb_true_iff in Hv' as [H0 Hex].
    apply bool_decide_eq_true in H0. split; [done|].
    apply existsb_exists in Hex as ([dx dy] & Hin & Hw).
    apply list_elem_of_In in Hin.
    apply would_flip_cells_iff in Hw as [n Hrun]; [|done..].
    by exists dx, dy, n.
  - intros (H0 & dx & dy & n & Hd & Hrun). f_equal.
    apply andb_true_iff. split; [by apply bool_decide_eq_true|].
    apply existsb_exists. exists (dx, dy). split; [by apply list_elem_of_In|].
    apply would_flip_cells_iff; [done..|]. by exists n.
Qed.

Lemma is_valid_move_rule_witness :
  res (is_valid_move {| board := 0 |} 2 4 1 initial_world) = Ok true
  ↔ cell initial_cells 2 4 = 0
    ∧ ∃ dx dy n, (dx, dy) ∈ directions ∧ run_along initial_cells 2 4 dx dy 1 n.
Proof.
  apply (is_valid_move_rule initial_world {| board := 0 |} initial_cells 2 4 1).
  - reflexivity.
  - reflexivity.
  - lia.
  - lia.
  - lia.
Defined.

(** * The captures of a move, declaratively *)

(** The scan in a direction depends only on the cells it walks over. *)
Lemma ray_ext fuel a1 a2 x y dx dy p tf :
  (∀ i : nat,
     0 ≤ x + Z.of_nat i * dx < 8 → 0 ≤ y + Z.of_nat i * dy < 8 →
     cell a1 (x + Z.of_nat i * dx) (y + Z.of_nat i * dy)
     = cell a2 (x + Z.of_nat i * dx) (y + Z.of_nat i * dy)) →
  ray fuel a1 x y dx dy p tf = ray fuel a2 x y dx dy p tf.
Proof.
  revert x y tf. induction fuel as [|fuel IH]; intros x y tf Hagree; [done|].
  cbn [ray]. pose proof (Hagree 0%nat) as H0.
  change (Z.of_nat 0) with 0 in H0. rewrite !Z.mul_0_l, !Z.add_0_r in H0.
  destruct (on_board x y) eqn:Hon; [|done].
  apply on_board_spec in Hon as [Hx Hy]. rewrite H0 by done.
  destruct (decide (cell a2 x y = 0)); [done|].
  destruct (decide (cell a2 x y = p)); [done|].
  apply IH. intros i. specialize (Hagree (S i)).
  replace (x + dx + Z.of_nat i * dx) with (x + Z.of_nat (S i) * dx) by lia.
  replace (y + dy + Z.of_nat i * dy) with (y + Z.of_nat (S i) * dy) by lia.
  done.
Qed.

Lemma captured_ext a1 a2 row col dx dy p :
  (∀ k, 1 ≤ k → 0 ≤ row + k * dx < 8 → 0 ≤ col + k * dy < 8 →
     cell a1 (row + k * dx) (col + k * dy)
     = cell a2 (row + k * dx) (col + k * dy)) →
  captured a1 row col dx dy p = captured a2 row col dx dy p.
Proof.
  intros Hagree. unfold captured. f_equal. apply ray_ext. intros i.
  replace (row + dx + Z.of_nat i * dx) with (row + (Z.of_nat i + 1) * dx) by lia.
  replace (col + dy + Z.of_nat i * dy) with (col + (Z.of_nat i + 1) * dy) by lia.
  apply Hagree. lia.
Qed.

(** Two of the eight directions never meet away from their origin. *)
Lemma rays_disjoint dx dy dx' dy' k k' :
  (dx, dy) ∈ directions → (dx', dy') ∈ directions → 1 ≤ k → 1 ≤ k' →
  k * dx = k' * dx' → k * dy = k' * dy' → (dx, dy) = (dx', dy').
Proof.
  intros Hd%direction_cases Hd'%direction_cases Hk Hk' Hx Hy.
  destruct Hd as ([-> | [-> | ->]] & [-> | [-> | ->]] & Hnz),
           Hd' as ([-> | [-> | ->]] & [-> | [-> | ->]] & Hnz');
    try (f_equal; lia); exfalso; lia.
Qed.

Lemma set_cells_other p l a x y :
  length a = 64%nat → 0 ≤ x < 8 → 0 ≤ y < 8 →
  Forall (λ m, 0 ≤ m.1 < 8 ∧ 0 ≤ m.2 < 8) l →
  (x, y) ∉ l → cell (set_cells p l a) x y = cell a x y.
Proof.
  intros Hlen Hx Hy. revert a Hlen.
  induction l as [|m l IH]; intros a Hlen Hl Hnin; [done|].
  inversion Hl as [|? ? [Hmx Hmy] Hl']; subst. rewrite set_cells_cons.
  apply not_elem_of_cons in Hnin as [Hne Hnin].
  rewrite IH by (done || by rewrite length_insert).
  rewrite cell_insert by (rewrite Hlen; by apply idx_lt).
  case_decide as E; [|done]. apply idx_inj in E as [E1 E2]; [|done..].
  destruct m as [mx my]. cbn [fst snd] in *. by subst.
Qed.

Lemma captured_elem_ray a row col dx dy p x y :
  (x, y) ∈ captured a row col dx dy p →
  0 ≤ x < 8 ∧ 0 ≤ y < 8 ∧ ∃ k, 1 ≤ k ∧ x = row + k * dx ∧ y = col + k * dy.
Proof.
  intros Hin. pose proof (captured_opponent a row col dx dy p) as Hopp.
  eapply Forall_forall in Hopp as (Hx & Hy & _); [|exact Hin].
  apply captured_elem in Hin as (n & k & _ & Hk & -> & ->).
  split; [done|]. split; [done|]. exists k. split; [lia | done].
Qed.

(** Processing the directions one after the other on the array being
    updated captures what each direction captures on the array the move
    started from. *)
Lemma flip_cells_char a row col p ds a1 x y :
  NoDup ds → ds ⊆ directions → length a1 = 64%nat →
  0 ≤ x < 8 → 0 ≤ y < 8 →
  (∀ dx dy k, (dx, dy) ∈ ds → 1 ≤ k →
     0 ≤ row + k * dx < 8 → 0 ≤ col + k * dy < 8 →
     cell a1 (row + k * dx) (col + k * dy) = cell a (row + k * dx) (col + k * dy)) →
  ((∃ d, d ∈ ds ∧ (x, y) ∈ captured a row col d.1 d.2 p) →
   cell (flip_cells row col p ds a1) x y = p)
  ∧ ((∀ d, d ∈ ds → (x, y) ∉ captured a row col d.1 d.2 p) →
     cell (flip_cells row col p ds a1) x y = cell a1 x y).
Proof.
  intros Hnd Hsub Hlen Hx Hy. revert a1 Hlen.
  induction Hnd as [|[dx dy] ds Hnin Hnd IH]; intros a1 Hlen Hagree.
  { split; [by intros (d & ?%elem_of_nil & _) | done]. }
  rewrite flip_cells_cons. cbn [fst snd].
  assert (captured a1 row col dx dy p = captured a row col dx dy p) as Hcap.
  { apply captured_ext. intros k Hk Hbx Hby. apply Hagree; [by left | done..]. }
  rewrite Hcap.
  set (l := captured a row col dx dy p) in *.
  assert (Forall (λ m, 0 ≤ m.1 < 8 ∧ 0 ≤ m.2 < 8) l) as Hlb.
  { eapply opponent_on_board, captured_opponent. }
  destruct (IH (λ d Hd, Hsub d (list_elem_of_further _ _ _ Hd))
               (set_cells p l a1)) as [IH1 IH2].
  { by rewrite length_set_cells. }
  { intros dx' dy' k Hd' Hk Hbx Hby.
    rewrite <- (Hagree dx' dy' k) by (by right || done).
    apply set_cells_other; [done..|]. intros Hin.
    apply captured_elem_ray in Hin as (_ & _ & k' & Hk' & Ex & Ey).
    assert ((dx', dy') = (dx, dy)) as E.
    { apply (rays_disjoint _ _ _ _ k k'); [| |done|done|lia|lia].
      - apply Hsub. by right.
      - apply Hsub. by left. }
    rewrite E in Hd'. done. }
  split.
  - intros (d & [-> | Hd]%elem_of_cons & Hin).
    + cbn [fst snd] in Hin. fold l in Hin.
      destruct (decide (Exists (λ d, (x, y) ∈ captured a row col d.1 d.2 p) ds))
        as [Hex|Hnex].
      * apply IH1. by apply Exists_exists in Hex.
      * rewrite IH2.
        -- by apply (set_cells_in p l a1 (x, y)).
        -- intros d Hd Hin'. apply Hnex, Exists_exists. by exists d.
    + apply IH1. by exists d.
  - intros Hnone. rewrite IH2.
    + apply set_cells_other; [done..|]. apply (Hnone (dx, dy)). by left.
    + intros d Hd. apply Hnone. by right.
Qed.

Lemma directions_NoDup : NoDup directions.
Proof. apply (bool_decide_unpack _). vm_compute. exact I. Qed.

Lemma captured_by_iff a row col p x y :
  p ≠ 0 →
  captured_by a row col p x y
  ↔ ∃ d, d ∈ directions ∧ (x, y) ∈ captured a row col d.1 d.2 p.
Proof.
  intros Hp0. split.
  - intros (dx & dy & n & k & Hd & Hrun & Hk & -> & ->). exists (dx, dy).
    split; [done|]. cbn [fst snd].
    rewrite (captured_run _ _ _ _ _ _ n Hd Hp0 Hrun).
    apply list_elem_of_fmap. exists (Z.to_nat (k - 1)). split.
    + rewrite Z2Nat.id by lia. f_equal; lia.
    + apply elem_of_seq. lia.
  - intros ([dx dy] & Hd & Hin). cbn [fst snd] in Hin.
    apply captured_elem in Hin as (n & k & Hrun & Hk & -> & ->).
    by exists dx, dy, n, k.
Qed.

(** X6: what a legal move changes.  In the board that [make_move] returns
    the target cell and every piece of a run that the move closes in one of
    the eight directions (the pieces strictly between the target and the
    first piece of the mover in that direction, none of them empty) hold
    the mover's value; every other cell holds the value it had. *)
Theorem make_move_captures w self a row col p :
  store w !! board self = Some a → length a = 64%nat →
  0 ≤ row < 8 → 0 ≤ col < 8 → p ≠ 0 →
  res (is_valid_move self row col p w) = Ok true →
  ∃ new w' a',
    make_move self row col p w = Ok (Some new, w')
    ∧ store w' !! board new = Some a'
    ∧ ∀ x y, 0 ≤ x < 8 → 0 ≤ y < 8 →
        ((x, y) = (row, col) → cell a' x y = p)
        ∧ (captured_by a row col p x y → cell a' x y = p)
        ∧ ((x, y) ≠ (row, col) → ¬ captured_by a row col p x y →
           cell a' x y = cell a x y).
Proof.
  intros Hb Hlen Hr Hc Hp0 Hlegal.
  destruct (run_spec _ _ _ (is_valid_move_spec self a Hlen w row col p Hb Hr Hc))
    as (v & w1 & Hrun & -> & _).
  rewrite Hrun in Hlegal. injection Hlegal as Hvalid.
  destruct (run_spec _ _ _ (make_move_spec self a w row col p Hb Hlen Hr Hc))
    as (r & w' & Hmm & _ & Hres).
  rewrite Hvalid in Hres. destruct Hres as [-> Hst].
  eexists _, w', _. split; [done|]. split.
  { cbn [board]. rewrite Hst. by rewrite lookup_app_r, Nat.sub_diag by lia. }
  intros x y Hx Hy.
  destruct (flip_cells_char a row col p directions (<[idx row col := p]> a) x y)
    as [Hin Hout]; [apply directions_NoDup | done | by rewrite length_insert
                   | done | done | |].
  { intros dx dy k Hd Hk Hbx Hby.
    rewrite cell_insert by (rewrite Hlen; by apply idx_lt).
    case_decide as E; [|done]. apply idx_inj in E as [E1 E2]; [|done..].
    apply direction_cases in Hd. exfalso. nia. }
  fold (make_move_cells a row col p) in Hin, Hout.
  split; [|split].
  - intros [= -> ->]. by apply make_move_cells_target.
  - intros Hcap. apply Hin. by apply captured_by_iff.
  - intros Hne Hncap. rewrite Hout.
    + rewrite cell_insert by (rewrite Hlen; by apply idx_lt).
      case_decide as E; [|done]. apply idx_inj in E as [E1 E2]; [|done..].
      by subst.
    + intros d Hd Hin'. apply Hncap, captured_by_iff; [done|]. by exists d.
Qed.

Lemma make_move_captures_witness :
  ∃ new w' a',
    make_move {| board := 0 |} 2 4 1 initial_world = Ok (Some new, w')
    ∧ store w' !! board new = Some a'
    ∧ ∀ x y, 0 ≤ x < 8 → 0 ≤ y < 8 →
        ((x, y) = (2, 4) → cell a' x y = 1)
        ∧ (captured_by initial_cells 2 4 1 x y → cell a' x y = 1)
        ∧ ((x, y) ≠ (2, 4) → ¬ captured_by initial_cells 2 4 1 x y →
           cell a' x y = cell initial_cells x y).
Proof.
  apply (make_move_captures initial_world {| board := 0 |} initial_cells 2 4 1).
  - reflexivity.
  - reflexivity.
  - lia.
  - lia.
  - lia.
  - vm_compute. reflexivity.
Defined.

(** * Further properties of the move search *)

Lemma path_ok_mono self a0 w w' n :
  (∀ b a, store w !! b = Some a → store w' !! b = Some a) →
  path_ok self a0 w n → path_ok self a0 w' n.
Proof.
  intros Hsub. unfold path_ok. destruct (path n); [|done].
  intros [Hg Hb]. split; [done | by apply Hsub].
Qed.

Lemma search_step_paths self max_depth a0 frontier explored w n rest a :
  heappop SearchNode_lt frontier = Ok (n, rest) →
  store w !! board (state n) = Some a → length a = 64%nat →
  path_ok self a0 w n → Forall (path_ok self a0 w) rest →
  wp (search_step self max_depth frontier explored) w (λ st w',
    match st with
    | Expanded _ frontier' _ => Forall (path_ok self a0 w') frontier'
    | _ => True
    end).
Proof.
  intros Hpop Hb Hlen Hn Hrest. eapply wp_mono.
  { eapply search_step_spec; [exact Hpop | exact Hb | exact Hlen]. }
  cbv beta. intros st w' Hst.
  destruct (decide (max_depth ≤ g_score n)); [by destruct Hst as [-> _]|].
  destruct (decide (a ∈ explored)); [by destruct Hst as [-> _]|].
  cbv zeta in Hst. destruct Hst as (fr' & -> & Hpush & Hst' & _).
  set (succs := successors self a (g_score n) (path n) (length (store w))
                  (valid_moves_cells a (side_to_move self (g_score n)))) in *.
  destruct (push_all_ok SearchNode_lt (fst <$> succs) rest)
    as (fr2 & Hpush2 & Hperm).
  rewrite Hpush in Hpush2. injection Hpush2 as <-.
  assert (∀ b a1, store w !! b = Some a1 → store w' !! b = Some a1) as Hsub.
  { intros b a1 Hb1. rewrite Hst'. by apply lookup_app_l_Some. }
  rewrite Hperm. apply Forall_app. split.
  - eapply Forall_impl; [exact Hrest|]. intros x. by apply path_ok_mono.
  - apply Forall_forall. intros c [k Hk]%list_elem_of_lookup_1.
    rewrite list_lookup_fmap in Hk.
    destruct (succs !! k) as [[c' cells]|] eqn:Hk'; [|done].
    injection Hk as <-.
    destruct (successors_elem _ _ _ _ _ _ _ _ _ Hk')
      as (_ & _ & m & _ & Hv & _ & _ & Hpc).
    unfold path_ok in Hn |- *. rewrite Hpc.
    destruct (path n) as [|m0 pth]; [|done].
    destruct Hn as [Hg Hb0]. rewrite Hb in Hb0. injection Hb0 as <-.
    by rewrite Hg, side_to_move_root in Hv.
Qed.

(** The loop returns [None] or a move that is legal for the searching
    player on the board the search started from; the arrays that existed
    are left as they were. *)
Lemma search_loop_legal self max_depth E0 a0 fuel frontier explored w :
  is_player (player self) →
  Forall (node_ok E0 w) frontier → Forall (path_ok self a0 w) frontier →
  (sum_list_with (weight E0) frontier < fuel)%nat →
  wp (search_loop fuel self max_depth frontier explored) w (λ r w',
    match r with
    | None => True
    | Some m => valid_cells a0 m.1 m.2 (player self) = true
    end
    ∧ ∀ b a, store w !! b = Some a → store w' !! b = Some a).
Proof.
  intros Hp. revert frontier explored w.
  induction fuel as [|fuel IH]; intros frontier explored w Hinv Hpaths Hfuel;
    [lia|].
  cbn [search_loop]. destruct frontier as [|n0 fr0] eqn:Efr.
  { by apply wp_ret. }
  rewrite <- Efr in *. assert (frontier ≠ []) as Hne by (by rewrite Efr).
  destruct (search_step_cases self max_depth E0 frontier explored w Hp Hne Hinv)
    as (n & rest & a & Hpop & Hperm & Hb & Hn & Hstep).
  rewrite Hperm in Hpaths. apply Forall_cons in Hpaths as [Hpn Hprest].
  pose proof Hn as (a' & Ha' & [Hlen _] & _).
  rewrite Hb in Ha'. injection Ha' as <-.
  pose proof (search_step_paths self max_depth a0 frontier explored w n rest a
                Hpop Hb Hlen Hpn Hprest) as Hstep2.
  apply wp_bind. eapply wp_mono; [exact (wp_and _ _ _ _ Hstep Hstep2)|].
  cbv beta.
  intros st w' [[(Hg & -> & ->) | [(Hg & Hin & -> & ->) | (Hg & Hnin & Hex)]] Hp2].
  - apply wp_ret. split; [|done]. unfold path_ok in Hpn.
    by destruct (path n).
  - apply IH; [| done |].
    + rewrite Hperm in Hinv. by apply Forall_cons in Hinv as [_ ?].
    + rewrite Hperm in Hfuel. cbn in Hfuel. pose proof (weight_pos E0 n). lia.
  - destruct Hex as (fr' & -> & Hinv' & Hlt & Hsub & Hext).
    eapply wp_mono; [apply IH; [done | done | lia]|]. cbv beta.
    intros r w'' [Hr Hsub']. split; [done | by auto].
Qed.

(** X7: [a_star_search] (for any depth bound, so also [get_move]) returns
    [None] or a move that is legal for the searching player on the board it
    was called on, and leaves every existing array as it was, so that the
    caller's [make_move] with the returned move yields a new state. *)
Theorem search_returns_legal_move w self s a max_depth :
  store w !! board s = Some a → wf_board a → is_player (player self) →
  ∃ fuel r w',
    (∀ fuel', (fuel ≤ fuel')%nat →
       a_star_search fuel' self s max_depth w = Ok (r, w'))
    ∧ (∀ b a1, store w !! b = Some a1 → store w' !! b = Some a1)
    ∧ match r with
      | None => True
      | Some (x, y) =>
          res (is_valid_move s x y (player self) w) = Ok true
          ∧ ∃ new w2, make_move s x y (player self) w' = Ok (Some new, w2)
      end.
Proof.
  intros Hb Hwf Hp. pose proof Hwf as [Hlen _].
  set (start := {| f_score := 0; g_score := 0; state := s; path := [] |}).
  set (E0 := Z.of_nat (empties a)).
  set (fuel := S (sum_list_with (weight E0) [start])).
  assert (Forall (node_ok E0 w) [start]) as Hinv.
  { apply Forall_singleton. by apply node_ok_start. }
  assert (Forall (path_ok self a w) [start]) as Hpaths.
  { apply Forall_singleton. by split. }
  destruct (run_spec _ _ _
    (search_loop_legal self max_depth E0 a fuel [start] ∅ w Hp Hinv Hpaths
       (Nat.lt_succ_diag_r _)))
    as (r & w' & Hrun & Hr & Hsub).
  exists fuel, r, w'. split; [|split; [done|]].
  - intros fuel' Hle. unfold a_star_search.
    unfold mbind, M_bind, lift. rewrite heappush_empty.
    by eapply search_loop_fuel_le.
  - destruct r as [[x y]|]; [|done]. cbn [fst snd] in Hr.
    assert (0 ≤ x < 8 ∧ 0 ≤ y < 8) as [Hx Hy].
    { destruct (a_star_search_returns w self s a max_depth Hb Hwf Hp)
        as (fuel1 & r1 & w1 & Hrun1 & Hr1 & _).
      specialize (Hrun1 (fuel1 `max` fuel)%nat (Nat.le_max_l _ _)).
      unfold a_star_search in Hrun1.
      unfold mbind, M_bind, lift in Hrun1. rewrite heappush_empty in Hrun1.
      rewrite (search_loop_fuel_le _ _ fuel _ _ _ _ _ (Nat.le_max_r _ _) Hrun)
        in Hrun1.
      injection Hrun1 as <- <-.
      destruct Hr1 as [|(x' & y' & [= <- <-] & ?)]; done. }
    destruct (run_spec _ _ _
      (is_valid_move_spec s a Hlen w x y (player self) Hb Hx Hy))
      as (v & wv & -> & -> & _).
    cbn [res]. split; [by rewrite Hr|].
    destruct (run_spec _ _ _
      (make_move_spec s a w' x y (player self) (Hsub _ _ Hb) Hlen Hx Hy))
      as (r' & w2 & Hmm & _ & Hres).
    rewrite Hr in Hres. destruct Hres as [-> _]. by eexists _, _.
Qed.

Lemma search_returns_legal_move_witness :
  ∃ fuel r w',
    (∀ fuel', (fuel ≤ fuel')%nat →
       a_star_search fuel' {| player := 1 |} {| board := 0 |} 4 initial_world
       = Ok (r, w'))
    ∧ (∀ b a1, store initial_world !! b = Some a1 → store w' !! b = Some a1)
    ∧ match r with
      | None => True
      | Some (x, y) =>
          res (is_valid_move {| board := 0 |} x y 1 initial_world) = Ok true
          ∧ ∃ new w2, make_move {| board := 0 |} x y 1 w' = Ok (Some new, w2)
      end.
Proof.
  apply (search_returns_legal_move initial_world {| player := 1 |}
           {| board := 0 |} initial_cells 4).
  - reflexivity.
  - exact wf_initial_cells.
  - left. reflexivity.
Defined.

(** X8: with a depth bound of 0 or less [a_star_search] returns [None] at
    the first pass through the loop, without reading the board, even when
    the player has legal moves; the world is left as it is. *)
Theorem search_depth_zero w self s max_depth fuel :
  max_depth ≤ 0 →
  a_star_search (S fuel) self s max_depth w = Ok (None, w).
Proof.
  intros Hd. unfold a_star_search. unfold mbind, M_bind, lift.
  rewrite heappush_empty. cbn [search_loop]. unfold mbind, M_bind.
  by rewrite (search_step_return _ _ _ _ _ _ [] (heappop_singleton _)).
Qed.

Lemma search_depth_zero_witness :
  a_star_search 1 {| player := 1 |} {| board := 0 |} 0 initial_world
  = Ok (None, initial_world).
Proof.
  apply (search_depth_zero initial_world {| player := 1 |} {| board := 0 |} 0 0).
  lia.
Defined.

(** X9: when the searching player has no legal move on the board
    ([get_valid_moves] returns the empty list) and the depth bound is
    positive, [a_star_search] returns [None], the signal to pass, after one
    expansion; no array is allocated or changed. *)
Theorem search_passes_without_moves w self s a max_depth fuel :
  store w !! board s = Some a → length a = 64%nat → 0 < max_depth →
  res (get_valid_moves s (player self) w) = Ok [] →
  ∃ w', a_star_search (S (S fuel)) self s max_depth w = Ok (None, w')
        ∧ store w' = store w.
Proof.
  intros Hb Hlen Hd Hnone.
  destruct (run_spec _ _ _ (get_valid_moves_spec s a Hlen w (player self) Hb))
    as (moves & w1 & Hrun & -> & _).
  rewrite Hrun in Hnone. injection Hnone as Hmoves.
  assert (wp (a_star_search (S (S fuel)) self s max_depth) w
            (λ r w', r = None ∧ store w' = store w)) as Hwp.
  2:{ apply run_spec in Hwp as (r & w' & -> & -> & Hst). by exists w'. }
  unfold a_star_search. apply wp_bind.
  eapply wp_lift; [apply heappush_empty|].
  cbn [search_loop]. apply wp_bind. eapply wp_mono.
  { eapply search_step_spec; [apply heappop_singleton | exact Hb | exact Hlen]. }
  cbv beta. intros st w' Hst. cbn [g_score path state] in Hst.
  rewrite decide_False in Hst by lia.
  rewrite decide_False in Hst by set_solver.
  cbv zeta in Hst. rewrite side_to_move_root, Hmoves in Hst.
  cbn [successors fmap list_fmap push_all] in Hst.
  destruct Hst as (fr' & -> & [= <-] & Hst' & _).
  apply wp_ret. rewrite app_nil_r in Hst'. done.
Qed.

Lemma search_passes_without_moves_witness :
  ∃ w', a_star_search 2 {| player := 1 |} {| board := 0 |} 4
          {| store := [replicate 64 0]; trace := [] |} = Ok (None, w')
        ∧ store w' = [replicate 64 0].
Proof.
  apply (search_passes_without_moves {| store := [replicate 64 0]; trace := [] |}
           {| player := 1 |} {| board := 0 |} (replicate 64 0) 4 0).
  - reflexivity.
  - reflexivity.
  - lia.
  - vm_compute. reflexivity.
Defined.

(** Nodes below the depth bound whose side to move has no legal move are
    popped one after the other, with nothing pushed. *)
Lemma search_loop_dead self max_depth fuel frontier explored w :
  Forall (λ n, g_score n < max_depth
               ∧ ∃ a, store w !! board (state n) = Some a
                      ∧ length a = 64%nat
                      ∧ valid_moves_cells a (side_to_move self (g_score n)) = [])
         frontier →
  (length frontier < fuel)%nat →
  wp (search_loop fuel self max_depth frontier explored) w
     (λ r w', r = None ∧ store w' = store w).
Proof.
  revert frontier explored w.
  induction fuel as [|fuel IH]; intros frontier explored w Hdead Hfuel; [lia|].
  cbn [search_loop]. destruct frontier as [|n0 fr0] eqn:Efr.
  { by apply wp_ret. }
  rewrite <- Efr in *. assert (frontier ≠ []) as Hne by (by rewrite Efr).
  destruct (heappop_ok SearchNode_lt frontier Hne) as (n & rest & Hpop & Hperm & _).
  rewrite Hperm in Hdead, Hfuel. apply Forall_cons in Hdead as [Hn Hrest].
  destruct Hn as (Hg & a & Hb & Hlen & Hmoves). cbn [length] in Hfuel.
  apply wp_bind. eapply wp_mono.
  { eapply search_step_spec; [exact Hpop | exact Hb | exact Hlen]. }
  cbv beta. intros st w' Hst.
  rewrite decide_False in Hst by lia.
  destruct (decide (a ∈ explored)).
  - destruct Hst as [-> ->]. apply IH; [done | lia].
  - cbv zeta in Hst. rewrite Hmoves in Hst.
    cbn [successors fmap list_fmap push_all] in Hst.
    destruct Hst as (fr' & -> & [= <-] & Hst' & _).
    rewrite app_nil_r in Hst'. eapply wp_mono.
    + apply IH; [|lia]. eapply Forall_impl; [exact Hrest|].
      intros x (? & ax & ? & ?). split; [done|]. exists ax.
      by rewrite Hst'.
    + cbv beta. intros r w'' [-> Hst'']. split; [done | congruence].
Qed.

Lemma search_loop_cons fuel self max_depth n frontier explored :
  search_loop (S fuel) self max_depth (n :: frontier) explored
  = (s ← search_step self max_depth (n :: frontier) explored;
     match s with
     | Returned r => mret r
     | Skipped _ frontier => search_loop fuel self max_depth frontier explored
     | Expanded _ frontier explored =>
         search_loop fuel self max_depth frontier explored
     end).
Proof. done. Qed.

(** X10: the search can pass although a legal move exists.  When the depth
    bound is 2 or more and every legal move of the searching player leaves
    the opponent without a legal move, no node ever reaches the depth
    bound, the frontier runs empty, and [a_star_search] returns [None]. *)
Theorem search_passes_when_opponent_is_stuck w self s a max_depth moves :
  store w !! board s = Some a → wf_board a → is_player (player self) →
  2 ≤ max_depth →
  res (get_valid_moves s (player self) w) = Ok moves →
  Forall (λ m, ∃ new w1,
            make_move s m.1 m.2 (player self) w = Ok (Some new, w1)
            ∧ res (get_valid_moves new (- player self) w1) = Ok []) moves →
  ∃ fuel r w',
    (∀ fuel', (fuel ≤ fuel')%nat →
       a_star_search fuel' self s max_depth w = Ok (r, w'))
    ∧ r = None.
Proof.
  intros Hb [Hlen Hcv] Hp Hd Hmoves Hstuck.
  destruct (run_spec _ _ _ (get_valid_moves_spec s a Hlen w (player self) Hb))
    as (moves' & w1 & Hrun & -> & _).
  rewrite Hrun in Hmoves. injection Hmoves as <-.
  set (moves := valid_moves_cells a (player self)) in *.
  set (start := {| f_score := 0; g_score := 0; state := s; path := [] |}).
  assert (wp (search_loop (S (S (S (length moves)))) self max_depth [start] ∅) w
            (λ r w', r = None ∧ True)) as Hwp.
  2:{ apply run_spec in Hwp as (r & w' & Hloop & -> & _).
      exists (S (S (S (length moves)))), None, w'. split; [|done].
      intros fuel' Hle. unfold a_star_search, mbind, M_bind, lift.
      rewrite heappush_empty. by eapply search_loop_fuel_le. }
  rewrite search_loop_cons. apply wp_bind. eapply wp_mono.
  { eapply search_step_spec; [apply heappop_singleton | exact Hb | exact Hlen]. }
  cbv beta. intros st w' Hst. unfold start in Hst.
  cbn [g_score path state] in Hst.
  rewrite decide_False in Hst by lia.
  rewrite decide_False in Hst by set_solver.
  cbv zeta in Hst. rewrite side_to_move_root in Hst. fold moves in Hst.
  destruct Hst as (fr' & -> & Hpush & Hst' & _).
  set (succs := successors self a 0 [] (length (store w)) moves) in *.
  destruct (push_all_ok SearchNode_lt (fst <$> succs) [])
    as (fr2 & Hpush2 & Hperm).
  rewrite Hpush in Hpush2. injection Hpush2 as <-. cbn [app] in Hperm.
  eapply wp_mono.
  - apply search_loop_dead.
    + rewrite Hperm. apply Forall_forall.
      intros c [k Hk]%list_elem_of_lookup_1. rewrite list_lookup_fmap in Hk.
      destruct (succs !! k) as [[c' cells]|] eqn:Hk'; [|done].
      injection Hk as <-.
      destruct (successors_elem _ _ _ _ _ _ _ _ _ Hk')
        as (Hbc & Hgc & m & Hin & Hv & -> & _).
      rewrite side_to_move_root in Hv.
      split; [lia|].
      exists (make_move_cells a m.1 m.2 (side_to_move self 0)).
      split.
      { rewrite Hbc, Hst', lookup_app_r by lia.
        replace (length (store w) + k - length (store w))%nat with k by lia.
        by rewrite list_lookup_fmap, Hk'. }
      split; [by rewrite length_make_move_cells|].
      rewrite Hgc, side_to_move_root.
      assert (side_to_move self (0 + 1) = - player self) as -> by done.
      eapply Forall_forall in Hstuck as (new & w2 & Hmm & Hgv); [|exact Hin].
      pose proof (valid_moves_on_board a (player self)) as Hon.
      eapply Forall_forall in Hon as [Hx Hy]; [|exact Hin].
      destruct (run_spec _ _ _
        (make_move_spec s a w m.1 m.2 (player self) Hb Hlen Hx Hy))
        as (r' & w3 & Hmm' & _ & Hres).
      rewrite Hmm in Hmm'. injection Hmm' as <- <-.
      rewrite Hv in Hres. destruct Hres as [[= ->] Hst3].
      assert (store w2 !! board {| board := length (store w) |}
              = Some (make_move_cells a m.1 m.2 (player self))) as Hb2.
      { cbn [board]. rewrite Hst3. by rewrite lookup_app_r, Nat.sub_diag by lia. }
      destruct (run_spec _ _ _
        (get_valid_moves_spec _ _ (eq_trans (length_make_move_cells _ _ _ _) Hlen)
           w2 (- player self) Hb2))
        as (mv & w4 & Hgv' & -> & _).
      rewrite Hgv' in Hgv. by injection Hgv.
    + rewrite Hperm, length_fmap.
      pose proof (length_successors_le self a 0 [] (length (store w)) moves).
      fold succs in H. lia.
  - cbv beta. by intros r w'' [-> _].
Qed.

Lemma search_passes_when_opponent_is_stuck_witness :
  ∃ fuel r w',
    (∀ fuel', (fuel ≤ fuel')%nat →
       a_star_search fuel' {| player := 1 |} {| board := 0 |} 4
         last_capture_world = Ok (r, w'))
    ∧ r = None.
Proof.
  apply (search_passes_when_opponent_is_stuck last_capture_world
           {| player := 1 |} {| board := 0 |} last_capture_cells 4 [(0, 0)]).
  - reflexivity.
  - apply (bool_decide_unpack _). vm_compute. exact I.
  - left. reflexivity.
  - lia.
  - vm_compute. reflexivity.
  - constructor; [|constructor].
    eexists _, _. split; vm_compute; reflexivity.
Defined.

(** * The frontier is a min-heap *)

Lemma half_spec n : (2 * (n / 2) ≤ n < 2 * (n / 2) + 2)%nat.
Proof.
  pose proof (Nat.div_mod_eq n 2). pose proof (Nat.mod_upper_bound n 2). lia.
Qed.

(** Facts on the parent index that arithmetic needs. *)
Ltac parent i := pose proof (half_spec (i - 1)).

Lemma heap_ordered_root_min heap r x :
  heap_ordered heap → heap !! 0%nat = Some r → x ∈ heap →
  f_score r ≤ f_score x.
Proof.
  intros Hord Hroot [i Hi]%list_elem_of_lookup_1. revert x Hi.
  induction i as [i IH] using lt_wf_ind. intros x Hi.
  destruct (decide (i = 0%nat)) as [->|Hne].
  { rewrite Hroot in Hi. injection Hi as ->. lia. }
  destruct (lookup_lt_is_Some_2 heap ((i - 1) / 2)%nat) as [y Hy].
  { apply lookup_lt_Some in Hi. parent i. lia. }
  parent i.
  specialize (IH ((i - 1) / 2)%nat ltac:(lia) y Hy).
  specialize (Hord i x y ltac:(lia) Hi Hy). lia.
Qed.

(** [siftdown_loop] towards the root: the heap is ordered except at the
    hole [pos], whose children are at least [newitem] and at least the
    parent of [pos]; the result is ordered. *)
Lemma siftdown_loop_ordered fuel (heap : list SearchNode) pos newitem heap' :
  (pos < length heap)%nat →
  (∀ i x y, (0 < i)%nat → i ≠ pos → heap !! i = Some x →
            heap !! ((i - 1) / 2)%nat = Some y → f_score y ≤ f_score x) →
  (∀ c x, (0 < c)%nat → ((c - 1) / 2)%nat = pos → heap !! c = Some x →
          f_score newitem ≤ f_score x) →
  (∀ c x y, (0 < c)%nat → ((c - 1) / 2)%nat = pos → (0 < pos)%nat →
            heap !! c = Some x → heap !! ((pos - 1) / 2)%nat = Some y →
            f_score y ≤ f_score x) →
  siftdown_loop SearchNode_lt fuel heap 0 pos newitem = Ok heap' →
  heap_ordered heap'.
Proof.
  revert heap pos. induction fuel as [|fuel IH];
    intros heap pos Hpos H1 H2 H3 Hrun; [done|].
  cbn [siftdown_loop] in Hrun.
  assert (list_set heap pos newitem = Ok heap' →
          ((0 < pos)%nat → ∀ y, heap !! ((pos - 1) / 2)%nat = Some y →
             f_score y ≤ f_score newitem) →
          heap_ordered heap') as Hexit.
  { intros Hset Hpar. assert (heap' = <[pos := newitem]> heap) as ->.
    { rewrite list_set_lt in Hset by done. by injection Hset. }
    intros i x y Hi Hx Hy. parent i.
    destruct (decide (i = pos)) as [->|Hip].
    - rewrite list_lookup_insert_eq in Hx by done. injection Hx as <-.
      rewrite list_lookup_insert_ne in Hy by lia. by eapply Hpar.
    - rewrite list_lookup_insert_ne in Hx by done.
      destruct (decide (((i - 1) / 2)%nat = pos)) as [Epar|Epar].
      + rewrite Epar, list_lookup_insert_eq in Hy by done. injection Hy as <-.
        by eapply H2.
      + rewrite list_lookup_insert_ne in Hy by done. by eapply H1. }
  case_decide as Hlt; [|apply Hexit; [done | lia]].
  parent pos.
  destruct (lookup_lt_is_Some_2 heap ((pos - 1) / 2)%nat) as [parent Hparent];
    [lia|].
  rewrite (list_get_Some _ _ _ Hparent) in Hrun. cbn [mbind outcome_bind] in Hrun.
  destruct (SearchNode_lt newitem parent) eqn:Hcmp.
  2:{ apply Hexit; [done|]. intros _ y Hy. rewrite Hparent in Hy.
      injection Hy as <-. by apply SearchNode_lt_false. }
  apply SearchNode_lt_spec in Hcmp.
  rewrite list_set_lt in Hrun by done. cbn [mbind outcome_bind] in Hrun.
  eapply IH; [| | | | exact Hrun].
  - rewrite length_insert. lia.
  - intros i x y Hi Hne Hx Hy. parent i.
    destruct (decide (i = pos)) as [->|Hip].
    + rewrite list_lookup_insert_eq in Hx by done. injection Hx as <-.
      rewrite list_lookup_insert_ne in Hy by lia.
      rewrite Hparent in Hy. injection Hy as <-. lia.
    + rewrite list_lookup_insert_ne in Hx by done.
      destruct (decide (((i - 1) / 2)%nat = pos)) as [Epar|Epar].
      * rewrite Epar, list_lookup_insert_eq in Hy by done. injection Hy as <-.
        by eapply (H3 i).
      * rewrite list_lookup_insert_ne in Hy by done. by eapply H1.
  - intros c x Hc Hcp Hx. parent c.
    destruct (decide (c = pos)) as [->|Hcpos].
    + rewrite list_lookup_insert_eq in Hx by done. injection Hx as <-. lia.
    + rewrite list_lookup_insert_ne in Hx by done.
      specialize (H1 c x parent Hc Hcpos Hx). rewrite Hcp in H1.
      specialize (H1 Hparent). lia.
  - intros c x y Hc Hcp Hpp Hx Hy. parent c. parent ((pos - 1) / 2)%nat.
    rewrite list_lookup_insert_ne in Hy by lia.
    assert (f_score y ≤ f_score parent) as Hyp.
    { eapply (H1 ((pos - 1) / 2)%nat); [done | lia | done | done]. }
    destruct (decide (c = pos)) as [->|Hcpos].
    + rewrite list_lookup_insert_eq in Hx by done. injection Hx as <-. lia.
    + rewrite list_lookup_insert_ne in Hx by done.
      specialize (H1 c x parent Hc Hcpos Hx). rewrite Hcp in H1.
      specialize (H1 Hparent). lia.
Qed.

Lemma heappush_ordered heap item heap' :
  heap_ordered heap → heappush SearchNode_lt heap item = Ok heap' →
  heap_ordered heap'.
Proof.
  intros Hord. unfold heappush, _siftdown.
  rewrite length_app, Nat.add_sub. cbn [length].
  rewrite (list_get_Some _ _ item) by (by rewrite lookup_app_r, Nat.sub_diag).
  cbn [mbind outcome_bind]. intros Hrun.
  eapply siftdown_loop_ordered; [| | | | exact Hrun].
  - rewrite length_app. cbn. lia.
  - intros i x y Hi Hne Hx Hy. parent i.
    assert (i < length heap)%nat.
    { apply lookup_lt_Some in Hx. rewrite length_app in Hx. cbn in Hx. lia. }
    rewrite lookup_app_l in Hx, Hy by lia. by eapply Hord.
  - intros c x Hc Hcp Hx. parent c.
    apply lookup_lt_Some in Hx. rewrite length_app in Hx. cbn in Hx. lia.
  - intros c x y Hc Hcp Hpp Hx Hy. parent c.
    apply lookup_lt_Some in Hx. rewrite length_app in Hx. cbn in Hx. lia.
Qed.

(** [siftup_loop] from the hole [pos] down to a leaf: the pairs that do not
    touch the hole are ordered and the children of the hole are at least
    its parent; afterwards the hole is a leaf and all other pairs are
    ordered. *)
Lemma siftup_loop_ordered fuel (heap : list SearchNode) pos heap' pos' :
  (pos < length heap)%nat →
  (∀ i x y, (0 < i)%nat → i ≠ pos → ((i - 1) / 2)%nat ≠ pos →
            heap !! i = Some x → heap !! ((i - 1) / 2)%nat = Some y →
            f_score y ≤ f_score x) →
  (∀ c x y, (0 < c)%nat → ((c - 1) / 2)%nat = pos → (0 < pos)%nat →
            heap !! c = Some x → heap !! ((pos - 1) / 2)%nat = Some y →
            f_score y ≤ f_score x) →
  siftup_loop SearchNode_lt fuel heap (length heap) pos (2 * pos + 1)%nat
  = Ok (heap', pos') →
  length heap' = length heap ∧ (pos' < length heap)%nat
  ∧ (length heap ≤ 2 * pos' + 1)%nat
  ∧ ∀ i x y, (0 < i)%nat → i ≠ pos' → heap' !! i = Some x →
             heap' !! ((i - 1) / 2)%nat = Some y → f_score y ≤ f_score x.
Proof.
  revert heap pos. induction fuel as [|fuel IH];
    intros heap pos Hpos K1 K3 Hrun; [done|].
  cbn [siftup_loop] in Hrun. case_decide as Hlt.
  2:{ injection Hrun as <- <-. split; [done|]. split; [done|]. split; [lia|].
      intros i x y Hi Hne Hx Hy. parent i.
      apply (K1 i x y); try done.
      apply lookup_lt_Some in Hx. lia. }
  assert (∃ c xc,
    (c = 2 * pos + 1 ∨ c = 2 * pos + 2)%nat ∧ heap !! c = Some xc
    ∧ (∀ s xs, (s = 2 * pos + 1 ∨ s = 2 * pos + 2)%nat → heap !! s = Some xs →
         f_score xc ≤ f_score xs)
    ∧ (if decide (2 * pos + 1 + 1 < length heap)%nat then
         l ← list_get heap (2 * pos + 1)%nat;
         r ← list_get heap (2 * pos + 1 + 1)%nat;
         mret (if negb (SearchNode_lt l r) then (2 * pos + 1 + 1)%nat
               else (2 * pos + 1)%nat)
       else mret (2 * pos + 1)%nat) = Ok c) as (c & xc & Hc & Hxc & Hsmall & Hsel).
  { destruct (lookup_lt_is_Some_2 heap (2 * pos + 1)%nat) as [l Hl]; [lia|].
    case_decide as Hr.
    - destruct (lookup_lt_is_Some_2 heap (2 * pos + 1 + 1)%nat) as [r Hr'];
        [lia|].
      rewrite (list_get_Some _ _ _ Hl), (list_get_Some _ _ _ Hr').
      cbn [mbind outcome_bind]. destruct (SearchNode_lt l r) eqn:Hcmp; cbn [negb].
      + apply SearchNode_lt_spec in Hcmp. exists (2 * pos + 1)%nat, l.
        split; [lia|]. split; [done|]. split; [|done].
        intros s xs [->| ->] Hs.
        * rewrite Hl in Hs. injection Hs as <-. lia.
        * replace (2 * pos + 2)%nat with (2 * pos + 1 + 1)%nat in Hs by lia.
          rewrite Hr' in Hs. injection Hs as <-. lia.
      + apply SearchNode_lt_false in Hcmp. exists (2 * pos + 1 + 1)%nat, r.
        split; [lia|]. split; [done|]. split; [|done].
        intros s xs [->| ->] Hs.
        * rewrite Hl in Hs. injection Hs as <-. lia.
        * replace (2 * pos + 2)%nat with (2 * pos + 1 + 1)%nat in Hs by lia.
          rewrite Hr' in Hs. injection Hs as <-. lia.
    - exists (2 * pos + 1)%nat, l. split; [lia|]. split; [done|]. split; [|done].
      intros s xs [->| ->] Hs.
      + rewrite Hl in Hs. injection Hs as <-. lia.
      + apply lookup_lt_Some in Hs. lia. }
  rewrite Hsel in Hrun. cbn [mbind outcome_bind] in Hrun.
  rewrite (list_get_Some _ _ _ Hxc) in Hrun. cbn [mbind outcome_bind] in Hrun.
  rewrite list_set_lt in Hrun by done. cbn [mbind outcome_bind] in Hrun.
  pose proof (lookup_lt_Some _ _ _ Hxc) as Hclen.
  destruct (IH (<[pos := xc]> heap) c) as (Hlen' & Hpos' & Hleaf & Hord');
    [rewrite length_insert; lia | | | by rewrite length_insert | ].
  - intros i x y Hi Hic Hpc Hx Hy. parent i.
    destruct (decide (i = pos)) as [->|Hip].
    + rewrite list_lookup_insert_eq in Hx by done. injection Hx as <-.
      rewrite list_lookup_insert_ne in Hy by lia.
      apply (K3 c xc y); [lia | | lia | done | done].
      parent c. lia.
    + rewrite list_lookup_insert_ne in Hx by done.
      destruct (decide (((i - 1) / 2)%nat = pos)) as [Epar|Epar].
      * rewrite Epar, list_lookup_insert_eq in Hy by done. injection Hy as <-.
        apply (Hsmall i x); [lia | done].
      * rewrite list_lookup_insert_ne in Hy by done. by apply (K1 i x y).
  - intros d x y Hd Hdc Hc0 Hx Hy. parent d. parent c.
    assert (((c - 1) / 2)%nat = pos) as Ecp by lia.
    rewrite Ecp, list_lookup_insert_eq in Hy by done. injection Hy as <-.
    rewrite list_lookup_insert_ne in Hx by lia.
    apply (K1 d x xc); [lia | lia | lia | done | by rewrite Hdc].
  - rewrite length_insert in Hlen', Hpos', Hleaf. done.
Qed.

Lemma heappop_ordered heap x heap' :
  heap_ordered heap → heappop SearchNode_lt heap = Ok (x, heap') →
  heap_ordered heap'.
Proof.
  intros Hord. unfold heappop.
  destruct (last heap) as [lastelt|] eqn:Hlast; [|done].
  apply last_Some in Hlast as [heap1 ->].
  rewrite length_app. cbn [length]. rewrite take_app_length' by lia.
  destruct heap1 as [|r t].
  { intros [= <- <-]. intros i x' y Hi Hx. done. }
  rewrite list_set_lt by (cbn; lia). cbn [mbind outcome_bind].
  change (<[0%nat := lastelt]> (r :: t)) with (lastelt :: t).
  unfold _siftup.
  change (list_get (lastelt :: t) 0) with (Ok lastelt).
  cbn [mbind outcome_bind].
  destruct (siftup_loop SearchNode_lt (S (length (lastelt :: t))) (lastelt :: t)
              (length (lastelt :: t)) 0 (2 * 0 + 1)%nat)
    as [[h3 pos3]| |] eqn:Hup; [|done..].
  cbn [mbind outcome_bind].
  destruct (siftup_loop_ordered (S (length (lastelt :: t))) (lastelt :: t) 0
              h3 pos3) as (Hlen3 & Hpos3 & Hleaf & Hord3);
    [cbn; lia | | | exact Hup |].
  { intros i a b Hi Hne Hpar Ha Hb. parent i.
    destruct i as [|i]; [lia|].
    destruct ((S i - 1) / 2)%nat as [|j] eqn:Ej; [done|].
    apply (Hord (S i) a b); [lia | |].
    - rewrite lookup_app_l; [done|]. by eapply lookup_lt_Some.
    - rewrite Ej. rewrite lookup_app_l; [done|]. by eapply lookup_lt_Some. }
  { intros c a b Hc Hcp Hpos0. lia. }
  rewrite list_set_lt by lia. cbn [mbind outcome_bind].
  unfold _siftdown. rewrite (list_get_Some _ _ lastelt)
    by (by rewrite list_lookup_insert_eq by lia).
  cbn [mbind outcome_bind].
  destruct (siftdown_loop SearchNode_lt (S pos3) (<[pos3 := lastelt]> h3) 0 pos3
              lastelt) as [h5| |] eqn:Hdown; [|done..].
  cbn [mbind outcome_bind]. intros [= <- <-].
  eapply siftdown_loop_ordered; [| | | | exact Hdown].
  - rewrite length_insert. lia.
  - intros i a b Hi Hne Ha Hb. parent i.
    rewrite list_lookup_insert_ne in Ha by done.
    destruct (decide (((i - 1) / 2)%nat = pos3)) as [Epar|Epar].
    + apply lookup_lt_Some in Ha. lia.
    + rewrite list_lookup_insert_ne in Hb by done. by apply (Hord3 i a b).
  - intros c a Hc Hcp Ha. parent c.
    apply lookup_lt_Some in Ha. rewrite length_insert in Ha. lia.
  - intros c a b Hc Hcp Hp0 Ha. parent c.
    apply lookup_lt_Some in Ha. rewrite length_insert in Ha. lia.
Qed.

Lemma push_all_ordered items heap heap' :
  heap_ordered heap → push_all SearchNode_lt heap items = Ok heap' →
  heap_ordered heap'.
Proof.
  revert heap. induction items as [|x items IH]; intros heap Hord;
    cbn [push_all].
  - by intros [= <-].
  - destruct (heappush SearchNode_lt heap x) as [heap1| |] eqn:Hpush; [|done..].
    cbn [mbind outcome_bind]. apply IH. by eapply heappush_ordered.
Qed.

(** The frontier of every reachable state is a min-heap. *)
Lemma reachable_ordered self max_depth s w0 a0 frontier explored w log :
  store w0 !! board s = Some a0 → wf_board a0 → is_player (player self) →
  reachable self max_depth s w0 frontier explored w log →
  heap_ordered frontier.
Proof.
  intros Hb Hwf Hp Hreach.
  induction Hreach as
    [frontier Hpush
    |frontier explored w log n frontier' w' Hreach IH Hne Hstep
    |frontier explored w log n layout frontier' explored' w' Hreach IH Hne
       Hstep Hlayout].
  - rewrite heappush_empty in Hpush. injection Hpush as <-.
    intros [|i] x y Hi Hx; [lia | done].
  - destruct (reachable_inv _ _ _ _ _ _ _ _ _ Hb Hwf Hp Hreach) as (Hinv & _).
    destruct (search_step_cases self max_depth _ frontier explored w Hp Hne Hinv)
      as (n' & rest & a & Hpop & _ & Hb' & Hn & _).
    destruct Hn as (a' & Ha' & [Hlen _] & _).
    pose proof (search_step_spec self max_depth frontier explored w n' rest a'
                  Hpop Ha' Hlen) as Hspec.
    apply run_spec in Hspec as (st & w2 & Hrun & Hcases).
    rewrite Hstep in Hrun. injection Hrun as <- <-.
    destruct (decide (max_depth ≤ g_score n')); [by destruct Hcases|].
    destruct (decide (a' ∈ explored)).
    + destruct Hcases as [[= -> ->] _]. by eapply heappop_ordered.
    + cbv zeta in Hcases. by destruct Hcases as (fr' & [=] & _).
  - destruct (reachable_inv _ _ _ _ _ _ _ _ _ Hb Hwf Hp Hreach) as (Hinv & _).
    destruct (search_step_cases self max_depth _ frontier explored w Hp Hne Hinv)
      as (n' & rest & a & Hpop & _ & Hb' & Hn & _).
    destruct Hn as (a' & Ha' & [Hlen _] & _).
    pose proof (search_step_spec self max_depth frontier explored w n' rest a'
                  Hpop Ha' Hlen) as Hspec.
    apply run_spec in Hspec as (st & w2 & Hrun & Hcases).
    rewrite Hstep in Hrun. injection Hrun as <- <-.
    destruct (decide (max_depth ≤ g_score n')); [by destruct Hcases|].
    destruct (decide (a' ∈ explored)); [by destruct Hcases|].
    cbv zeta in Hcases. destruct Hcases as (fr' & [= -> -> ->] & Hpush & _).
    eapply push_all_ordered; [|exact Hpush]. by eapply heappop_ordered.
Qed.

(** X11: best-first order.  Every state of the loop of [a_star_search] is
    a state of the run; there the frontier is a binary min-heap by
    [f_score], the node that [heappop] takes out has the least [f_score] of
    all nodes in the frontier, and the frontier it leaves holds exactly the
    other nodes and is a min-heap again. *)
Theorem search_pops_least self max_depth s w0 a0 frontier explored w log :
  store w0 !! board s = Some a0 → wf_board a0 → is_player (player self) →
  reachable self max_depth s w0 frontier explored w log →
  (∃ k, ∀ fuel,
     a_star_search (k + fuel) self s max_depth w0
     = search_loop fuel self max_depth frontier explored w)
  ∧ heap_ordered frontier
  ∧ ∀ n rest, heappop SearchNode_lt frontier = Ok (n, rest) →
      (∀ x, x ∈ frontier → f_score n ≤ f_score x)
      ∧ frontier ≡ₚ n :: rest
      ∧ heap_ordered rest.
Proof.
  intros Hb Hwf Hp Hreach.
  pose proof (reachable_ordered _ _ _ _ _ _ _ _ _ Hb Hwf Hp Hreach) as Hord.
  split; [by eapply reachable_run|].
  split; [done|]. intros n rest Hpop.
  assert (frontier ≠ []) as Hne by (by intros ->).
  destruct (heappop_ok SearchNode_lt frontier Hne)
    as (n' & rest' & Hpop' & Hperm & Hroot).
  rewrite Hpop in Hpop'. injection Hpop' as <- <-.
  split; [|split; [done | by eapply heappop_ordered]].
  intros x Hx. by eapply heap_ordered_root_min.
Qed.

(** After three passes from the starting position the frontier holds ten
    nodes of depths 1 to 3; one of the two of least priority is popped. *)
Lemma search_pops_least_witness :
  ∃ frontier explored w log n rest,
    loop_passes 3 {| player := 1 |} 4
      (start_state {| board := 0 |} initial_world)
    = Some (frontier, explored, w, log)
    ∧ f_score <$> frontier = [2; 2; 4; 4; 4; 6; 8; 6; 8; 6]
    ∧ heappop SearchNode_lt frontier = Ok (n, rest)
    ∧ f_score n = 2
    ∧ f_score <$> rest = [2; 4; 4; 4; 6; 6; 8; 6; 8]
    ∧ (∃ k, ∀ fuel,
         a_star_search (k + fuel) {| player := 1 |} {| board := 0 |} 4
           initial_world
         = search_loop fuel {| player := 1 |} 4 frontier explored w)
    ∧ heap_ordered frontier
    ∧ (∀ x, x ∈ frontier → f_score n ≤ f_score x)
    ∧ frontier ≡ₚ n :: rest
    ∧ heap_ordered rest.
Proof.
  assert ((λ st : loop_state, f_score <$> st.1.1.1)
          <$> loop_passes 3 {| player := 1 |} 4
                (start_state {| board := 0 |} initial_world)
          = Some [2; 2; 4; 4; 4; 6; 8; 6; 8; 6]) as Hfr by (vm_compute; reflexivity).
  assert ((loop_passes 3 {| player := 1 |} 4
             (start_state {| board := 0 |} initial_world)
           ≫= λ st : loop_state,
                match heappop SearchNode_lt st.1.1.1 with
                | Ok (n, rest) => Some (f_score n, f_score <$> rest)
                | _ => None
                end)
          = Some (2, [2; 4; 4; 4; 6; 6; 8; 6; 8])) as Hpop by (vm_compute; reflexivity).
  destruct (loop_passes 3 {| player := 1 |} 4
              (start_state {| board := 0 |} initial_world))
    as [[[[frontier explored] w] log]|] eqn:Hrun; [|done].
  cbn [fmap option_fmap option_map mbind option_bind fst snd] in Hfr, Hpop.
  injection Hfr as Hfr.
  destruct (heappop SearchNode_lt frontier) as [[n rest]| |] eqn:Hpop';
    [|done..].
  injection Hpop as Hn Hrest.
  exists frontier, explored, w, log, n, rest.
  split; [done|]. split; [done|]. split; [done|].
  split; [done|]. split; [done|].
  destruct (search_pops_least {| player := 1 |} 4 {| board := 0 |} initial_world
              initial_cells frontier explored w log)
    as (Hlink & Hord & Hleast).
  - reflexivity.
  - exact wf_initial_cells.
  - left. reflexivity.
  - eapply loop_passes_reachable; [|exact Hrun].
    apply reachable_start. reflexivity.
  - split; [exact Hlink|]. split; [exact Hord|]. exact (Hleast n rest Hpop').
Defined.


(** * Further properties of the evaluator and of the rules *)

Lemma weighted_sum_le_weights a (l : list (Z * Z)) :
  Forall cell_value a →
  Z.abs (foldr Z.add 0
           (map (λ m, cell a m.1 m.2 * positional_weight m.1 m.2) l))
  ≤ foldr Z.add 0 (map (λ m, positional_weight m.1 m.2) l).
Proof.
  intros Ha. induction l as [|m l IH]; [done|]. cbn [map foldr].
  pose proof (cell_value_cell a m.1 m.2 Ha) as Hc.
  pose proof (positional_weight_bounds m.1 m.2) as Hw.
  unfold cell_value in Hc. nia.
Qed.

(** X12: on a board with cells in {-1,0,1} the value of [evaluate] lies
    between -100 and 100, the sum of the 64 positional weights. *)
Theorem evaluate_bounds w self a :
  store w !! board self = Some a → wf_board a →
  ∃ v, res (evaluate self w) = Ok v ∧ -100 ≤ v ≤ 100.
Proof.
  intros Hb Hwf. pose proof Hwf as [Hlen Hcv]. exists (weighted_sum a).
  split.
  { destruct (run_spec _ _ _ (evaluate_spec self a Hlen w Hb))
      as (v & w' & -> & -> & _).
    cbn [res]. by rewrite evaluate_cells_sum. }
  pose proof (weighted_sum_le_weights a all_cells (proj2 Hwf)) as H.
  fold (weighted_sum a) in H.
  assert (foldr Z.add 0 (map (λ m, positional_weight m.1 m.2) all_cells) = 100)
    as E by (by vm_compute).
  rewrite E in H. lia.
Qed.

Lemma evaluate_bounds_witness :
  ∃ v, res (evaluate {| board := 0 |} initial_world) = Ok v ∧ -100 ≤ v ≤ 100.
Proof.
  apply (evaluate_bounds initial_world {| board := 0 |} initial_cells).
  - reflexivity.
  - exact wf_initial_cells.
Defined.

Lemma ray_opp fuel a x y dx dy p tf :
  ray fuel (Z.opp <$> a) x y dx dy (- p) tf = ray fuel a x y dx dy p tf.
Proof.
  revert x y tf. induction fuel as [|fuel IH]; intros x y tf; [done|].
  cbn [ray]. rewrite cell_opp. destruct (on_board x y); [|done].
  destruct (decide (- cell a x y = 0)), (decide (cell a x y = 0)); try lia;
    [done|].
  destruct (decide (- cell a x y = - p)), (decide (cell a x y = p)); try lia;
    [done|]. apply IH.
Qed.

Lemma captured_opp a row col dx dy p :
  captured (Z.opp <$> a) row col dx dy (- p) = captured a row col dx dy p.
Proof. unfold captured. by rewrite ray_opp. Qed.

Lemma valid_cells_opp a row col p :
  valid_cells (Z.opp <$> a) row col (- p) = valid_cells a row col p.
Proof.
  unfold valid_cells, would_flip_cells. rewrite cell_opp. f_equal.
  - apply bool_decide_ext. lia.
  - induction directions as [|d ds IH]; [done|]. cbn [existsb].
    by rewrite captured_opp, IH.
Qed.

Lemma set_cells_opp p l a :
  set_cells (- p) l (Z.opp <$> a) = Z.opp <$> set_cells p l a.
Proof.
  revert a. induction l as [|m l IH]; intros a; [done|].
  rewrite !set_cells_cons, <- IH. f_equal. by rewrite list_fmap_insert.
Qed.

Lemma flip_cells_opp row col p ds a :
  flip_cells row col (- p) ds (Z.opp <$> a)
  = Z.opp <$> flip_cells row col p ds a.
Proof.
  revert a. induction ds as [|d ds IH]; intros a; [done|].
  by rewrite !flip_cells_cons, captured_opp, set_cells_opp, IH.
Qed.

Lemma make_move_cells_opp a row col p :
  make_move_cells (Z.opp <$> a) row col (- p)
  = Z.opp <$> make_move_cells a row col p.
Proof.
  unfold make_move_cells. by rewrite <- flip_cells_opp, list_fmap_insert.
Qed.

(** X13: colour symmetry of the rules.  Negating every cell of the board
    and the player leaves the answer of [is_valid_move] unchanged, and
    [make_move] then returns [None] in both cases or boards that are the
    negation of each other. *)
Theorem rules_colour_symmetric w w' self self' a row col p :
  store w !! board self = Some a →
  store w' !! board self' = Some (Z.opp <$> a) →
  length a = 64%nat → 0 ≤ row < 8 → 0 ≤ col < 8 →
  res (is_valid_move self' row col (- p) w')
  = res (is_valid_move self row col p w)
  ∧ ∃ r w1 r' w1',
      make_move self row col p w = Ok (r, w1)
      ∧ make_move self' row col (- p) w' = Ok (r', w1')
      ∧ match r, r' with
        | None, None => True
        | Some new, Some new' =>
            ∃ b, store w1 !! board new = Some b
                 ∧ store w1' !! board new' = Some (Z.opp <$> b)
        | _, _ => False
        end.
Proof.
  intros Hb Hb' Hlen Hr Hc.
  assert (length (Z.opp <$> a) = 64%nat) as Hlen' by (by rewrite length_fmap).
  split.
  - destruct (run_spec _ _ _ (is_valid_move_spec self a Hlen w row col p Hb Hr Hc))
      as (v & w1 & -> & -> & _).
    destruct (run_spec _ _ _
      (is_valid_move_spec self' _ Hlen' w' row col (- p) Hb' Hr Hc))
      as (v' & w1' & -> & -> & _).
    cbn [res]. by rewrite valid_cells_opp.
  - destruct (run_spec _ _ _ (make_move_spec self a w row col p Hb Hlen Hr Hc))
      as (r & w1 & Hmm & _ & Hres).
    destruct (run_spec _ _ _
      (make_move_spec self' _ w' row col (- p) Hb' Hlen' Hr Hc))
      as (r' & w1' & Hmm' & _ & Hres').
    exists r, w1, r', w1'. split; [done|]. split; [done|].
    rewrite valid_cells_opp in Hres'.
    destruct (valid_cells a row col p).
    + destruct Hres as [-> Hst], Hres' as [-> Hst'].
      exists (make_move_cells a row col p). cbn [board]. split.
      * rewrite Hst. by rewrite lookup_app_r, Nat.sub_diag by lia.
      * rewrite Hst', make_move_cells_opp.
        by rewrite lookup_app_r, Nat.sub_diag by lia.
    + by destruct Hres as [-> _], Hres' as [-> _].
Qed.

Lemma rules_colour_symmetric_witness :
  res (is_valid_move {| board := 1 |} 2 4 (- 1)
         {| store := [initial_cells; Z.opp <$> initial_cells]; trace := [] |})
  = res (is_valid_move {| board := 0 |} 2 4 1 initial_world)
  ∧ ∃ r w1 r' w1',
      make_move {| board := 0 |} 2 4 1 initial_world = Ok (r, w1)
      ∧ make_move {| board := 1 |} 2 4 (- 1)
          {| store := [initial_cells; Z.opp <$> initial_cells]; trace := [] |}
        = Ok (r', w1')
      ∧ match r, r' with
        | None, None => True
        | Some new, Some new' =>
            ∃ b, store w1 !! board new = Some b
                 ∧ store w1' !! board new' = Some (Z.opp <$> b)
        | _, _ => False
        end.
Proof.
  apply (rules_colour_symmetric initial_world _ {| board := 0 |}
           {| board := 1 |} initial_cells 2 4 1).
  - reflexivity.
  - reflexivity.
  - reflexivity.
  - lia.
  - lia.
Defined.

(** * Negative indices *)

(** X14: a row in [-8, -1] is not rejected.  numpy counts it from the end:
    [is_valid_move] returns normally, after an access outside the grid that
    reads the cell of row [row + 8], and answers [False] when that cell is
    occupied; no array is changed. *)
Theorem negative_row_wraps w self a row col p :
  store w !! board self = Some a → length a = 64%nat →
  -8 ≤ row < 0 → 0 ≤ col < 8 →
  ∃ v w',
    is_valid_move self row col p w = Ok (v, w')
    ∧ store w' = store w
    ∧ (self.(board), row, col) ∈ trace w'
    ∧ (cell a (row + 8) col ≠ 0 → v = false).
Proof.
  intros Hb Hlen Hr Hc.
  assert (wp (board_get (board self) row col) w (λ v w1,
            v = cell a (row + 8) col ∧ store w1 = store w
            ∧ trace w1 = (board self, row, col) :: trace w)) as Hget.
  { unfold board_get. apply wp_bind, wp_log_access.
    apply wp_bind. eapply wp_lift.
    { unfold np_index. rewrite decide_False by lia. by rewrite decide_True. }
    apply wp_bind, (wp_lift _ _ _ _ (np_index_on_board col Hc)).
    apply wp_bind. eapply wp_load; [done|].
    fold (idx (row + 8) col).
    rewrite (lookup_cell a (row + 8) col) by (done || lia).
    by apply wp_ret. }
  assert (wp (is_valid_move self row col p) w (λ v w',
            store w' = store w ∧ (board self, row, col) ∈ trace w'
            ∧ (cell a (row + 8) col ≠ 0 → v = false))) as Hwp.
  2:{ apply run_spec in Hwp as (v & w' & Hrun & H). by exists v, w'. }
  unfold is_valid_move. apply wp_bind. eapply wp_mono; [exact Hget|].
  cbv beta. intros v w1 (-> & Hst1 & Htr1).
  destruct (decide (cell a (row + 8) col ≠ 0)) as [Hocc|Hfree].
  - apply wp_ret. split; [done|]. split; [|done]. rewrite Htr1. by left.
  - eapply wp_mono.
    + apply (any_would_flip_spec self a Hlen); [by rewrite Hst1 | done].
    + cbv beta. intros v w2 (-> & Hst2 & t & Htr2 & _).
      split; [congruence|]. split; [|done].
      rewrite Htr2, Htr1. apply elem_of_app. right. by left.
Qed.

Lemma negative_row_wraps_witness :
  ∃ v w',
    is_valid_move {| board := 0 |} (-4) 3 1 initial_world = Ok (v, w')
    ∧ store w' = store initial_world
    ∧ (0%nat, -4, 3) ∈ trace w'
    ∧ (cell initial_cells (-4 + 8) 3 ≠ 0 → v = false).
Proof.
  apply (negative_row_wraps initial_world {| board := 0 |} initial_cells (-4) 3 1).
  - reflexivity.
  - reflexivity.
  - lia.
  - lia.
Defined.
